(** * chunkymonkey: packet codec, chunk manager, inventory slots, player session

    A shallow embedding of the Go sources and the properties checked on them.

    - [Inventory]: [Slot] with [Init], [setQuantity] and [Add].
    - [Chunk]: [ChunkManager] with [Get] and [ChunksInRadius].
    - [Proto]: [PacketSerializer] with [ReadPacket] / [WritePacket].
    - [Main]: the [Player] session: packet handlers, [sendChunks], [postLogin].

    Fixed-width Go integers are integers of [Z] with the wrap-around written
    out ([wrap_signed], [wrap_unsigned]). *)

From Stdlib Require Import ZArith QArith List Lia Bool.
From Stdlib Require Import Strings.Byte.
From stdpp Require Import base option list gmap.

Local Open Scope Z_scope.

(** ** Fixed-width integer arithmetic *)

(** The value of an unsigned [w]-bit Go integer holding [z]. *)
Definition wrap_unsigned (w z : Z) : Z := z mod 2 ^ w.

(** The value of a signed [w]-bit Go integer holding [z] (two's complement). *)
Definition wrap_signed (w z : Z) : Z := (z + 2 ^ (w - 1)) mod 2 ^ w - 2 ^ (w - 1).

(** ** Counting loops over [int32]

    [for i := lo; cond(i); i++ { body }] with an [int32] counter: the
    increment wraps around.  Such a loop need not terminate (a bound of
    [MaxInt32] under [<=] is never exceeded), so the model runs on fuel: one
    unit per evaluation of the loop condition, [None] when it runs out. *)

Definition int32 (z : Z) : Z := wrap_signed 32 z.

Fixpoint for_loop {S : Type} (fuel : nat) (cond : Z -> bool) (i : Z)
    (body : Z -> S -> option S) (s : S) : option S :=
  match fuel with
  | O => None
  | Datatypes.S fuel' =>
      if cond i then
        match body i s with
        | Some s' => for_loop fuel' cond (int32 (i + 1)) body s'
        | None => None
        end
      else Some s
  end.

(** Running a loop body once for each element of a list, in order. *)
Fixpoint for_each {S : Type} (l : list Z) (body : Z -> S -> option S) (s : S)
    : option S :=
  match l with
  | [] => Some s
  | i :: l' =>
      match body i s with
      | Some s' => for_each l' body s'
      | None => None
      end
  end.

(** ** Fixed-width integers and loops: lemmas *)

Lemma pow2_split (w : Z) : 0 < w -> 2 ^ w = 2 * 2 ^ (w - 1).
Proof.
  intros Hw. replace w with (Z.succ (w - 1)) at 1 by lia.
  rewrite Z.pow_succ_r by lia. reflexivity.
Qed.

Lemma wrap_signed_small (w z : Z) :
  0 < w -> - 2 ^ (w - 1) <= z < 2 ^ (w - 1) -> wrap_signed w z = z.
Proof.
  intros Hw Hz. unfold wrap_signed.
  rewrite Z.mod_small; [lia|]. rewrite (pow2_split w Hw). lia.
Qed.

Lemma wrap_signed_range (w z : Z) :
  0 < w -> - 2 ^ (w - 1) <= wrap_signed w z < 2 ^ (w - 1).
Proof.
  intros Hw. unfold wrap_signed.
  assert (0 < 2 ^ w) by (apply Z.pow_pos_nonneg; lia).
  pose proof (Z.mod_pos_bound (z + 2 ^ (w - 1)) (2 ^ w) H).
  rewrite (pow2_split w Hw) in *. lia.
Qed.

Lemma wrap_unsigned_small (w z : Z) : 0 <= z < 2 ^ w -> wrap_unsigned w z = z.
Proof. intros Hz. unfold wrap_unsigned. apply Z.mod_small; exact Hz. Qed.

Lemma wrap_signed_congr (w z : Z) :
  0 < w -> wrap_signed w z mod 2 ^ w = z mod 2 ^ w.
Proof.
  intros Hw. unfold wrap_signed.
  assert (0 < 2 ^ w) by (apply Z.pow_pos_nonneg; lia).
  rewrite <- Zminus_mod_idemp_l.
  rewrite Z.mod_mod by lia.
  rewrite Zminus_mod_idemp_l. f_equal. lia.
Qed.

Lemma pow2_ge_128 (w : Z) : 8 <= w -> 128 <= 2 ^ (w - 1).
Proof.
  intros Hw. change 128 with (2 ^ 7).
  apply Z.pow_le_mono_r; lia.
Qed.

Lemma int32_small (z : Z) : - 2 ^ 31 <= z < 2 ^ 31 -> int32 z = z.
Proof. intros Hz. unfold int32. apply wrap_signed_small; [lia | exact Hz]. Qed.

(** A loop whose counter stays clear of [MaxInt32] runs its body on the
    consecutive values [lo], ..., [lo + n - 1], given fuel for [n + 1]
    evaluations of the condition. *)
Lemma for_loop_range {S : Type} (cond : Z -> bool) (body : Z -> S -> option S)
    (n : nat) :
  forall (fuel : nat) (lo : Z) (s : S),
    (n < fuel)%nat ->
    - 2 ^ 31 <= lo -> lo + Z.of_nat n < 2 ^ 31 ->
    (forall i, lo <= i < lo + Z.of_nat n -> cond i = true) ->
    cond (lo + Z.of_nat n) = false ->
    for_loop fuel cond lo body s = for_each (seqZ lo (Z.of_nat n)) body s.
Proof.
  induction n as [|n IH]; intros fuel lo s Hfuel Hlo Hhi Hin Hout.
  - destruct fuel as [|fuel]; [lia|]. simpl.
    rewrite Z.add_0_r in Hout. rewrite Hout. reflexivity.
  - destruct fuel as [|fuel]; [lia|]. simpl.
    rewrite Hin by lia.
    rewrite seqZ_cons by lia. simpl.
    destruct (body lo s) as [s'|]; [|reflexivity].
    rewrite int32_small by lia.
    replace (Z.pred (Z.of_nat (Datatypes.S n))) with (Z.of_nat n) by lia.
    apply IH; try lia.
    + intros i Hi. apply Hin. lia.
    + replace (Z.succ lo + Z.of_nat n) with (lo + Z.of_nat (Datatypes.S n)) by lia.
      exact Hout.
Qed.

(** A loop whose condition holds on every [int32] value never ends. *)
Lemma for_loop_diverges {S : Type} (cond : Z -> bool) (body : Z -> S -> option S) :
  (forall i, - 2 ^ 31 <= i < 2 ^ 31 -> cond i = true) ->
  forall (fuel : nat) (i : Z) (s : S),
    - 2 ^ 31 <= i < 2 ^ 31 -> for_loop fuel cond i body s = None.
Proof.
  intros Hcond fuel. induction fuel as [|fuel IH]; intros i s Hi; [reflexivity|].
  simpl. rewrite Hcond by exact Hi.
  destruct (body i s) as [s'|]; [|reflexivity].
  apply IH. apply (wrap_signed_range 32 (i + 1)). lia.
Qed.

(** ** package inventory *)

Module Inventory.

(** An inventory slot (struct [Slot]).  [ItemId], [ItemCount] and [ItemUses]
    are integer types declared in chunkymonkey/types. *)
Record Slot : Type := mkSlot {
  ItemType : Z;
  Quantity : Z;
  Uses : Z
}.

Section SlotOps.

(** [ItemCount] is a signed integer type whose declaration lies outside
    this package; its width in bits is a parameter of the model.  The same
    holds for the constant [ItemIdNull]. *)
Variable ItemCountBits : Z.
Variable ItemIdNull : Z.

(** Conversion to [ItemCount], and arithmetic in that type. *)
Definition ItemCount (z : Z) : Z := wrap_signed ItemCountBits z.

(** [const SlotQuantityMax = ItemCount(64)] *)
Definition SlotQuantityMax : Z := ItemCount 64.

(** [func (s *Slot) Init()] *)
Definition Init (s : Slot) : Slot :=
  {| ItemType := ItemIdNull; Quantity := 0; Uses := 0 |}.

(** [func (s *Slot) GetAttr()] *)
Definition GetAttr (s : Slot) : Z * Z * Z := (ItemType s, Quantity s, Uses s).

(** [func (s *Slot) setQuantity(quantity ItemCount)] *)
Definition setQuantity (s : Slot) (quantity : Z) : Slot :=
  let s1 := {| ItemType := ItemType s; Quantity := quantity; Uses := Uses s |} in
  if Quantity s1 =? 0
  then {| ItemType := ItemIdNull; Quantity := Quantity s1; Uses := 0 |}
  else s1.

(** The part of [Add] after the two guards: the transfer itself. *)
Definition Add_transfer (s src : Slot) : Slot * Slot :=
  let s1 := {| ItemType := ItemType src; Quantity := Quantity s; Uses := Uses s |} in
  let toTransfer := Quantity src in
  let toTransfer :=
    if ItemCount (Quantity s1 + toTransfer) >? SlotQuantityMax
    then ItemCount (SlotQuantityMax - Quantity s1)
    else toTransfer in
  let s2 := {| ItemType := ItemType s1; Quantity := Quantity s1; Uses := Uses src |} in
  let s3 := setQuantity s2 (ItemCount (Quantity s2 + toTransfer)) in
  let src1 := setQuantity src (ItemCount (Quantity src - toTransfer)) in
  (s3, src1).

(** [func (s *Slot) Add(src *Slot)], for two distinct slots: the result is
    the pair (destination, source) after the call. *)
Definition Add (s src : Slot) : Slot * Slot :=
  let guarded :=
    if Quantity s >=? SlotQuantityMax then (s, src) else Add_transfer s src in
  if negb (ItemType s =? ItemIdNull) then
    if negb (ItemType s =? ItemType src) then (s, src)
    else if negb (Uses s =? Uses src) then (s, src)
    else guarded
  else guarded.

(** [s.Add(s)]: the call with the subject slot itself as the source, so
    that every write through [s] is seen through [src] and the other way
    round.  The result is the slot after the call. *)
Definition Add_self (s : Slot) : Slot :=
  let guarded :=
    if Quantity s >=? SlotQuantityMax then s
    else
      let s1 := {| ItemType := ItemType s; Quantity := Quantity s; Uses := Uses s |} in
      let toTransfer := Quantity s1 in
      let toTransfer :=
        if ItemCount (Quantity s1 + toTransfer) >? SlotQuantityMax
        then ItemCount (SlotQuantityMax - Quantity s1)
        else toTransfer in
      let s2 := {| ItemType := ItemType s1; Quantity := Quantity s1; Uses := Uses s1 |} in
      let s3 := setQuantity s2 (ItemCount (Quantity s2 + toTransfer)) in
      setQuantity s3 (ItemCount (Quantity s3 - toTransfer)) in
  if negb (ItemType s =? ItemIdNull) then
    if negb (ItemType s =? ItemType s) then s
    else if negb (Uses s =? Uses s) then s
    else guarded
  else guarded.

(** The normalisation invariant of a slot: an empty slot has no item type
    and no uses. *)
Definition normalised (s : Slot) : Prop :=
  Quantity s = 0 -> ItemType s = ItemIdNull /\ Uses s = 0.

Lemma setQuantity_normalised (s : Slot) (q : Z) : normalised (setQuantity s q).
Proof.
  unfold normalised, setQuantity. simpl.
  destruct (q =? 0) eqn:E; simpl; intros Hq.
  - split; reflexivity.
  - apply Z.eqb_neq in E. contradiction.
Qed.

Lemma setQuantity_Quantity (s : Slot) (q : Z) : Quantity (setQuantity s q) = q.
Proof. unfold setQuantity. simpl. destruct (q =? 0); reflexivity. Qed.

Lemma Add_transfer_normalised (s src : Slot) :
  normalised (fst (Add_transfer s src)) /\ normalised (snd (Add_transfer s src)).
Proof. unfold Add_transfer. simpl. split; apply setQuantity_normalised. Qed.

(** [Add] either leaves both slots as they are or runs the transfer. *)
Lemma Add_cases (s src : Slot) :
  Add s src = (s, src) \/
  (Quantity s < SlotQuantityMax /\ Add s src = Add_transfer s src).
Proof.
  unfold Add.
  destruct (Quantity s >=? SlotQuantityMax) eqn:Hmax.
  - left. repeat match goal with |- context [if ?b then _ else _] => destruct b end;
      reflexivity.
  - assert (Quantity s < SlotQuantityMax) by lia.
    repeat match goal with |- context [if ?b then _ else _] => destruct b end;
      auto.
Qed.

(** [Add_self] either leaves the slot as it is or ends with [setQuantity]. *)
Lemma Add_self_cases (s : Slot) :
  Add_self s = s \/
  (Quantity s < SlotQuantityMax /\
   exists s3 toTransfer,
     Quantity s3 =
       ItemCount (Quantity s +
                  (if ItemCount (Quantity s + Quantity s) >? SlotQuantityMax
                   then ItemCount (SlotQuantityMax - Quantity s)
                   else Quantity s)) /\
     toTransfer = (if ItemCount (Quantity s + Quantity s) >? SlotQuantityMax
                   then ItemCount (SlotQuantityMax - Quantity s)
                   else Quantity s) /\
     Add_self s = setQuantity s3 (ItemCount (Quantity s3 - toTransfer))).
Proof.
  unfold Add_self. cbn [ItemType Quantity Uses].
  rewrite !Z.eqb_refl. cbn [negb].
  destruct (Quantity s >=? SlotQuantityMax) eqn:Hmax.
  - left. destruct (negb (ItemType s =? ItemIdNull)); reflexivity.
  - right. split; [lia|].
    eexists _, _. split; [|split; [reflexivity|]].
    2:{ destruct (negb (ItemType s =? ItemIdNull)); reflexivity. }
    apply setQuantity_Quantity.
Qed.

(** In [ItemCount] arithmetic (modulo [2 ^ ItemCountBits]) the total is
    conserved by the transfer on every input. *)
Lemma Add_transfer_total_mod (s src : Slot) :
  0 < ItemCountBits ->
  let r := Add_transfer s src in
  (Quantity (fst r) + Quantity (snd r)) mod 2 ^ ItemCountBits
  = (Quantity s + Quantity src) mod 2 ^ ItemCountBits.
Proof.
  intros Hw. unfold Add_transfer. cbv zeta. simpl fst. simpl snd.
  rewrite !setQuantity_Quantity. simpl.
  set (t := if _ >? _ then _ else _).
  unfold ItemCount.
  rewrite Zplus_mod, !wrap_signed_congr by exact Hw.
  rewrite <- Zplus_mod. f_equal. lia.
Qed.

End SlotOps.

(** Whatever the width of [ItemCount], a destination holding 63 items and a
    source holding the largest quantity of the type make the sum in [Add]
    wrap around: the cap is not applied, and the total after the call is
    not the total before it. *)
Lemma Add_overflow_any_width (bits null kind uses : Z) :
  8 <= bits -> kind <> null ->
  let s := mkSlot kind 63 uses in
  let src := mkSlot kind (2 ^ (bits - 1) - 1) uses in
  Add bits null s src = (mkSlot kind (62 - 2 ^ (bits - 1)) uses, mkSlot null 0 0).
Proof.
  intros Hbits Hkind s src.
  pose proof (pow2_ge_128 bits Hbits) as Hpow.
  assert (Hmax : SlotQuantityMax bits = 64).
  { unfold SlotQuantityMax, ItemCount. apply wrap_signed_small; lia. }
  assert (Hsum : ItemCount bits (63 + (2 ^ (bits - 1) - 1)) = 62 - 2 ^ (bits - 1)).
  { unfold ItemCount, wrap_signed.
    replace (63 + (2 ^ (bits - 1) - 1) + 2 ^ (bits - 1))
      with (62 + 1 * 2 ^ bits) by (rewrite (pow2_split bits); lia).
    rewrite Z_mod_plus_full, Z.mod_small; [lia|].
    rewrite (pow2_split bits); lia. }
  unfold Add. subst s src. cbn [ItemType Quantity Uses].
  rewrite Hmax.
  destruct (kind =? null) eqn:E1; [lia|]. cbn [negb].
  rewrite !Z.eqb_refl. cbn [negb].
  destruct (63 >=? 64) eqn:E2; [lia|].
  unfold Add_transfer. cbn [ItemType Quantity Uses].
  rewrite Hmax, Hsum.
  destruct (62 - 2 ^ (bits - 1) >? 64) eqn:E3; [lia|].
  unfold setQuantity. cbn [ItemType Quantity Uses].
  rewrite Hsum.
  replace (ItemCount bits (2 ^ (bits - 1) - 1 - (2 ^ (bits - 1) - 1))) with 0
    by (unfold ItemCount; rewrite Z.sub_diag, wrap_signed_small; lia).
  destruct (62 - 2 ^ (bits - 1) =? 0) eqn:E4; [lia|].
  reflexivity.
Qed.

(** C9, as stated, at a concrete input: with an 8-bit [ItemCount], adding a
    source slot of 127 items to a destination holding 63 items of the same
    kind leaves -66 and 0 items: the total 190 is not conserved. *)
Lemma Add_total_not_conserved :
  let s := mkSlot 5 63 0 in
  let src := mkSlot 5 127 0 in
  0 <= Quantity s /\ 0 <= Quantity src /\
  Add 8 (-1) s src = (mkSlot 5 (-66) 0, mkSlot (-1) 0 0) /\
  Quantity (fst (Add 8 (-1) s src)) + Quantity (snd (Add 8 (-1) s src))
  <> Quantity s + Quantity src.
Proof. vm_compute. repeat split; discriminate. Qed.

(** C9 (amended): [Add] conserves the total item quantity for every pair of
    slots whose quantities lie in [0, SlotQuantityMax], whether or not any
    item is transferred, and also when the two slots are one and the same;
    [ItemCount] is any signed type of at least 8 bits. *)
Theorem Add_conserves_total (bits null : Z) (s src : Slot) :
  8 <= bits ->
  0 <= Quantity s <= SlotQuantityMax bits ->
  0 <= Quantity src <= SlotQuantityMax bits ->
  Quantity (fst (Add bits null s src)) + Quantity (snd (Add bits null s src))
  = Quantity s + Quantity src /\
  Quantity (Add_self bits null s) + Quantity (Add_self bits null s)
  = Quantity s + Quantity s.
Proof.
  intros Hbits Hs Hsrc.
  pose proof (pow2_ge_128 bits Hbits) as Hpow.
  assert (Hmax : SlotQuantityMax bits = 64).
  { unfold SlotQuantityMax, ItemCount. apply wrap_signed_small; lia. }
  rewrite Hmax in *. split.
  - destruct (Add_cases bits null s src) as [-> | [Hlt ->]]; [reflexivity|].
    rewrite Hmax in Hlt.
    unfold Add_transfer. cbv zeta. simpl fst. simpl snd.
    rewrite !setQuantity_Quantity. simpl. rewrite Hmax.
    unfold ItemCount.
    rewrite (wrap_signed_small bits (Quantity s + Quantity src)) by lia.
    destruct (Quantity s + Quantity src >? 64) eqn:Hcap.
    + rewrite (wrap_signed_small bits (64 - Quantity s)) by lia.
      rewrite !wrap_signed_small by lia. lia.
    + rewrite !wrap_signed_small by lia. lia.
  - destruct (Add_self_cases bits null s)
      as [-> | (Hlt & s3 & t & Hq3 & Ht & ->)]; [reflexivity|].
    rewrite Hmax in Hlt, Hq3, Ht.
    rewrite setQuantity_Quantity, Hq3, Ht. unfold ItemCount.
    rewrite (wrap_signed_small bits (Quantity s + Quantity s)) by lia.
    destruct (Quantity s + Quantity s >? 64) eqn:Hcap.
    + rewrite (wrap_signed_small bits (64 - Quantity s)) by lia.
      rewrite (wrap_signed_small bits (Quantity s + (64 - Quantity s))) by lia.
      rewrite !wrap_signed_small by lia. lia.
    + rewrite (wrap_signed_small bits (Quantity s + Quantity s)) by lia.
      rewrite !wrap_signed_small by lia. lia.
Qed.

Lemma Add_conserves_total_witness :
  Quantity (fst (Add 8 (-1) (mkSlot 5 60 0) (mkSlot 5 10 0)))
  + Quantity (snd (Add 8 (-1) (mkSlot 5 60 0) (mkSlot 5 10 0))) = 60 + 10.
Proof.
  apply (Add_conserves_total 8 (-1) (mkSlot 5 60 0) (mkSlot 5 10 0));
    [lia | vm_compute; split; discriminate ..].
Defined.

(** C10: the normalisation invariant (an empty slot has item type
    [ItemIdNull] and no uses) is established by [Init] and kept by [Add], for
    the destination and for the source, whenever both argument slots satisfy
    it and hold quantities in [0, SlotQuantityMax]; so it is when the two
    slots are one and the same. *)
Theorem normalised_Init_Add (bits null : Z) :
  (forall s, normalised null (Init null s)) /\
  (forall s src,
      normalised null s -> normalised null src ->
      0 <= Quantity s <= SlotQuantityMax bits ->
      0 <= Quantity src <= SlotQuantityMax bits ->
      normalised null (fst (Add bits null s src)) /\
      normalised null (snd (Add bits null s src)) /\
      normalised null (Add_self bits null s)).
Proof.
  split.
  - intros s. unfold normalised, Init. simpl. intros _. split; reflexivity.
  - intros s src Hs Hsrc _ _. split; [|split].
    + destruct (Add_cases bits null s src) as [-> | [_ ->]]; [assumption|].
      apply Add_transfer_normalised.
    + destruct (Add_cases bits null s src) as [-> | [_ ->]]; [assumption|].
      apply Add_transfer_normalised.
    + destruct (Add_self_cases bits null s)
        as [-> | (_ & s3 & t & _ & _ & ->)]; [assumption|].
      apply setQuantity_normalised.
Qed.

Lemma normalised_Init_Add_witness :
  normalised (-1) (fst (Add 8 (-1) (mkSlot (-1) 0 0) (mkSlot 5 10 3))) /\
  normalised (-1) (snd (Add 8 (-1) (mkSlot (-1) 0 0) (mkSlot 5 10 3))) /\
  normalised (-1) (Add_self 8 (-1) (mkSlot (-1) 0 0)).
Proof.
  apply (proj2 (normalised_Init_Add 8 (-1)) (mkSlot (-1) 0 0) (mkSlot 5 10 3)).
  - intros _. split; reflexivity.
  - intros H. vm_compute in H. discriminate.
  - vm_compute. split; discriminate.
  - vm_compute. split; discriminate.
Defined.

(** *** Further properties of [Add] *)

(** [Add], with its three guards in one condition. *)
Lemma Add_guards (bits null : Z) (s src : Slot) :
  Add bits null s src
  = if (negb (ItemType s =? null)
        && (negb (ItemType s =? ItemType src) || negb (Uses s =? Uses src)))
       || (Quantity s >=? SlotQuantityMax bits)
    then (s, src)
    else Add_transfer bits null s src.
Proof.
  unfold Add.
  destruct (negb (ItemType s =? null)), (negb (ItemType s =? ItemType src)),
    (negb (Uses s =? Uses src)), (Quantity s >=? SlotQuantityMax bits);
    reflexivity.
Qed.

Lemma SlotQuantityMax_64 (bits : Z) : 8 <= bits -> SlotQuantityMax bits = 64.
Proof.
  intros Hbits. pose proof (pow2_ge_128 bits Hbits).
  unfold SlotQuantityMax, ItemCount. apply wrap_signed_small; lia.
Qed.

(** The transfer, for quantities within [SlotQuantityMax]: the destination
    is filled up to the maximum, the source keeps the rest. *)
Lemma Add_transfer_in_range (bits null : Z) (s src : Slot) :
  8 <= bits -> 0 <= Quantity s < 64 -> 0 <= Quantity src <= 64 ->
  Add_transfer bits null s src
  = (setQuantity null (mkSlot (ItemType src) (Quantity s) (Uses src))
       (Z.min 64 (Quantity s + Quantity src)),
     setQuantity null src
       (Quantity s + Quantity src - Z.min 64 (Quantity s + Quantity src))).
Proof.
  intros Hbits Hs Hsrc. pose proof (pow2_ge_128 bits Hbits) as Hpow.
  unfold Add_transfer. cbn [ItemType Quantity Uses].
  rewrite (SlotQuantityMax_64 bits Hbits). unfold ItemCount.
  rewrite (wrap_signed_small bits (Quantity s + Quantity src)) by lia.
  rewrite (wrap_signed_small bits (64 - Quantity s)) by lia.
  destruct (Quantity s + Quantity src >? 64) eqn:Hcap.
  - rewrite Z.min_l by lia.
    rewrite !wrap_signed_small by lia.
    f_equal; f_equal; lia.
  - rewrite Z.min_r by lia.
    rewrite !wrap_signed_small by lia.
    f_equal; f_equal; lia.
Qed.

(** X1: when the destination is empty of type, or holds the same item type
    with the same uses as the source, and both quantities lie in
    [0, SlotQuantityMax], [Add] moves as many items as fit: the destination
    ends with min(SlotQuantityMax, s.Quantity + src.Quantity) items, the
    source with the rest, so that afterwards the source is empty or the
    destination is full. *)
Theorem Add_moves_all_that_fits (bits null : Z) (s src : Slot) :
  8 <= bits ->
  0 <= Quantity s <= SlotQuantityMax bits ->
  0 <= Quantity src <= SlotQuantityMax bits ->
  ItemType s = null \/ (ItemType s = ItemType src /\ Uses s = Uses src) ->
  let s' := fst (Add bits null s src) in
  let src' := snd (Add bits null s src) in
  Quantity s' = Z.min (SlotQuantityMax bits) (Quantity s + Quantity src) /\
  Quantity src' = Quantity s + Quantity src - Quantity s' /\
  (Quantity src' = 0 \/ Quantity s' = SlotQuantityMax bits).
Proof.
  intros Hbits Hs Hsrc Hstack s' src'. subst s' src'.
  rewrite (SlotQuantityMax_64 bits Hbits) in *.
  rewrite Add_guards, (SlotQuantityMax_64 bits Hbits).
  assert (Hg : negb (ItemType s =? null)
               && (negb (ItemType s =? ItemType src) || negb (Uses s =? Uses src))
               = false).
  { destruct Hstack as [H | [H1 H2]].
    - rewrite H, Z.eqb_refl. reflexivity.
    - rewrite <- H1, <- H2, !Z.eqb_refl. apply andb_false_r. }
  rewrite Hg. cbn [orb].
  destruct (Quantity s >=? 64) eqn:Hfull.
  - cbn [fst snd]. lia.
  - rewrite Add_transfer_in_range by lia. cbn [fst snd].
    rewrite !setQuantity_Quantity. lia.
Qed.

Lemma Add_moves_all_that_fits_witness :
  Quantity (fst (Add 8 (-1) (mkSlot 5 60 0) (mkSlot 5 10 0))) = 64 /\
  Quantity (snd (Add 8 (-1) (mkSlot 5 60 0) (mkSlot 5 10 0))) = 6.
Proof.
  destruct (Add_moves_all_that_fits 8 (-1) (mkSlot 5 60 0) (mkSlot 5 10 0))
    as (H1 & H2 & _).
  - lia.
  - vm_compute. split; discriminate.
  - vm_compute. split; discriminate.
  - right. split; reflexivity.
  - split; [exact H1 | rewrite H2, H1; reflexivity].
Defined.

(** X2: [Add] keeps quantities within bounds: if both slots hold between 0
    and [SlotQuantityMax] items before the call, both do after it, whatever
    their item types and uses. *)
Theorem Add_keeps_quantities_in_range (bits null : Z) (s src : Slot) :
  8 <= bits ->
  0 <= Quantity s <= SlotQuantityMax bits ->
  0 <= Quantity src <= SlotQuantityMax bits ->
  0 <= Quantity (fst (Add bits null s src)) <= SlotQuantityMax bits /\
  0 <= Quantity (snd (Add bits null s src)) <= SlotQuantityMax bits.
Proof.
  intros Hbits Hs Hsrc.
  rewrite (SlotQuantityMax_64 bits Hbits) in *.
  rewrite Add_guards, (SlotQuantityMax_64 bits Hbits).
  destruct (_ || (Quantity s >=? 64)) eqn:Hg.
  - cbn [fst snd]. lia.
  - apply orb_false_iff in Hg as [_ Hfull].
    rewrite Add_transfer_in_range by lia. cbn [fst snd].
    rewrite !setQuantity_Quantity. lia.
Qed.

Lemma Add_keeps_quantities_in_range_witness :
  0 <= Quantity (fst (Add 8 (-1) (mkSlot 5 60 0) (mkSlot 5 64 0))) <= 64 /\
  0 <= Quantity (snd (Add 8 (-1) (mkSlot 5 60 0) (mkSlot 5 64 0))) <= 64.
Proof.
  apply (Add_keeps_quantities_in_range 8 (-1) (mkSlot 5 60 0) (mkSlot 5 64 0));
    [lia | vm_compute; split; discriminate ..].
Defined.

(** X3: [Add] never mixes items.  With quantities in [0, SlotQuantityMax]:
    when the destination has received items, it has the item type and the
    uses of the source; and a destination that had an item type and is not
    empty after the call still has that item type and its uses. *)
Theorem Add_never_mixes_items (bits null : Z) (s src : Slot) :
  8 <= bits ->
  0 <= Quantity s <= SlotQuantityMax bits ->
  0 <= Quantity src <= SlotQuantityMax bits ->
  let s' := fst (Add bits null s src) in
  (Quantity s' <> Quantity s ->
   ItemType s' = ItemType src /\ Uses s' = Uses src) /\
  (ItemType s <> null -> Quantity s' <> 0 ->
   ItemType s' = ItemType s /\ Uses s' = Uses s /\
   (Quantity s' <> Quantity s ->
    ItemType src = ItemType s /\ Uses src = Uses s)).
Proof.
  intros Hbits Hs Hsrc s'. subst s'.
  rewrite (SlotQuantityMax_64 bits Hbits) in *.
  rewrite Add_guards, (SlotQuantityMax_64 bits Hbits).
  destruct (negb (ItemType s =? null)
            && (negb (ItemType s =? ItemType src) || negb (Uses s =? Uses src)))
    eqn:Hg1; cbn [orb].
  { cbn [fst]. split; [intros H; contradiction|]. intros _ _.
    split; [reflexivity|]. split; [reflexivity|]. intros H; contradiction. }
  destruct (Quantity s >=? 64) eqn:Hfull.
  { cbn [fst]. split; [intros H; contradiction|]. intros _ _.
    split; [reflexivity|]. split; [reflexivity|]. intros H; contradiction. }
  rewrite Add_transfer_in_range by lia. cbn [fst].
  rewrite setQuantity_Quantity.
  unfold setQuantity. cbn [ItemType Quantity Uses].
  destruct (Z.min 64 (Quantity s + Quantity src) =? 0) eqn:Hzero;
    cbn [ItemType Quantity Uses].
  - split; [intros H; lia|]. intros _ H. lia.
  - split; [intros _; split; reflexivity|].
    intros Hnull _.
    apply andb_false_iff in Hg1 as [Hg1 | Hg1].
    + apply negb_false_iff, Z.eqb_eq in Hg1. contradiction.
    + apply orb_false_iff in Hg1 as [Ht Hu].
      apply negb_false_iff, Z.eqb_eq in Ht, Hu.
      repeat split; congruence.
Qed.

Lemma Add_never_mixes_items_witness :
  ItemType (fst (Add 8 (-1) (mkSlot 5 60 2) (mkSlot 7 10 0))) = 5 /\
  Uses (fst (Add 8 (-1) (mkSlot 5 60 2) (mkSlot 7 10 0))) = 2.
Proof.
  destruct (Add_never_mixes_items 8 (-1) (mkSlot 5 60 2) (mkSlot 7 10 0))
    as (_ & H).
  - lia.
  - vm_compute. split; discriminate.
  - vm_compute. split; discriminate.
  - destruct H as (H1 & H2 & _).
    + discriminate.
    + vm_compute. discriminate.
    + split; [exact H1 | exact H2].
Defined.

(** X4: a second [Add] moves nothing.  For slots with quantities in
    [0, SlotQuantityMax] and a source that is normalised and has an item type
    whenever it is not empty, calling [Add] again on the two slots that the
    first call has left changes neither. *)
Theorem Add_twice (bits null : Z) (s src : Slot) :
  8 <= bits ->
  0 <= Quantity s <= SlotQuantityMax bits ->
  0 <= Quantity src <= SlotQuantityMax bits ->
  normalised null src ->
  (ItemType src = null -> Quantity src = 0) ->
  let r := Add bits null s src in
  Add bits null (fst r) (snd r) = r.
Proof.
  intros Hbits Hs Hsrc Hnorm Htyped r. subst r.
  pose proof (SlotQuantityMax_64 bits Hbits) as Hmax.
  rewrite Hmax in *.
  rewrite (Add_guards bits null s src), Hmax.
  destruct (_ || (Quantity s >=? 64)) eqn:Hg.
  { cbn [fst snd]. rewrite Add_guards, Hmax, Hg. reflexivity. }
  apply orb_false_iff in Hg as [_ Hfull].
  rewrite Add_transfer_in_range by lia. cbn [fst snd].
  destruct (Quantity s + Quantity src >? 64) eqn:Hcap.
  - (* the destination has been filled: the third guard returns *)
    rewrite Add_guards, Hmax, setQuantity_Quantity.
    rewrite Z.min_l by lia. rewrite orb_true_r. reflexivity.
  - (* the source has been emptied *)
    rewrite Z.min_r by lia. rewrite Z.sub_diag.
    unfold setQuantity at 2 4. cbn [ItemType Quantity Uses].
    change (0 =? 0) with true. cbv iota.
    unfold setQuantity. cbn [ItemType Quantity Uses].
    destruct (Quantity s + Quantity src =? 0) eqn:Hzero.
    + apply Z.eqb_eq in Hzero. rewrite Hzero.
      rewrite Add_guards, Hmax. cbn [ItemType Quantity Uses].
      rewrite Z.eqb_refl. cbn [negb andb orb].
      change (0 >=? 64) with false. cbv iota.
      rewrite Add_transfer_in_range by (cbn [Quantity]; lia).
      reflexivity.
    + rewrite Add_guards, Hmax. cbn [ItemType Quantity Uses].
      destruct (ItemType src =? null) eqn:Htype.
      * apply Z.eqb_eq in Htype.
        pose proof (Htyped Htype) as Hq0.
        destruct (Hnorm Hq0) as [_ Hu0].
        rewrite Htype, Hu0, Z.eqb_refl. cbn [negb andb orb].
        destruct (Quantity s + Quantity src >=? 64) eqn:Hfull'; [reflexivity|].
        rewrite Add_transfer_in_range by (cbn [Quantity]; lia).
        unfold setQuantity. cbn [ItemType Quantity Uses].
        rewrite Z.add_0_r, Z.min_r by lia. rewrite Z.sub_diag, Hzero.
        reflexivity.
      * cbn [negb andb orb]. reflexivity.
Qed.

Lemma Add_twice_witness :
  let r := Add 8 (-1) (mkSlot 5 60 0) (mkSlot 5 10 0) in
  Add 8 (-1) (fst r) (snd r) = r.
Proof.
  apply (Add_twice 8 (-1) (mkSlot 5 60 0) (mkSlot 5 10 0)).
  - lia.
  - vm_compute. split; discriminate.
  - vm_compute. split; discriminate.
  - intros H. vm_compute in H. discriminate.
  - intros H. vm_compute in H. discriminate.
Defined.

End Inventory.

(** ** package chunk *)

Module Chunk.

(** The four sides of a chunk ([ChunkSideDir], chunkymonkey/types). *)
Inductive ChunkSideDir : Type :=
  ChunkSideEast | ChunkSideSouth | ChunkSideWest | ChunkSideNorth.

(** Modelled from the spec: the type [ChunkXz] is declared outside the
    sources at hand; a chunk coordinate is a pair [(cx, cz : int32)]. *)
Record ChunkXz : Type := mkXz { X : Z; Z' : Z }.

(** Modelled from the spec: [ChunkXz.ChunkKey] is not among the sources at
    hand; the key is the 64-bit encoding [(uint32(cx) << 32) | uint32(cz)]. *)
Definition ChunkKey (loc : ChunkXz) : Z :=
  Z.lor (Z.shiftl (wrap_unsigned 32 (X loc)) 32) (wrap_unsigned 32 (Z' loc)).

(** Modelled from the spec: the constant [ChunkRadius] is declared outside
    the sources at hand; the radius is R = 10. *)
Definition ChunkRadius : Z := 10.

(** A closure handed to [Chunk.Enqueue], kept as data: the call
    [sideCacheSetNeighbour(side, neighbour)] it will make.  A [*Chunk] is
    modelled by the key under which the object is registered in
    [ChunkManager.chunks]: [Get] registers every chunk it creates under its
    key and never replaces or removes an entry. *)
Inductive WorkItem : Type :=
  sideCacheSetNeighbour (side : ChunkSideDir) (neighbour : Z).

(** What [Get] does that can be seen from outside the manager. *)
Inductive Event : Type :=
| EvLoadChunk (loc : ChunkXz)   (* a call of chunkStore.LoadChunk *)
| EvLogPrintf (loc : ChunkXz).  (* the log line of a failed load *)

(** *** Stores and side tables to run the manager on *)

(** A store that loads every chunk. *)
Definition load_always (st : unit) (loc : ChunkXz) : unit * option unit :=
  (tt, Some tt).

(** A store that fails on its first call and loads from then on; its state
    counts the calls. *)
Definition load_after_retry (st : nat) (loc : ChunkXz) : nat * option unit :=
  (Datatypes.S st, match st with O => None | _ => Some tt end).

(** Offsets and opposites of the four sides, to run the manager on. *)
Definition side_offsets (d : ChunkSideDir) : Z * Z :=
  match d with
  | ChunkSideEast => (1, 0)
  | ChunkSideSouth => (0, 1)
  | ChunkSideWest => (-1, 0)
  | ChunkSideNorth => (0, -1)
  end.

Definition side_opposite (d : ChunkSideDir) : ChunkSideDir :=
  match d with
  | ChunkSideEast => ChunkSideWest
  | ChunkSideSouth => ChunkSideNorth
  | ChunkSideWest => ChunkSideEast
  | ChunkSideNorth => ChunkSideSouth
  end.

Section Manager.

(** The chunk store (package chunkstore) is external: a state of type
    [Store], and [LoadChunk] returning the state after the call and a reader,
    or [None] for an error.  [GetDxz] and [GetOpposite] are methods of
    [ChunkSideDir] declared in chunkymonkey/types. *)
Variables ChunkReader Store : Type.
Variable LoadChunk : Store -> ChunkXz -> Store * option ChunkReader.
Variable GetDxz : ChunkSideDir -> Z * Z.
Variable GetOpposite : ChunkSideDir -> ChunkSideDir.

(** A loaded chunk: what it was read from, and its stream of pending work. *)
Record Chunk : Type := mkChunk {
  source : ChunkReader;
  workQueue : list WorkItem
}.

(** Modelled from the spec: [newChunkFromReader] is not among the sources at
    hand; it constructs a chunk object from the reader. *)
Definition newChunkFromReader (chunkReader : ChunkReader) : Chunk :=
  {| source := chunkReader; workQueue := [] |}.

(** Modelled from the spec: [Chunk.Enqueue] is not among the sources at hand;
    the closure is submitted into the per-chunk work stream, not executed
    synchronously. *)
Definition Enqueue (c : Chunk) (f : WorkItem) : Chunk :=
  {| source := source c; workQueue := workQueue c ++ [f] |}.

(** [ChunkManager]: the state of the store behind [chunkStore], the map
    [chunks], and the trace of events so far (oldest first).  The fields
    [game] and [blockTypes] play no part in [Get]. *)
Record ChunkManager : Type := mkManager {
  chunkStore : Store;
  chunks : gmap Z Chunk;
  trace : list Event
}.

(** The closure [linkNeighbours] of [Get], acting on the chunk under
    construction and on the map. *)
Definition linkNeighbours (key : Z) (loc : ChunkXz) (from : ChunkSideDir)
    (st : Chunk * gmap Z Chunk) : Chunk * gmap Z Chunk :=
  let '(chunk, chunks) := st in
  let '(dx, dz) := GetDxz from in
  let loc' := {| X := int32 (X loc + dx); Z' := int32 (Z' loc + dz) |} in
  match chunks !! ChunkKey loc' with
  | Some neighbour =>
      let to := GetOpposite from in
      (Enqueue chunk (sideCacheSetNeighbour from (ChunkKey loc')),
       <[ChunkKey loc' := Enqueue neighbour (sideCacheSetNeighbour to key)]> chunks)
  | None => (chunk, chunks)
  end.

(** [func (mgr *ChunkManager) Get(loc *ChunkXz) (c IChunk)]: the manager
    after the call and the chunk returned, [None] for nil. *)
Definition Get (mgr : ChunkManager) (loc : ChunkXz) : ChunkManager * option Z :=
  let key := ChunkKey loc in
  match chunks mgr !! key with
  | Some _ => (mgr, Some key)
  | None =>
      let '(store', res) := LoadChunk (chunkStore mgr) loc in
      let trace' := trace mgr ++ [EvLoadChunk loc] in
      match res with
      | None =>
          ({| chunkStore := store'; chunks := chunks mgr;
              trace := trace' ++ [EvLogPrintf loc] |}, None)
      | Some chunkReader =>
          let chunk := newChunkFromReader chunkReader in
          let st := (chunk, chunks mgr) in
          let st := linkNeighbours key loc ChunkSideEast st in
          let st := linkNeighbours key loc ChunkSideSouth st in
          let st := linkNeighbours key loc ChunkSideWest st in
          let st := linkNeighbours key loc ChunkSideNorth st in
          ({| chunkStore := store'; chunks := <[key := fst st]> (snd st);
              trace := trace' |}, Some key)
      end
  end.

(** [func (mgr *ChunkManager) ChunksInRadius(loc *ChunkXz) <-chan IChunk]:
    the manager after the goroutine has run and the values it has sent on the
    channel, in order, for a consumer that receives until the channel is
    closed.  [None] when the fuel does not suffice to reach [close(c)]. *)
Definition ChunksInRadius (fuel : nat) (mgr : ChunkManager) (loc : ChunkXz)
    : option (ChunkManager * list (option Z)) :=
  for_loop fuel (fun z => z <=? int32 (Z' loc + ChunkRadius))
    (int32 (Z' loc - ChunkRadius))
    (fun z st =>
       for_loop fuel (fun x => x <=? int32 (X loc + ChunkRadius))
         (int32 (X loc - ChunkRadius))
         (fun x '(mgr, sent) =>
            let curChunkXz := {| X := x; Z' := z |} in
            let '(mgr', c) := Get mgr curChunkXz in
            Some (mgr', sent ++ [c]))
         st)
    (mgr, []).

(** One [Get] after the other for a list of coordinates. *)
Fixpoint GetEach (mgr : ChunkManager) (locs : list ChunkXz)
    : ChunkManager * list (option Z) :=
  match locs with
  | [] => (mgr, [])
  | loc :: locs' =>
      let '(mgr1, c) := Get mgr loc in
      let '(mgr2, cs) := GetEach mgr1 locs' in
      (mgr2, c :: cs)
  end.

(** The coordinates within [ChunkRadius] of [loc], row by row: Z outer,
    X inner. *)
Definition radius_window (loc : ChunkXz) : list ChunkXz :=
  z ← seqZ (Z' loc - ChunkRadius) (2 * ChunkRadius + 1);
  (fun x => {| X := x; Z' := z |}) <$> seqZ (X loc - ChunkRadius) (2 * ChunkRadius + 1).

(** The window lies within [int32] when the centre is at least
    [ChunkRadius] away from the ends of the type. *)
Definition window_in_int32 (loc : ChunkXz) : Prop :=
  - 2 ^ 31 <= X loc - ChunkRadius /\ X loc + ChunkRadius < 2 ^ 31 - 1 /\
  - 2 ^ 31 <= Z' loc - ChunkRadius /\ Z' loc + ChunkRadius < 2 ^ 31 - 1.

(** The chunks among the values sent on the channel: the values that are
    not nil. *)
Definition chunks_sent (sent : list (option Z)) : list Z := omap id sent.

(** [func NewChunkManager(chunkStore chunkstore.ChunkStore, game IGame) *ChunkManager]:
    a manager with an empty map.  The fields [game] and [blockTypes] are
    not part of the model. *)
Definition NewChunkManager (chunkStore : Store) : ChunkManager :=
  {| chunkStore := chunkStore; chunks := ∅; trace := [] |}.

(** The sides in the order in which [Get] calls [linkNeighbours]. *)
Definition sides : list ChunkSideDir :=
  [ChunkSideEast; ChunkSideSouth; ChunkSideWest; ChunkSideNorth].

(** The key under which [linkNeighbours] looks for the neighbour of [loc]
    on the side [from]. *)
Definition neighbourKey (loc : ChunkXz) (from : ChunkSideDir) : Z :=
  let '(dx, dz) := GetDxz from in
  ChunkKey {| X := int32 (X loc + dx); Z' := int32 (Z' loc + dz) |}.

(** A chunk with more work at the end of its queue. *)
Definition extend (items : list WorkItem) (c : Chunk) : Chunk :=
  {| source := source c; workQueue := workQueue c ++ items |}.

(** The work that linking on the sides [ds] gives to the chunk being
    loaded at [loc]: one item for every side on which a neighbour is in the
    map [m]. *)
Definition links_out (m : gmap Z Chunk) (loc : ChunkXz) (ds : list ChunkSideDir)
    : list WorkItem :=
  d ← ds;
  match m !! neighbourKey loc d with
  | Some _ => [sideCacheSetNeighbour d (neighbourKey loc d)]
  | None => []
  end.

(** The work that linking on the sides [ds] gives to the chunk registered
    under [k], when the chunk with key [key] is loaded at [loc]: one item
    for every side on which [k] is the neighbour. *)
Definition links_in (key : Z) (loc : ChunkXz) (k : Z) (ds : list ChunkSideDir)
    : list WorkItem :=
  d ← ds;
  if decide (neighbourKey loc d = k)
  then [sideCacheSetNeighbour (GetOpposite d) key]
  else [].

(** The calls of [LoadChunk] in a trace, in order. *)
Definition load_calls (events : list Event) : list ChunkXz :=
  omap (fun e => match e with EvLoadChunk l => Some l | EvLogPrintf _ => None end)
    events.

(** *** Properties of [ChunkKey] *)

Lemma ChunkKey_split (loc : ChunkXz) :
  Z.shiftr (ChunkKey loc) 32 = wrap_unsigned 32 (X loc) /\
  Z.land (ChunkKey loc) (Z.ones 32) = wrap_unsigned 32 (Z' loc).
Proof.
  unfold ChunkKey, wrap_unsigned.
  assert (Hx := Z.mod_pos_bound (X loc) (2 ^ 32) eq_refl).
  assert (Hz := Z.mod_pos_bound (Z' loc) (2 ^ 32) eq_refl).
  split.
  - rewrite Z.shiftr_lor, Z.shiftr_shiftl_l by lia.
    rewrite Z.sub_diag, Z.shiftl_0_r.
    rewrite (Z.shiftr_div_pow2 (Z' loc mod 2 ^ 32)) by lia.
    rewrite Z.div_small by lia. apply Z.lor_0_r.
  - rewrite Z.land_lor_distr_l, !Z.land_ones by lia.
    rewrite Z.shiftl_mul_pow2 by lia.
    rewrite Z.mod_mul by lia. rewrite Z.mod_mod by lia. reflexivity.
Qed.

Lemma wrap_unsigned_32_of_int32 (a : Z) :
  - 2 ^ 31 <= a < 2 ^ 31 ->
  wrap_unsigned 32 a = if a <? 0 then a + 2 ^ 32 else a.
Proof.
  intros Ha. unfold wrap_unsigned. destruct (a <? 0) eqn:E.
  - rewrite <- (Z_mod_plus_full a 1 (2 ^ 32)).
    apply Z.mod_small. lia.
  - apply Z.mod_small. lia.
Qed.

Lemma wrap_unsigned_32_inj (a b : Z) :
  - 2 ^ 31 <= a < 2 ^ 31 -> - 2 ^ 31 <= b < 2 ^ 31 ->
  wrap_unsigned 32 a = wrap_unsigned 32 b -> a = b.
Proof.
  intros Ha Hb.
  rewrite !wrap_unsigned_32_of_int32 by assumption.
  destruct (a <? 0) eqn:Ea, (b <? 0) eqn:Eb; lia.
Qed.

(** On [int32] coordinates the key determines the coordinate. *)
Lemma ChunkKey_inj (l1 l2 : ChunkXz) :
  - 2 ^ 31 <= X l1 < 2 ^ 31 -> - 2 ^ 31 <= Z' l1 < 2 ^ 31 ->
  - 2 ^ 31 <= X l2 < 2 ^ 31 -> - 2 ^ 31 <= Z' l2 < 2 ^ 31 ->
  ChunkKey l1 = ChunkKey l2 -> l1 = l2.
Proof.
  intros Hx1 Hz1 Hx2 Hz2 Hk.
  destruct (ChunkKey_split l1) as [Ha1 Hb1].
  destruct (ChunkKey_split l2) as [Ha2 Hb2].
  rewrite Hk in Ha1, Hb1.
  destruct l1 as [x1 z1], l2 as [x2 z2]. simpl in *.
  f_equal; apply wrap_unsigned_32_inj; auto; congruence.
Qed.

(** *** Properties of [Get] *)

(** [Get] returns nil or the chunk registered under the key of [loc]. *)
Lemma Get_result (mgr : ChunkManager) (loc : ChunkXz) :
  snd (Get mgr loc) = None \/ snd (Get mgr loc) = Some (ChunkKey loc).
Proof.
  unfold Get. destruct (chunks mgr !! ChunkKey loc); [right; reflexivity|].
  destruct (LoadChunk (chunkStore mgr) loc) as [store' [r|]]; simpl; auto.
Qed.

(** [Get] returns nil exactly when the chunk is not in the map and the
    store fails to load it. *)
Lemma Get_None_iff (mgr : ChunkManager) (loc : ChunkXz) :
  snd (Get mgr loc) = None <->
  chunks mgr !! ChunkKey loc = None /\ snd (LoadChunk (chunkStore mgr) loc) = None.
Proof.
  unfold Get. destruct (chunks mgr !! ChunkKey loc) as [c|]; simpl.
  - split; [discriminate | intros [? _]; discriminate].
  - destruct (LoadChunk (chunkStore mgr) loc) as [store' [r|]]; simpl.
    + split; [discriminate | intros [_ ?]; discriminate].
    + split; auto.
Qed.

(** *** The loops of [ChunksInRadius] *)

Lemma GetEach_app (mgr : ChunkManager) (l1 l2 : list ChunkXz) :
  GetEach mgr (l1 ++ l2) =
  let '(mgr1, cs1) := GetEach mgr l1 in
  let '(mgr2, cs2) := GetEach mgr1 l2 in
  (mgr2, cs1 ++ cs2).
Proof.
  revert mgr. induction l1 as [|loc l1 IH]; intros mgr; simpl.
  - destruct (GetEach mgr l2); reflexivity.
  - destruct (Get mgr loc) as [mgr1 c]. rewrite IH.
    destruct (GetEach mgr1 l1) as [mgr2 cs1].
    destruct (GetEach mgr2 l2) as [mgr3 cs2]. reflexivity.
Qed.

Lemma GetEach_length (locs : list ChunkXz) :
  forall mgr, length (snd (GetEach mgr locs)) = length locs.
Proof.
  induction locs as [|loc locs IH]; intros mgr; simpl; [reflexivity|].
  destruct (Get mgr loc) as [mgr1 c]. specialize (IH mgr1).
  destruct (GetEach mgr1 locs) as [mgr2 cs]. simpl in *. congruence.
Qed.

(** The [i]-th value sent is the result of [Get] at the [i]-th coordinate,
    in the manager left by the [i] calls before it. *)
Lemma GetEach_lookup (locs : list ChunkXz) :
  forall mgr (i : nat) (loc : ChunkXz),
    locs !! i = Some loc ->
    snd (GetEach mgr locs) !! i
    = Some (snd (Get (fst (GetEach mgr (take i locs))) loc)).
Proof.
  induction locs as [|l locs IH]; intros mgr i loc Hi; [discriminate|].
  destruct i as [|i]; simpl in *.
  - inversion Hi; subst. destruct (Get mgr loc) as [mgr1 c].
    destruct (GetEach mgr1 locs); reflexivity.
  - destruct (Get mgr l) as [mgr1 c]. specialize (IH mgr1 i loc Hi).
    destruct (GetEach mgr1 locs) as [mgr2 cs].
    destruct (GetEach mgr1 (take i locs)) as [mgr3 cs3]. exact IH.
Qed.

Lemma row_loop (z : Z) (xs : list Z) :
  forall (mgr : ChunkManager) (sent : list (option Z)),
    for_each xs
      (fun x '(mgr, sent) =>
         let curChunkXz := {| X := x; Z' := z |} in
         let '(mgr', c) := Get mgr curChunkXz in
         Some (mgr', sent ++ [c]))
      (mgr, sent)
    = Some (let '(mgr', cs) := GetEach mgr ((fun x => {| X := x; Z' := z |}) <$> xs) in
            (mgr', sent ++ cs)).
Proof.
  induction xs as [|x xs IH]; intros mgr sent; simpl.
  - rewrite app_nil_r. reflexivity.
  - destruct (Get mgr {| X := x; Z' := z |}) as [mgr1 c].
    rewrite IH.
    destruct (GetEach mgr1 _) as [mgr2 cs].
    rewrite <- app_assoc. reflexivity.
Qed.

Lemma rows_loop (row : Z -> ChunkManager * list (option Z)
                       -> option (ChunkManager * list (option Z)))
    (xs zs : list Z) :
  (forall z mgr sent,
      row z (mgr, sent)
      = Some (let '(mgr', cs) := GetEach mgr ((fun x => {| X := x; Z' := z |}) <$> xs) in
              (mgr', sent ++ cs))) ->
  forall (mgr : ChunkManager) (sent : list (option Z)),
    for_each zs row (mgr, sent)
    = Some (let '(mgr', cs) :=
              GetEach mgr (z ← zs; (fun x => {| X := x; Z' := z |}) <$> xs) in
            (mgr', sent ++ cs)).
Proof.
  intros Hrow. induction zs as [|z zs IH]; intros mgr sent; simpl.
  - rewrite app_nil_r. reflexivity.
  - rewrite Hrow, GetEach_app.
    destruct (GetEach mgr _) as [mgr1 cs1].
    rewrite IH.
    destruct (GetEach mgr1 _) as [mgr2 cs2].
    rewrite <- app_assoc. reflexivity.
Qed.

Lemma length_bind_const {A B : Type} (f : A -> list B) (k : nat) (l : list A) :
  (forall a, length (f a) = k) -> length (l ≫= f) = (length l * k)%nat.
Proof.
  intros Hf. induction l as [|a l IH]; [reflexivity|].
  rewrite bind_cons, length_app, Hf, IH. simpl. lia.
Qed.

Lemma radius_window_length (loc : ChunkXz) :
  length (radius_window loc) = Z.to_nat ((2 * ChunkRadius + 1) ^ 2).
Proof.
  unfold radius_window.
  rewrite (length_bind_const _ (Z.to_nat (2 * ChunkRadius + 1))).
  - rewrite length_seqZ. reflexivity.
  - intros z. rewrite length_fmap, length_seqZ. reflexivity.
Qed.

Lemma elem_of_radius_window (loc l : ChunkXz) :
  l ∈ radius_window loc <->
  X loc - ChunkRadius <= X l <= X loc + ChunkRadius /\
  Z' loc - ChunkRadius <= Z' l <= Z' loc + ChunkRadius.
Proof.
  unfold radius_window. rewrite list_elem_of_bind.
  split.
  - intros (z & Hl & Hz). apply list_elem_of_fmap in Hl as (x & -> & Hx).
    apply elem_of_seqZ in Hz, Hx. simpl. unfold ChunkRadius in *. lia.
  - intros [Hx Hz]. exists (Z' l). split.
    + apply list_elem_of_fmap. exists (X l). split; [destruct l; reflexivity|].
      apply elem_of_seqZ. unfold ChunkRadius in *. lia.
    + apply elem_of_seqZ. unfold ChunkRadius in *. lia.
Qed.

Lemma radius_window_NoDup (loc : ChunkXz) : NoDup (radius_window loc).
Proof.
  unfold radius_window. apply NoDup_bind.
  - intros z1 z2 l _ _ H1 H2.
    apply list_elem_of_fmap in H1 as (x1 & -> & _).
    apply list_elem_of_fmap in H2 as (x2 & E & _).
    inversion E. reflexivity.
  - intros z _. apply NoDup_fmap_2; [|apply NoDup_seqZ].
    intros x1 x2 E. inversion E. reflexivity.
  - apply NoDup_seqZ.
Qed.

Lemma radius_window_keys_NoDup (loc : ChunkXz) :
  window_in_int32 loc -> NoDup (ChunkKey <$> radius_window loc).
Proof.
  intros (Hx1 & Hx2 & Hz1 & Hz2).
  apply NoDup_fmap_2_strong; [|apply radius_window_NoDup].
  intros l1 l2 H1 H2 Hk.
  apply elem_of_radius_window in H1, H2.
  apply ChunkKey_inj; auto; lia.
Qed.

Lemma ChunksInRadius_in_range (fuel : nat) (mgr : ChunkManager) (loc : ChunkXz) :
  window_in_int32 loc ->
  (Z.to_nat (2 * ChunkRadius + 1) < fuel)%nat ->
  ChunksInRadius fuel mgr loc = Some (GetEach mgr (radius_window loc)).
Proof.
  intros (Hx1 & Hx2 & Hz1 & Hz2) Hfuel.
  unfold ChunkRadius in *.
  unfold ChunksInRadius, radius_window, ChunkRadius.
  change (2 * 10 + 1) with (Z.of_nat 21) in *.
  rewrite Nat2Z.id in Hfuel.
  rewrite !int32_small by lia.
  rewrite (for_loop_range _ _ 21); cbv beta;
    [| lia | lia | lia | intros; lia | apply Z.leb_gt; lia].
  rewrite (rows_loop _ (seqZ (X loc - 10) (Z.of_nat 21))).
  - destruct (GetEach mgr _) as [mgr' cs]. reflexivity.
  - intros z mgr0 sent.
    rewrite (for_loop_range _ _ 21); cbv beta;
      [| lia | lia | lia | intros; lia | apply Z.leb_gt; lia].
    apply row_loop.
Qed.

Lemma GetEach_results (locs : list ChunkXz) :
  forall mgr,
    Forall2 (fun c l => c = None \/ c = Some (ChunkKey l))
      (snd (GetEach mgr locs)) locs.
Proof.
  induction locs as [|loc locs IH]; intros mgr; simpl; [constructor|].
  pose proof (Get_result mgr loc) as Hres.
  destruct (Get mgr loc) as [mgr1 c]. specialize (IH mgr1).
  destruct (GetEach mgr1 locs) as [mgr2 cs]. simpl in *.
  constructor; assumption.
Qed.

Lemma chunks_sent_sublist (sent : list (option Z)) (locs : list ChunkXz) :
  Forall2 (fun c l => c = None \/ c = Some (ChunkKey l)) sent locs ->
  chunks_sent sent `sublist_of` (ChunkKey <$> locs).
Proof.
  induction 1 as [|c l sent locs [-> | ->] _ IH]; simpl.
  - constructor.
  - apply sublist_cons. exact IH.
  - apply sublist_skip. exact IH.
Qed.

Lemma chunks_sent_all (sent : list (option Z)) (locs : list ChunkXz) :
  Forall2 (fun c l => c = None \/ c = Some (ChunkKey l)) sent locs ->
  None ∉ sent -> chunks_sent sent = ChunkKey <$> locs.
Proof.
  induction 1 as [|c l sent locs Hc _ IH]; intros Hnone; [reflexivity|].
  destruct Hc as [-> | ->].
  - exfalso. apply Hnone. left.
  - simpl. f_equal. apply IH. intros Hin. apply Hnone. right. exact Hin.
Qed.

Lemma chunks_sent_length (sent : list (option Z)) :
  (length (chunks_sent sent) <= length sent)%nat /\
  (None ∈ sent -> (length (chunks_sent sent) < length sent)%nat).
Proof.
  induction sent as [|c sent [IH1 IH2]]; simpl.
  - split; [lia|]. intros H. inversion H.
  - destruct c as [k|]; simpl.
    + split; [lia|]. intros H. inversion H; subst. specialize (IH2 ltac:(assumption)). lia.
    + split; [lia|]. intros _. lia.
Qed.

(** Around a centre whose window ends exactly at [MaxInt32], the condition
    [z <= loc.Z + ChunkRadius] holds for every [int32]: the goroutine never
    reaches [close(c)], whatever the fuel. *)
Lemma ChunksInRadius_diverges_below_MaxInt32 (fuel : nat) (mgr : ChunkManager) (x : Z) :
  ChunksInRadius fuel mgr
    {| X := x; Z' := 2 ^ 31 - 1 - ChunkRadius |} = None.
Proof.
  unfold ChunksInRadius. apply for_loop_diverges.
  - intros i Hi. cbn [Z'].
    replace (int32 (2 ^ 31 - 1 - ChunkRadius + ChunkRadius)) with (2 ^ 31 - 1)
      by (vm_compute; reflexivity).
    lia.
  - cbn [Z'].
    replace (int32 (2 ^ 31 - 1 - ChunkRadius - ChunkRadius)) with (2 ^ 31 - 21)
      by (vm_compute; reflexivity).
    lia.
Qed.

(** C6 (amended): for every centre whose window lies within [int32] (with
    one value to spare at the top, for the last increment), the goroutine of
    [ChunksInRadius] ends and sends exactly (2R+1)^2 values, the results of
    one [Get] per coordinate of the window in row-major order (Z outer, X
    inner).  A value is nil exactly when the chunk was not loaded and the
    store failed to load it, and else the chunk at that coordinate; so the
    chunks sent are all (2R+1)^2 of the window when no load fails, fewer when
    some load fails, and never the same chunk twice. *)
Theorem ChunksInRadius_window (fuel : nat) (mgr : ChunkManager) (loc : ChunkXz) :
  window_in_int32 loc ->
  (Z.to_nat (2 * ChunkRadius + 1) < fuel)%nat ->
  let window := radius_window loc in
  exists mgr' sent,
    ChunksInRadius fuel mgr loc = Some (mgr', sent) /\
    (mgr', sent) = GetEach mgr window /\
    length window = Z.to_nat ((2 * ChunkRadius + 1) ^ 2) /\
    length sent = Z.to_nat ((2 * ChunkRadius + 1) ^ 2) /\
    NoDup window /\
    (forall (i : nat) (l : ChunkXz),
        window !! i = Some l ->
        let mgr_i := fst (GetEach mgr (take i window)) in
        sent !! i = Some (snd (Get mgr_i l)) /\
        (sent !! i = Some None \/ sent !! i = Some (Some (ChunkKey l))) /\
        (sent !! i = Some None <->
         chunks mgr_i !! ChunkKey l = None /\
         snd (LoadChunk (chunkStore mgr_i) l) = None)) /\
    (None ∉ sent ->
     chunks_sent sent = ChunkKey <$> window /\
     length (chunks_sent sent) = Z.to_nat ((2 * ChunkRadius + 1) ^ 2)) /\
    (None ∈ sent ->
     (length (chunks_sent sent) < Z.to_nat ((2 * ChunkRadius + 1) ^ 2))%nat) /\
    NoDup (chunks_sent sent).
Proof.
  intros Hrange Hfuel window.
  destruct (GetEach mgr window) as [mgr' sent] eqn:Hget.
  exists mgr', sent.
  assert (Hsent : sent = snd (GetEach mgr window)) by (rewrite Hget; reflexivity).
  assert (Hlen : length sent = Z.to_nat ((2 * ChunkRadius + 1) ^ 2)).
  { rewrite Hsent. rewrite GetEach_length.
    apply radius_window_length. }
  assert (Hres := GetEach_results window mgr).
  rewrite <- Hsent in Hres.
  split; [|split; [|split; [|split; [|split; [|split; [|split; [|split]]]]]]].
  - rewrite <- Hget. apply ChunksInRadius_in_range; assumption.
  - reflexivity.
  - apply radius_window_length.
  - exact Hlen.
  - apply radius_window_NoDup.
  - intros i l Hi mgr_i.
    assert (Hith : sent !! i = Some (snd (Get mgr_i l))).
    { rewrite Hsent. apply GetEach_lookup. exact Hi. }
    rewrite Hith. split; [reflexivity|]. split.
    + destruct (Get_result mgr_i l) as [E | E]; rewrite E; auto.
    + rewrite <- (Get_None_iff mgr_i l).
      split; [intros E; inversion E; reflexivity | intros ->; reflexivity].
  - intros Hnone.
    assert (E := chunks_sent_all sent window Hres Hnone).
    split; [exact E|]. rewrite E, length_fmap. apply radius_window_length.
  - intros Hnone. rewrite <- Hlen. apply chunks_sent_length. exact Hnone.
  - apply (sublist_NoDup _ (ChunkKey <$> window)).
    + apply radius_window_keys_NoDup. exact Hrange.
    + apply chunks_sent_sublist. exact Hres.
Qed.

Lemma linkNeighbours_keeps_absent (key : Z) (loc : ChunkXz) (from : ChunkSideDir)
    (st : Chunk * gmap Z Chunk) (k : Z) :
  snd st !! k = None -> snd (linkNeighbours key loc from st) !! k = None.
Proof.
  destruct st as [chunk m]. unfold linkNeighbours. simpl.
  destruct (GetDxz from) as [dx dz].
  destruct (m !! ChunkKey _) as [neighbour|] eqn:E; simpl; [|auto].
  intros Hk. rewrite lookup_insert_ne; [exact Hk|].
  intros Heq. rewrite Heq in E. congruence.
Qed.

(** A [Get] at another key puts nothing under the key [k]. *)
Lemma Get_keeps_absent (mgr : ChunkManager) (loc : ChunkXz) (k : Z) :
  chunks mgr !! k = None -> ChunkKey loc <> k ->
  chunks (fst (Get mgr loc)) !! k = None.
Proof.
  intros Hk Hne. unfold Get.
  destruct (chunks mgr !! ChunkKey loc); [exact Hk|].
  destruct (LoadChunk (chunkStore mgr) loc) as [store' [r|]];
    cbn [fst snd chunks]; [|exact Hk].
  rewrite lookup_insert_ne by exact Hne.
  do 4 apply linkNeighbours_keeps_absent. exact Hk.
Qed.

Lemma GetEach_keeps_absent (locs : list ChunkXz) (k : Z) :
  Forall (fun l => ChunkKey l <> k) locs ->
  forall mgr, chunks mgr !! k = None ->
    chunks (fst (GetEach mgr locs)) !! k = None.
Proof.
  induction 1 as [|l locs Hl _ IH]; intros mgr Hk; [exact Hk|].
  simpl. pose proof (Get_keeps_absent mgr l k Hk Hl) as Hk1.
  destruct (Get mgr l) as [mgr1 c]. specialize (IH mgr1 Hk1).
  destruct (GetEach mgr1 locs) as [mgr2 cs]. exact IH.
Qed.

(** A [Get] that does not find the chunk in the map calls the store. *)
Lemma Get_miss_calls_store (mgr : ChunkManager) (loc : ChunkXz) :
  chunks mgr !! ChunkKey loc = None ->
  exists tail, trace (fst (Get mgr loc)) = trace mgr ++ EvLoadChunk loc :: tail.
Proof.
  intros Hmiss. unfold Get. rewrite Hmiss.
  destruct (LoadChunk (chunkStore mgr) loc) as [store' [r|]]; simpl.
  - exists []. reflexivity.
  - exists [EvLogPrintf loc]. rewrite <- (app_assoc _ [_] [_]). reflexivity.
Qed.

(** C7: when the chunk is not in the map and the store fails to load it,
    [Get] returns nil and leaves the map as it was, with no entry under the
    key; the failure is logged.  The next [Get] for the same coordinate,
    at once or after calls of [Get] for other chunks, calls the store
    again, and returns the chunk if the store now loads it. *)
Theorem Get_load_failure_not_cached (mgr : ChunkManager) (loc : ChunkXz)
    (store' : Store) :
  chunks mgr !! ChunkKey loc = None ->
  LoadChunk (chunkStore mgr) loc = (store', None) ->
  let mgr1 := fst (Get mgr loc) in
  snd (Get mgr loc) = None /\
  chunks mgr1 = chunks mgr /\
  chunks mgr1 !! ChunkKey loc = None /\
  chunkStore mgr1 = store' /\
  trace mgr1 = trace mgr ++ [EvLoadChunk loc; EvLogPrintf loc] /\
  (forall others : list ChunkXz,
      Forall (fun l => ChunkKey l <> ChunkKey loc) others ->
      let mgr2 := fst (GetEach mgr1 others) in
      chunks mgr2 !! ChunkKey loc = None /\
      exists tail, trace (fst (Get mgr2 loc)) = trace mgr2 ++ EvLoadChunk loc :: tail) /\
  (forall store'' chunkReader,
      LoadChunk store' loc = (store'', Some chunkReader) ->
      snd (Get mgr1 loc) = Some (ChunkKey loc) /\
      is_Some (chunks (fst (Get mgr1 loc)) !! ChunkKey loc)).
Proof.
  intros Hmiss Hload mgr1.
  assert (HGet : Get mgr loc =
                 ({| chunkStore := store'; chunks := chunks mgr;
                     trace := (trace mgr ++ [EvLoadChunk loc]) ++ [EvLogPrintf loc] |},
                  None)).
  { unfold Get. rewrite Hmiss, Hload. reflexivity. }
  subst mgr1. rewrite HGet. cbn [fst snd chunks chunkStore trace].
  split; [reflexivity|]. split; [reflexivity|]. split; [exact Hmiss|].
  split; [reflexivity|]. split; [rewrite <- app_assoc; reflexivity|]. split.
  - intros others Hothers.
    match goal with
    | |- chunks ?m !! _ = None /\ _ =>
        assert (Habsent : chunks m !! ChunkKey loc = None)
          by (apply GetEach_keeps_absent; [exact Hothers | exact Hmiss])
    end.
    split; [exact Habsent|]. apply Get_miss_calls_store. exact Habsent.
  - intros store'' chunkReader Hretry.
    unfold Get. simpl. rewrite Hmiss, Hretry. simpl.
    split; [reflexivity|]. rewrite lookup_insert_eq. eauto.
Qed.

(** *** Further properties of [Get] and [ChunksInRadius] *)

Lemma extend_nil (c : Chunk) : extend [] c = c.
Proof. destruct c. unfold extend. simpl. rewrite app_nil_r. reflexivity. Qed.

Lemma extend_extend (a b : list WorkItem) (c : Chunk) :
  extend b (extend a c) = extend (a ++ b) c.
Proof. unfold extend. simpl. rewrite app_assoc. reflexivity. Qed.

(** One call of [linkNeighbours]. *)
Lemma linkNeighbours_step (key : Z) (loc : ChunkXz) (d : ChunkSideDir)
    (chunk : Chunk) (m : gmap Z Chunk) :
  fst (linkNeighbours key loc d (chunk, m)) = extend (links_out m loc [d]) chunk /\
  forall k,
    snd (linkNeighbours key loc d (chunk, m)) !! k
    = extend (links_in key loc k [d]) <$> m !! k.
Proof.
  assert (Hlink : linkNeighbours key loc d (chunk, m)
                  = match m !! neighbourKey loc d with
                    | Some neighbour =>
                        (Enqueue chunk (sideCacheSetNeighbour d (neighbourKey loc d)),
                         <[neighbourKey loc d :=
                             Enqueue neighbour
                               (sideCacheSetNeighbour (GetOpposite d) key)]> m)
                    | None => (chunk, m)
                    end).
  { unfold linkNeighbours, neighbourKey. destruct (GetDxz d). reflexivity. }
  rewrite Hlink. clear Hlink.
  unfold links_out, links_in. rewrite bind_singleton.
  set (nk := neighbourKey loc d).
  destruct (m !! nk) as [neighbour|] eqn:Hnk; cbn [fst snd].
  - split; [reflexivity|]. intros k. rewrite bind_singleton. fold nk.
    destruct (decide (nk = k)) as [<-|Hne].
    + rewrite lookup_insert_eq, Hnk. reflexivity.
    + rewrite lookup_insert_ne by exact Hne.
      destruct (m !! k); simpl; [rewrite extend_nil|]; reflexivity.
  - split; [rewrite extend_nil; reflexivity|]. intros k. rewrite bind_singleton.
    fold nk.
    destruct (decide (nk = k)) as [<-|Hne].
    + rewrite Hnk. reflexivity.
    + destruct (m !! k); simpl; [rewrite extend_nil|]; reflexivity.
Qed.

Lemma links_out_same_domain (m m' : gmap Z Chunk) (loc : ChunkXz)
    (ds : list ChunkSideDir) :
  (forall k, is_Some (m' !! k) <-> is_Some (m !! k)) ->
  links_out m' loc ds = links_out m loc ds.
Proof.
  intros Hdom. unfold links_out.
  induction ds as [|d ds IH]; [reflexivity|].
  rewrite !bind_cons, IH. f_equal.
  specialize (Hdom (neighbourKey loc d)).
  destruct (m' !! neighbourKey loc d), (m !! neighbourKey loc d); try reflexivity.
  - destruct Hdom as [H _]. destruct H as [? H]; [eauto | discriminate H].
  - destruct Hdom as [_ H]. destruct H as [? H]; [eauto | discriminate H].
Qed.

Lemma links_out_cons (m : gmap Z Chunk) (loc : ChunkXz) (d : ChunkSideDir)
    (ds : list ChunkSideDir) :
  links_out m loc (d :: ds) = links_out m loc [d] ++ links_out m loc ds.
Proof. unfold links_out. rewrite bind_cons, bind_singleton. reflexivity. Qed.

Lemma links_in_cons (key : Z) (loc : ChunkXz) (k : Z) (d : ChunkSideDir)
    (ds : list ChunkSideDir) :
  links_in key loc k (d :: ds) = links_in key loc k [d] ++ links_in key loc k ds.
Proof. unfold links_in. rewrite bind_cons, bind_singleton. reflexivity. Qed.

(** The calls of [linkNeighbours] one after the other. *)
Lemma linkNeighbours_all (key : Z) (loc : ChunkXz) (ds : list ChunkSideDir) :
  forall (chunk : Chunk) (m : gmap Z Chunk),
    let st := foldl (fun st d => linkNeighbours key loc d st) (chunk, m) ds in
    fst st = extend (links_out m loc ds) chunk /\
    forall k, snd st !! k = extend (links_in key loc k ds) <$> m !! k.
Proof.
  induction ds as [|d ds IH]; intros chunk m; cbn [foldl].
  - cbn [fst snd]. split; [rewrite extend_nil; reflexivity|]. intros k.
    unfold links_in. change ([] ≫= _) with (@nil WorkItem).
    destruct (m !! k) as [c|]; simpl; [rewrite (extend_nil c)|]; reflexivity.
  - destruct (linkNeighbours_step key loc d chunk m) as [H1 H2].
    destruct (linkNeighbours key loc d (chunk, m)) as [chunk1 m1].
    cbn [fst snd] in H1, H2.
    destruct (IH chunk1 m1) as [IH1 IH2]. split.
    + rewrite IH1, H1, extend_extend.
      rewrite (links_out_same_domain m m1).
      * rewrite <- links_out_cons. reflexivity.
      * intros k. rewrite H2. destruct (m !! k); simpl; split; eauto;
          intros [? H]; discriminate H.
    + intros k. rewrite IH2, H2.
      rewrite (links_in_cons key loc k d ds).
      destruct (m !! k) as [c|]; [|reflexivity].
      cbn [fmap option_fmap option_map]. rewrite extend_extend. reflexivity.
Qed.

(** [Get] when the chunk is not in the map and the store loads it. *)
Lemma Get_loads (mgr : ChunkManager) (loc : ChunkXz) (store' : Store)
    (chunkReader : ChunkReader) :
  chunks mgr !! ChunkKey loc = None ->
  LoadChunk (chunkStore mgr) loc = (store', Some chunkReader) ->
  Get mgr loc
  = ({| chunkStore := store';
        chunks :=
          <[ChunkKey loc :=
              fst (foldl (fun st d => linkNeighbours (ChunkKey loc) loc d st)
                     (newChunkFromReader chunkReader, chunks mgr) sides)]>
            (snd (foldl (fun st d => linkNeighbours (ChunkKey loc) loc d st)
                    (newChunkFromReader chunkReader, chunks mgr) sides));
        trace := trace mgr ++ [EvLoadChunk loc] |},
     Some (ChunkKey loc)).
Proof. intros Hmiss Hload. unfold Get. rewrite Hmiss, Hload. reflexivity. Qed.

(** The three ways through [Get]: the chunk is in the map; it is not and
    the store fails; it is not and the store loads it. *)
Lemma Get_ways (mgr : ChunkManager) (loc : ChunkXz) :
  (is_Some (chunks mgr !! ChunkKey loc) /\ Get mgr loc = (mgr, Some (ChunkKey loc)))
  \/ (chunks mgr !! ChunkKey loc = None /\
      exists store',
        LoadChunk (chunkStore mgr) loc = (store', None) /\
        Get mgr loc
        = ({| chunkStore := store'; chunks := chunks mgr;
              trace := (trace mgr ++ [EvLoadChunk loc]) ++ [EvLogPrintf loc] |}, None))
  \/ (chunks mgr !! ChunkKey loc = None /\
      exists store' chunkReader,
        LoadChunk (chunkStore mgr) loc = (store', Some chunkReader)).
Proof.
  destruct (chunks mgr !! ChunkKey loc) as [c|] eqn:Hk.
  - left. split; [eauto|]. unfold Get. rewrite Hk. reflexivity.
  - right. destruct (LoadChunk (chunkStore mgr) loc) as [store' [r|]] eqn:Hload.
    + right. split; [reflexivity|]. eauto.
    + left. split; [reflexivity|]. exists store'. split; [reflexivity|].
      unfold Get. rewrite Hk, Hload. reflexivity.
Qed.

(** Every chunk of the map is still there after a [Get], read from the
    same source, with its work queue as it was or longer. *)
Lemma Get_keeps_chunk (mgr : ChunkManager) (loc : ChunkXz) (k : Z) (c : Chunk) :
  chunks mgr !! k = Some c ->
  exists items, chunks (fst (Get mgr loc)) !! k = Some (extend items c).
Proof.
  intros Hk.
  destruct (Get_ways mgr loc)
    as [[_ ->] | [(_ & store' & _ & ->) | (Hmiss & store' & r & Hload)]].
  - exists []. rewrite extend_nil. exact Hk.
  - exists []. rewrite extend_nil. exact Hk.
  - rewrite (Get_loads mgr loc store' r Hmiss Hload). cbn [fst chunks].
    assert (Hne : ChunkKey loc <> k) by congruence.
    rewrite lookup_insert_ne by exact Hne.
    destruct (linkNeighbours_all (ChunkKey loc) loc sides
                (newChunkFromReader r) (chunks mgr)) as [_ H2].
    rewrite H2, Hk. simpl. eauto.
Qed.

Lemma Get_keeps_loaded (mgr : ChunkManager) (loc : ChunkXz) (k : Z) :
  is_Some (chunks mgr !! k) -> is_Some (chunks (fst (Get mgr loc)) !! k).
Proof.
  intros [c Hc]. destruct (Get_keeps_chunk mgr loc k c Hc) as [items H]. eauto.
Qed.

(** After a [Get] that has returned a chunk, the chunk is in the map. *)
Lemma Get_Some_loaded (mgr : ChunkManager) (loc : ChunkXz) :
  snd (Get mgr loc) <> None ->
  is_Some (chunks (fst (Get mgr loc)) !! ChunkKey loc).
Proof.
  intros Hsome.
  destruct (Get_ways mgr loc)
    as [[Hin ->] | [(_ & store' & _ & Heq) | (Hmiss & store' & r & Hload)]].
  - exact Hin.
  - rewrite Heq in Hsome. contradiction.
  - rewrite (Get_loads mgr loc store' r Hmiss Hload). cbn [fst chunks].
    rewrite lookup_insert_eq. eauto.
Qed.

Lemma Get_hit (mgr : ChunkManager) (loc : ChunkXz) :
  is_Some (chunks mgr !! ChunkKey loc) ->
  Get mgr loc = (mgr, Some (ChunkKey loc)).
Proof. intros [c Hc]. unfold Get. rewrite Hc. reflexivity. Qed.

Lemma GetEach_keeps_loaded (locs : list ChunkXz) (k : Z) :
  forall mgr, is_Some (chunks mgr !! k) ->
    is_Some (chunks (fst (GetEach mgr locs)) !! k).
Proof.
  induction locs as [|l locs IH]; intros mgr Hk; [exact Hk|].
  simpl. pose proof (Get_keeps_loaded mgr l k Hk) as Hk1.
  destruct (Get mgr l) as [mgr1 c]. specialize (IH mgr1 Hk1).
  destruct (GetEach mgr1 locs) as [mgr2 cs]. exact IH.
Qed.

(** After a pass that has sent no nil, every chunk of the list is in the
    map. *)
Lemma GetEach_loaded (locs : list ChunkXz) :
  forall mgr, None ∉ snd (GetEach mgr locs) ->
    forall l, l ∈ locs -> is_Some (chunks (fst (GetEach mgr locs)) !! ChunkKey l).
Proof.
  induction locs as [|l0 locs IH]; intros mgr Hnone l Hl.
  - inversion Hl.
  - simpl in *.
    pose proof (Get_Some_loaded mgr l0) as Hl0.
    destruct (Get mgr l0) as [mgr1 c] eqn:HGet.
    specialize (IH mgr1).
    pose proof (GetEach_keeps_loaded locs (ChunkKey l0) mgr1) as Hkeep.
    destruct (GetEach mgr1 locs) as [mgr2 cs]. cbn [fst snd] in *.
    assert (Hc : c <> None).
    { intros ->. apply Hnone. left. }
    assert (Hcs : None ∉ cs).
    { intros Hin. apply Hnone. right. exact Hin. }
    apply elem_of_cons in Hl as [-> | Hl].
    + apply Hkeep, Hl0, Hc.
    + apply IH; assumption.
Qed.

(** A pass over chunks that are all in the map returns them and leaves
    the manager as it is. *)
Lemma GetEach_all_hits (locs : list ChunkXz) (mgr : ChunkManager) :
  (forall l, l ∈ locs -> is_Some (chunks mgr !! ChunkKey l)) ->
  GetEach mgr locs = (mgr, (fun l => Some (ChunkKey l)) <$> locs).
Proof.
  induction locs as [|l locs IH]; intros Hall; [reflexivity|].
  simpl. rewrite Get_hit by (apply Hall; left).
  rewrite IH by (intros l' Hl'; apply Hall; right; exact Hl').
  reflexivity.
Qed.

Lemma GetEach_no_nil (locs : list ChunkXz) (mgr : ChunkManager) :
  None ∉ snd (GetEach mgr locs) ->
  snd (GetEach mgr locs) = (fun l => Some (ChunkKey l)) <$> locs.
Proof.
  pose proof (GetEach_results locs mgr) as Hres.
  induction Hres as [|c l cs locs' Hc _ IH]; intros Hnone; [reflexivity|].
  rewrite fmap_cons. f_equal.
  - destruct Hc as [-> | ->]; [|reflexivity]. exfalso. apply Hnone. left.
  - apply IH. intros Hin. apply Hnone. right. exact Hin.
Qed.

(** The store is called once for each chunk of a list of chunks with
    different keys, none of them in the map, in the order of the list. *)
Lemma GetEach_load_calls (locs : list ChunkXz) :
  forall mgr,
    NoDup (ChunkKey <$> locs) ->
    (forall l, l ∈ locs -> chunks mgr !! ChunkKey l = None) ->
    exists events,
      trace (fst (GetEach mgr locs)) = trace mgr ++ events /\
      load_calls events = locs.
Proof.
  induction locs as [|l locs IH]; intros mgr Hdup Hmiss.
  - exists []. split; [rewrite app_nil_r|]; reflexivity.
  - rewrite fmap_cons in Hdup. apply NoDup_cons in Hdup as [Hl Hdup].
    assert (Hrest : forall l', l' ∈ locs ->
                      chunks (fst (Get mgr l)) !! ChunkKey l' = None).
    { intros l' Hl'. apply Get_keeps_absent.
      - apply Hmiss. right. exact Hl'.
      - intros Heq. apply Hl. rewrite Heq. apply list_elem_of_fmap. eauto. }
    assert (Hfirst : exists tail,
               trace (fst (Get mgr l)) = trace mgr ++ EvLoadChunk l :: tail /\
               load_calls tail = []).
    { specialize (Hmiss l ltac:(left)). unfold Get. rewrite Hmiss.
      destruct (LoadChunk (chunkStore mgr) l) as [store' [r|]]; simpl.
      - exists []. split; reflexivity.
      - exists [EvLogPrintf l]. split; [|reflexivity].
        rewrite <- (app_assoc _ [_] [_]). reflexivity. }
    simpl. destruct (Get mgr l) as [mgr1 c]. cbn [fst] in *.
    destruct (IH mgr1 Hdup Hrest) as (events & Htrace & Hcalls).
    destruct (GetEach mgr1 locs) as [mgr2 cs]. cbn [fst] in *.
    destruct Hfirst as (tail & Hfirst & Htail).
    exists (EvLoadChunk l :: tail ++ events). split.
    + rewrite Htrace, Hfirst, <- app_assoc. reflexivity.
    + change (load_calls (EvLoadChunk l :: tail ++ events))
        with (l :: load_calls (tail ++ events)).
      unfold load_calls in *. rewrite omap_app, Htail, Hcalls. reflexivity.
Qed.

(** X5: a chunk that [Get] has returned is cached: the next [Get] for the
    same coordinate returns the same chunk without calling the store, and
    leaves the manager, its map and its trace as they are. *)
Theorem Get_again (mgr : ChunkManager) (loc : ChunkXz) :
  snd (Get mgr loc) <> None ->
  let mgr1 := fst (Get mgr loc) in
  snd (Get mgr loc) = Some (ChunkKey loc) /\
  Get mgr1 loc = (mgr1, Some (ChunkKey loc)).
Proof.
  intros Hsome mgr1. split.
  - destruct (Get_result mgr loc) as [H | H]; [contradiction | exact H].
  - apply Get_hit. apply Get_Some_loaded. exact Hsome.
Qed.

(** X6: [Get] never unloads or replaces a chunk: every chunk that is in the
    map before a call, for whatever coordinate, is in the map after it under
    the same key, built from the same reader, and its work queue has only
    grown at the end. *)
Theorem Get_never_unloads (mgr : ChunkManager) (loc : ChunkXz) (k : Z) (c : Chunk) :
  chunks mgr !! k = Some c ->
  exists c',
    chunks (fst (Get mgr loc)) !! k = Some c' /\
    source c' = source c /\
    workQueue c `prefix_of` workQueue c'.
Proof.
  intros Hk. destruct (Get_keeps_chunk mgr loc k c Hk) as [items H].
  exists (extend items c). split; [exact H|]. split; [reflexivity|].
  exists items. reflexivity.
Qed.

(** X7: how [Get] links a chunk it loads.  The new chunk is registered
    under its key with, in its work queue, one [sideCacheSetNeighbour] for
    every side (east, south, west, north, in this order) on which a
    neighbour was in the map; and every chunk that was in the map gets, at
    the end of its queue, one [sideCacheSetNeighbour] with the opposite side
    and the new chunk for every side on which it is that neighbour, and is
    otherwise as it was.  The store has been called once, and nothing is
    logged. *)
Theorem Get_links_neighbours (mgr : ChunkManager) (loc : ChunkXz)
    (store' : Store) (chunkReader : ChunkReader) :
  chunks mgr !! ChunkKey loc = None ->
  LoadChunk (chunkStore mgr) loc = (store', Some chunkReader) ->
  let mgr1 := fst (Get mgr loc) in
  snd (Get mgr loc) = Some (ChunkKey loc) /\
  chunks mgr1 !! ChunkKey loc
  = Some {| source := chunkReader; workQueue := links_out (chunks mgr) loc sides |} /\
  (forall k, k <> ChunkKey loc ->
     chunks mgr1 !! k
     = extend (links_in (ChunkKey loc) loc k sides) <$> chunks mgr !! k) /\
  chunkStore mgr1 = store' /\
  trace mgr1 = trace mgr ++ [EvLoadChunk loc].
Proof.
  intros Hmiss Hload mgr1. subst mgr1.
  rewrite (Get_loads mgr loc store' chunkReader Hmiss Hload).
  cbn [fst snd chunks chunkStore trace].
  destruct (linkNeighbours_all (ChunkKey loc) loc sides
              (newChunkFromReader chunkReader) (chunks mgr)) as [H1 H2].
  split; [reflexivity|]. split; [|split; [|split; reflexivity]].
  - rewrite lookup_insert_eq, H1. reflexivity.
  - intros k Hk. rewrite lookup_insert_ne by congruence. apply H2.
Qed.

(** X8: after a pass of [ChunksInRadius] that has sent no nil, a second
    pass around the same centre sends the same chunks in the same order and
    leaves the manager as it is: no chunk is loaded again, and the store is
    not called. *)
Theorem ChunksInRadius_second_pass (fuel : nat) (mgr mgr1 : ChunkManager)
    (loc : ChunkXz) (sent : list (option Z)) :
  window_in_int32 loc ->
  (Z.to_nat (2 * ChunkRadius + 1) < fuel)%nat ->
  ChunksInRadius fuel mgr loc = Some (mgr1, sent) ->
  None ∉ sent ->
  ChunksInRadius fuel mgr1 loc = Some (mgr1, sent).
Proof.
  intros Hrange Hfuel Hrun Hnone.
  rewrite ChunksInRadius_in_range in Hrun by assumption.
  rewrite ChunksInRadius_in_range by assumption.
  revert Hrun. generalize (radius_window loc). intros w Hrun.
  assert (Hpair : GetEach mgr w = (mgr1, sent)) by congruence.
  assert (Hsent : snd (GetEach mgr w) = sent) by (rewrite Hpair; reflexivity).
  assert (Hmgr1 : fst (GetEach mgr w) = mgr1) by (rewrite Hpair; reflexivity).
  f_equal. rewrite GetEach_all_hits.
  - f_equal. rewrite <- Hsent. symmetry. apply GetEach_no_nil.
    rewrite Hsent. exact Hnone.
  - intros l Hl. rewrite <- Hmgr1. apply GetEach_loaded; [|exact Hl].
    rewrite Hsent. exact Hnone.
Qed.

(** X9: around a centre whose window lies within [int32], on a manager that
    has none of the chunks of the window in its map, [ChunksInRadius] calls
    the store exactly once for every coordinate of the window, in row-major
    order (Z outer, X inner), whether the loads succeed or fail. *)
Theorem ChunksInRadius_load_calls (fuel : nat) (mgr : ChunkManager)
    (loc : ChunkXz) :
  window_in_int32 loc ->
  (Z.to_nat (2 * ChunkRadius + 1) < fuel)%nat ->
  (forall l, l ∈ radius_window loc -> chunks mgr !! ChunkKey l = None) ->
  exists mgr1 sent events,
    ChunksInRadius fuel mgr loc = Some (mgr1, sent) /\
    trace mgr1 = trace mgr ++ events /\
    load_calls events = radius_window loc.
Proof.
  intros Hrange Hfuel Hmiss.
  rewrite ChunksInRadius_in_range by assumption.
  destruct (GetEach_load_calls (radius_window loc) mgr
              (radius_window_keys_NoDup loc Hrange) Hmiss)
    as (events & Htrace & Hcalls).
  destruct (GetEach mgr (radius_window loc)) as [mgr1 sent].
  exists mgr1, sent, events. split; [reflexivity|]. split; assumption.
Qed.

(** A loop whose body does not end on the first round does not end. *)
Lemma for_loop_first_fails {S : Type} (fuel : nat) (cond : Z -> bool) (i : Z)
    (body : Z -> S -> option S) (s : S) :
  cond i = true -> body i s = None -> for_loop fuel cond i body s = None.
Proof.
  intros Hcond Hbody. destruct fuel as [|fuel]; [reflexivity|].
  simpl. rewrite Hcond, Hbody. reflexivity.
Qed.

(** X10: a loop bound of [MaxInt32] is never exceeded.  When
    [loc.Z + ChunkRadius] is [MaxInt32], or when [loc.X + ChunkRadius] is
    [MaxInt32] and the outer loop is entered, the goroutine of
    [ChunksInRadius] never reaches [close(c)], whatever the fuel, the
    manager and the store. *)
Theorem ChunksInRadius_never_closes (fuel : nat) (mgr : ChunkManager)
    (loc : ChunkXz) :
  int32 (Z' loc + ChunkRadius) = 2 ^ 31 - 1 \/
  (int32 (X loc + ChunkRadius) = 2 ^ 31 - 1 /\
   int32 (Z' loc - ChunkRadius) <= int32 (Z' loc + ChunkRadius)) ->
  ChunksInRadius fuel mgr loc = None.
Proof.
  intros [Hz | [Hx Hin]]; unfold ChunksInRadius.
  - apply for_loop_diverges.
    + intros i Hi. rewrite Hz. apply Z.leb_le. lia.
    + apply (wrap_signed_range 32 (Z' loc - ChunkRadius)). lia.
  - apply for_loop_first_fails; [apply Z.leb_le; exact Hin|].
    apply for_loop_diverges.
    + intros i Hi. rewrite Hx. apply Z.leb_le. lia.
    + apply (wrap_signed_range 32 (X loc - ChunkRadius)). lia.
Qed.

End Manager.

Arguments mkChunk {ChunkReader}.
Arguments source {ChunkReader}.
Arguments workQueue {ChunkReader}.
Arguments mkManager {ChunkReader Store}.
Arguments chunkStore {ChunkReader Store}.
Arguments chunks {ChunkReader Store}.
Arguments trace {ChunkReader Store}.
Arguments Get {ChunkReader Store}.
Arguments GetEach {ChunkReader Store}.
Arguments ChunksInRadius {ChunkReader Store}.

(** C6, as stated, at a concrete input: around the centre (0, MaxInt32) the
    bound [loc.Z + ChunkRadius] wraps around to a negative number, the outer
    loop ends at once, and no chunk is sent although every load succeeds. *)
Lemma ChunksInRadius_none_at_MaxInt32 :
  let mgr := mkManager tt (∅ : gmap Z (Chunk unit)) [] in
  let loc := {| X := 0; Z' := 2 ^ 31 - 1 |} in
  (forall st l, snd (load_always st l) <> None) /\
  ChunksInRadius load_always side_offsets side_opposite 100 mgr loc = Some (mgr, []) /\
  length (chunks_sent ([] : list (option Z))) <> Z.to_nat ((2 * ChunkRadius + 1) ^ 2).
Proof.
  split; [|split].
  - intros st l H. inversion H.
  - reflexivity.
  - vm_compute. discriminate.
Qed.

Lemma ChunksInRadius_window_witness :
  exists mgr' sent,
    ChunksInRadius load_always side_offsets side_opposite 22
      (mkManager tt (∅ : gmap Z (Chunk unit)) []) {| X := 0; Z' := 0 |}
    = Some (mgr', sent) /\
    length sent = 441%nat.
Proof.
  destruct (ChunksInRadius_window unit unit load_always side_offsets side_opposite 22
              (mkManager tt (∅ : gmap Z (Chunk unit)) []) {| X := 0; Z' := 0 |})
    as (mgr' & sent & Hrun & _ & _ & Hlen & _).
  - unfold window_in_int32, ChunkRadius. simpl. lia.
  - unfold ChunkRadius. simpl. lia.
  - exists mgr', sent. split; [exact Hrun | exact Hlen].
Defined.

Lemma Get_load_failure_not_cached_witness :
  let get := Get load_after_retry side_offsets side_opposite in
  let mgr := mkManager O (∅ : gmap Z (Chunk unit)) [] in
  let loc := {| X := 3; Z' := -4 |} in
  snd (get mgr loc) = None /\
  chunks (fst (get mgr loc)) = chunks mgr /\
  snd (get (fst (get mgr loc)) loc) = Some (ChunkKey loc).
Proof.
  intros get mgr loc.
  destruct (Get_load_failure_not_cached unit nat load_after_retry side_offsets side_opposite
              mgr loc 1%nat) as (H1 & H2 & _ & _ & _ & _ & H7).
  - reflexivity.
  - reflexivity.
  - split; [exact H1|]. split; [exact H2|].
    exact (proj1 (H7 2%nat tt eq_refl)).
Defined.

Lemma Get_again_witness :
  let get := Get load_always side_offsets side_opposite in
  let mgr := mkManager tt (∅ : gmap Z (Chunk unit)) [] in
  let loc := {| X := 3; Z' := -4 |} in
  snd (get mgr loc) = Some (ChunkKey loc) /\
  get (fst (get mgr loc)) loc = (fst (get mgr loc), Some (ChunkKey loc)).
Proof.
  intros get mgr loc.
  apply (Get_again unit unit load_always side_offsets side_opposite mgr loc).
  vm_compute. discriminate.
Defined.

Lemma Get_never_unloads_witness :
  let get := Get load_always side_offsets side_opposite in
  let mgr := fst (get (mkManager tt ∅ []) {| X := 0; Z' := 0 |}) in
  exists c',
    chunks (fst (get mgr {| X := 1; Z' := 0 |})) !! ChunkKey {| X := 0; Z' := 0 |}
    = Some c' /\
    source c' = tt /\
    [] `prefix_of` workQueue c'.
Proof.
  intros get mgr.
  apply (Get_never_unloads unit unit load_always side_offsets side_opposite
           mgr {| X := 1; Z' := 0 |} (ChunkKey {| X := 0; Z' := 0 |})
           {| source := tt; workQueue := [] |}).
  vm_compute. reflexivity.
Defined.

Lemma Get_links_neighbours_witness :
  let get := Get load_always side_offsets side_opposite in
  let mgr := fst (get (mkManager tt ∅ []) {| X := 0; Z' := 0 |}) in
  let loc := {| X := 1; Z' := 0 |} in
  let mgr1 := fst (get mgr loc) in
  chunks mgr1 !! ChunkKey loc
  = Some {| source := tt;
            workQueue :=
              [sideCacheSetNeighbour ChunkSideWest (ChunkKey {| X := 0; Z' := 0 |})] |} /\
  chunks mgr1 !! ChunkKey {| X := 0; Z' := 0 |}
  = Some {| source := tt;
            workQueue := [sideCacheSetNeighbour ChunkSideEast (ChunkKey loc)] |} /\
  trace mgr1 = [EvLoadChunk {| X := 0; Z' := 0 |}; EvLoadChunk loc].
Proof.
  intros get mgr loc mgr1.
  destruct (Get_links_neighbours unit unit load_always side_offsets side_opposite
              mgr loc tt tt) as (_ & Hnew & Hold & _ & Htrace).
  - vm_compute. reflexivity.
  - reflexivity.
  - split; [|split].
    + etransitivity; [exact Hnew|]. vm_compute. reflexivity.
    + etransitivity; [apply Hold; vm_compute; discriminate|].
      vm_compute. reflexivity.
    + etransitivity; [exact Htrace|]. vm_compute. reflexivity.
Defined.

Lemma ChunksInRadius_second_pass_witness :
  let run := ChunksInRadius load_always side_offsets side_opposite 22 in
  let loc := {| X := 0; Z' := 0 |} in
  let first :=
    GetEach load_always side_offsets side_opposite
      (mkManager tt (∅ : gmap Z (Chunk unit)) [])
      (radius_window loc) in
  run (mkManager tt ∅ []) loc = Some first /\
  run (fst first) loc = Some (fst first, snd first).
Proof.
  intros run loc first.
  assert (Hrun : run (mkManager tt ∅ []) loc = Some (fst first, snd first))
    by (vm_compute; reflexivity).
  split; [vm_compute; reflexivity|].
  apply (ChunksInRadius_second_pass unit unit load_always side_offsets side_opposite
           22 (mkManager tt ∅ []) (fst first) loc (snd first)).
  - unfold window_in_int32, ChunkRadius. simpl. lia.
  - unfold ChunkRadius. simpl. lia.
  - exact Hrun.
  - apply (bool_decide_unpack (None ∉ snd first)). vm_compute. exact I.
Defined.

Lemma ChunksInRadius_load_calls_witness :
  exists mgr1 sent events,
    ChunksInRadius load_after_retry side_offsets side_opposite 22
      (NewChunkManager unit nat O) {| X := 0; Z' := 0 |}
    = Some (mgr1, sent) /\
    trace mgr1 = [] ++ events /\
    load_calls events = radius_window {| X := 0; Z' := 0 |}.
Proof.
  apply (ChunksInRadius_load_calls unit nat load_after_retry side_offsets side_opposite
           22 (NewChunkManager unit nat O) {| X := 0; Z' := 0 |}).
  - unfold window_in_int32, ChunkRadius. simpl. lia.
  - unfold ChunkRadius. simpl. lia.
  - intros l _. reflexivity.
Defined.

Lemma ChunksInRadius_never_closes_witness :
  ChunksInRadius load_always side_offsets side_opposite 1000
    (mkManager tt (∅ : gmap Z (Chunk unit)) []) {| X := 2 ^ 31 - 11; Z' := 0 |}
  = None.
Proof.
  apply (ChunksInRadius_never_closes unit unit load_always side_offsets side_opposite).
  right. vm_compute. split; [reflexivity | discriminate].
Defined.

End Chunk.

(** ** package main: the player session (player.go) *)

Module Main.

(** [const chunkRadius = 10] *)
Definition chunkRadius : Z := 10.

(** Modelled from the spec: the constants [ChunkSizeX] and [ChunkSizeZ] are
    declared outside the sources at hand; a chunk is a 16 x 128 x 16 column. *)
Definition ChunkSizeX : Z := 16.
Definition ChunkSizeZ : Z := 16.

(** A finite [float64] or [float32] is a rational number; the session only
    stores such values, prints them and converts them to [int32]. *)
Record XYZ : Type := mkXYZ { x : Q; y : Q; z : Q }.
Record Orientation : Type := mkOrientation { rotation : Q; pitch : Q }.

(** The conversion [int32(f)] of a float: the fraction is dropped. *)
Definition int32_of_float (f : Q) : Z := int32 (Z.quot (Qnum f) (Z.pos (Qden f))).

(** Modelled from the spec: [StartPosition] is declared outside the sources
    at hand; the spawn position is (8.5, 65.0, 8.5). *)
Definition StartPosition : XYZ := {| x := 17 # 2; y := 65 # 1; z := 17 # 2 |}.

(** Modelled from the spec: the packet writers [WriteSpawnPosition],
    [WritePreChunk], [WriteMapChunk], [WritePlayerInventory],
    [WritePlayerPositionLook] and [WriteTimeUpdate] are not among the sources
    at hand; each appends one packet of its kind, carrying its arguments, to
    the writer.  A buffer is the list of the packets written to it. *)
Inductive Packet : Type :=
| SpawnPosition (position : XYZ)
| PreChunk (x z : Z) (mode : bool)
| MapChunk (chunk : option Z)
| PlayerInventory
| PlayerPositionLook (position : XYZ) (orientation : Orientation)
    (stance : Q) (flying : bool)
| TimeUpdate (time : Z).

Definition WriteSpawnPosition (writer : list Packet) (position : XYZ) : list Packet :=
  writer ++ [SpawnPosition position].
Definition WritePreChunk (writer : list Packet) (x z : Z) (mode : bool) : list Packet :=
  writer ++ [PreChunk x z mode].
Definition WriteMapChunk (writer : list Packet) (chunk : option Z) : list Packet :=
  writer ++ [MapChunk chunk].
Definition WritePlayerInventory (writer : list Packet) : list Packet :=
  writer ++ [PlayerInventory].
Definition WritePlayerPositionLook (writer : list Packet) (position : XYZ)
    (orientation : Orientation) (stance : Q) (flying : bool) : list Packet :=
  writer ++ [PlayerPositionLook position orientation stance flying].
Definition WriteTimeUpdate (writer : list Packet) (time : Z) : list Packet :=
  writer ++ [TimeUpdate time].

(** The lines written with [log.Stderrf], with the values they print. *)
Inductive LogLine : Type :=
| LogPacketChatMessage (message : list Byte.byte)
| LogPacketPlayerPosition (position : XYZ) (stance : Q) (flying : bool)
| LogPacketPlayerLook (orientation : Orientation) (flying : bool)
| LogPacketPlayerDigging (status x y z face : Z)
| LogPacketPlayerBlockPlacement (id x y z direction : Z).

(** [type Player struct]: the stored position and orientation and the
    contents of the channel [txQueue], oldest first.  The game, and with it
    the chunk manager, is passed along separately. *)
Record Player : Type := mkPlayer {
  position : XYZ;
  orientation : Orientation;
  txQueue : list (list Packet)
}.

(** [func (player *Player) PacketKeepAlive()] *)
Definition PacketKeepAlive (player : Player) : Player := player.

(** [func (player *Player) PacketChatMessage(message string)]: the player
    after the call and the line logged. *)
Definition PacketChatMessage (player : Player) (message : list Byte.byte)
    : Player * LogLine :=
  (player, LogPacketChatMessage message).

(** [func (player *Player) PacketFlying(flying bool)] *)
Definition PacketFlying (player : Player) (flying : bool) : Player := player.

(** [func (player *Player) PacketPlayerPosition(position *XYZ, stance float64, flying bool)]:
    the player after the call and the line logged. *)
Definition PacketPlayerPosition (player : Player) (position : XYZ) (stance : Q)
    (flying : bool) : Player * LogLine :=
  (player, LogPacketPlayerPosition position stance flying).

(** [func (player *Player) PacketPlayerLook(orientation *Orientation, flying bool)] *)
Definition PacketPlayerLook (player : Player) (orientation : Orientation)
    (flying : bool) : Player * LogLine :=
  (player, LogPacketPlayerLook orientation flying).

(** [func (player *Player) PacketPlayerDigging(status byte, x int32, y byte, z int32, face byte)] *)
Definition PacketPlayerDigging (player : Player) (status x y z face : Z)
    : Player * LogLine :=
  (player, LogPacketPlayerDigging status x y z face).

(** [func (player *Player) PacketPlayerBlockPlacement(id int16, x int32, y byte, z int32, direction byte)] *)
Definition PacketPlayerBlockPlacement (player : Player) (id x y z direction : Z)
    : Player * LogLine :=
  (player, LogPacketPlayerBlockPlacement id x y z direction).

(** [func (player *Player) SendTimeUpdate(time int64)] *)
Definition SendTimeUpdate (player : Player) (time : Z) : Player :=
  let buf := WriteTimeUpdate [] time in
  {| position := position player; orientation := orientation player;
     txQueue := txQueue player ++ [buf] |}.

(** Whether a packet is a pre-chunk packet. *)
Definition is_PreChunk (p : Packet) : bool :=
  match p with PreChunk _ _ _ => true | _ => false end.

(** A player as [StartPlayer] creates it. *)
Definition new_player : Player :=
  {| position := StartPosition;
     orientation := {| rotation := 0; pitch := 0 |};
     txQueue := [] |}.

Section Session.

(** The chunk manager of the game and what it depends on (see [Chunk]). *)
Variables ChunkReader Store : Type.
Variable LoadChunk : Store -> Chunk.ChunkXz -> Store * option ChunkReader.
Variable GetDxz : Chunk.ChunkSideDir -> Z * Z.
Variable GetOpposite : Chunk.ChunkSideDir -> Chunk.ChunkSideDir.

(** [player.game.chunkManager.Get(x, z)] *)
Definition chunkManager_Get (mgr : Chunk.ChunkManager ChunkReader Store)
    (x z : Z) : Chunk.ChunkManager ChunkReader Store * option Z :=
  Chunk.Get LoadChunk GetDxz GetOpposite mgr {| Chunk.X := x; Chunk.Z' := z |}.

(** [func (player *Player) sendChunks(writer io.Writer)], on the chunk
    manager of the game and the writer. *)
Definition sendChunks (fuel : nat) (player : Player)
    (st : Chunk.ChunkManager ChunkReader Store * list Packet) : option (Chunk.ChunkManager ChunkReader Store * list Packet) :=
  let '(mgr, writer) := st in
  let playerX := int32 (Z.quot (int32_of_float (x (position player))) ChunkSizeX) in
  let playerZ := int32 (Z.quot (int32_of_float (z (position player))) ChunkSizeZ) in
  match
    for_loop fuel (fun z => z <? int32 (playerZ + chunkRadius))
      (int32 (playerZ - chunkRadius))
      (fun z writer =>
         for_loop fuel (fun x => x <? int32 (playerX + chunkRadius))
           (int32 (playerX - chunkRadius))
           (fun x writer => Some (WritePreChunk writer x z true))
           writer)
      writer
  with
  | None => None
  | Some writer =>
      for_loop fuel (fun z => z <? int32 (playerZ + chunkRadius))
        (int32 (playerZ - chunkRadius))
        (fun z st =>
           for_loop fuel (fun x => x <? int32 (playerX + chunkRadius))
             (int32 (playerX - chunkRadius))
             (fun x '(mgr, writer) =>
                let '(mgr', chunk) := chunkManager_Get mgr x z in
                Some (mgr', WriteMapChunk writer chunk))
             st)
        (mgr, writer)
  end.

(** [func (player *Player) postLogin()]: the player and the chunk manager
    after the call. *)
Definition postLogin (fuel : nat) (player : Player) (mgr : Chunk.ChunkManager ChunkReader Store)
    : option (Player * Chunk.ChunkManager ChunkReader Store) :=
  let buf := [] in
  let buf := WriteSpawnPosition buf (position player) in
  match sendChunks fuel player (mgr, buf) with
  | None => None
  | Some (mgr', buf) =>
      let buf := WritePlayerInventory buf in
      let buf := WritePlayerPositionLook buf (position player) (orientation player)
                   0 false in
      Some ({| position := position player; orientation := orientation player;
               txQueue := txQueue player ++ [buf] |}, mgr')
  end.

(** The chunk of the player, as [sendChunks] computes it. *)
Definition player_chunk (player : Player) : Z * Z :=
  (Z.quot (int32_of_float (x (position player))) ChunkSizeX,
   Z.quot (int32_of_float (z (position player))) ChunkSizeZ).

(** The coordinates [sendChunks] walks through: 2R rows of 2R chunks, from
    [c - R] up to [c + R - 1] in both directions, Z outer, X inner. *)
Definition login_window (player : Player) : list (Z * Z) :=
  let '(playerX, playerZ) := player_chunk player in
  z ← seqZ (playerZ - chunkRadius) (2 * chunkRadius);
  (fun x => (x, z)) <$> seqZ (playerX - chunkRadius) (2 * chunkRadius).

(** *** The loops of [sendChunks] *)

Lemma player_chunk_range (player : Player) :
  - 2 ^ 27 <= fst (player_chunk player) <= 2 ^ 27 /\
  - 2 ^ 27 <= snd (player_chunk player) <= 2 ^ 27.
Proof.
  assert (Hq : forall a, - 2 ^ 31 <= a < 2 ^ 31 -> - 2 ^ 27 <= Z.quot a 16 <= 2 ^ 27).
  { intros a Ha.
    pose proof (Z.quot_rem' a 16) as Hqr.
    pose proof (Z.rem_bound_abs a 16 ltac:(lia)) as Hr.
    lia. }
  unfold player_chunk, int32_of_float, int32, ChunkSizeX, ChunkSizeZ. simpl.
  split; apply Hq; apply (wrap_signed_range 32); lia.
Qed.

(** Two nested loops whose bodies always go on run the step once for every
    pair of the grid, row by row. *)
Lemma for_each_grid {S : Type} (step : Z -> Z -> S -> S) (xs zs : list Z) :
  forall s : S,
    for_each zs (fun z s => for_each xs (fun x s => Some (step x z s)) s) s
    = Some (fold_left (fun s '(x, z) => step x z s)
              (z ← zs; (fun x => (x, z)) <$> xs) s).
Proof.
  assert (Hrow : forall z xs s,
             for_each xs (fun x s => Some (step x z s)) s
             = Some (fold_left (fun s '(x, z) => step x z s)
                       ((fun x => (x, z)) <$> xs) s)).
  { intros z0 xs0. induction xs0 as [|x0 xs0 IH]; intros s; simpl; [reflexivity|].
    apply IH. }
  induction zs as [|z0 zs IH]; intros s; simpl; [reflexivity|].
  rewrite Hrow, IH, fold_left_app. reflexivity.
Qed.

Lemma for_each_ext {S : Type} (f g : Z -> S -> option S) (l : list Z) :
  (forall i s, f i s = g i s) -> forall s, for_each l f s = for_each l g s.
Proof.
  intros Hfg. induction l as [|i l IH]; intros s; simpl; [reflexivity|].
  rewrite Hfg. destruct (g i s); auto.
Qed.

Lemma fold_WritePreChunk (window : list (Z * Z)) :
  forall writer,
    fold_left (fun w '(x, z) => WritePreChunk w x z true) window writer
    = writer ++ ((fun '(x, z) => PreChunk x z true) <$> window).
Proof.
  induction window as [|[x0 z0] window IH]; intros writer; simpl.
  - rewrite app_nil_r. reflexivity.
  - rewrite IH. unfold WritePreChunk. rewrite <- app_assoc. reflexivity.
Qed.

Lemma fold_WriteMapChunk (window : list (Z * Z)) :
  forall mgr writer,
    fold_left (fun (st : Chunk.ChunkManager ChunkReader Store * list Packet) '(x, z) =>
                 let '(mgr, writer) := st in
                 let '(mgr', chunk) := chunkManager_Get mgr x z in
                 (mgr', WriteMapChunk writer chunk))
      window (mgr, writer)
    = let '(mgr', chunks) :=
        Chunk.GetEach LoadChunk GetDxz GetOpposite mgr
          ((fun '(x, z) => {| Chunk.X := x; Chunk.Z' := z |}) <$> window) in
      (mgr', writer ++ (MapChunk <$> chunks)).
Proof.
  induction window as [|[x0 z0] window IH]; intros mgr writer; simpl.
  - rewrite app_nil_r. reflexivity.
  - unfold chunkManager_Get at 2.
    destruct (Chunk.Get _ _ _ mgr _) as [mgr1 c].
    rewrite IH.
    destruct (Chunk.GetEach _ _ _ mgr1 _) as [mgr2 cs].
    unfold WriteMapChunk. rewrite <- app_assoc. reflexivity.
Qed.

Lemma login_window_length (player : Player) :
  length (login_window player) = Z.to_nat ((2 * chunkRadius) ^ 2).
Proof.
  unfold login_window. destruct (player_chunk player) as [px pz].
  rewrite (Chunk.length_bind_const _ (Z.to_nat (2 * chunkRadius))).
  - rewrite length_seqZ. reflexivity.
  - intros z0. rewrite length_fmap, length_seqZ. reflexivity.
Qed.

Lemma sendChunks_window (fuel : nat) (player : Player)
    (mgr : Chunk.ChunkManager ChunkReader Store) (writer : list Packet) :
  (Z.to_nat (2 * chunkRadius) < fuel)%nat ->
  sendChunks fuel player (mgr, writer)
  = Some (let '(mgr', chunks) :=
            Chunk.GetEach LoadChunk GetDxz GetOpposite mgr
              ((fun '(x, z) => {| Chunk.X := x; Chunk.Z' := z |})
                 <$> login_window player) in
          (mgr', writer
                 ++ ((fun '(x, z) => PreChunk x z true) <$> login_window player)
                 ++ (MapChunk <$> chunks))).
Proof.
  intros Hfuel.
  pose proof (player_chunk_range player) as Hrange.
  unfold sendChunks, login_window.
  unfold player_chunk in *. simpl fst in Hrange. simpl snd in Hrange.
  set (px := Z.quot (int32_of_float (x (position player))) ChunkSizeX) in *.
  set (pz := Z.quot (int32_of_float (z (position player))) ChunkSizeZ) in *.
  unfold chunkRadius in *.
  change (2 * 10) with (Z.of_nat 20) in *.
  rewrite Nat2Z.id in Hfuel.
  rewrite !(int32_small px), !(int32_small pz) by lia.
  rewrite !int32_small by lia.
  rewrite (for_loop_range _ _ 20); cbv beta;
    [| lia | lia | lia | intros; lia | apply Z.ltb_ge; lia].
  rewrite (for_each_ext _
             (fun z w => for_each (seqZ (px - 10) (Z.of_nat 20))
                           (fun x w => Some (WritePreChunk w x z true)) w)).
  2:{ intros z0 w. apply for_loop_range; cbv beta;
        [lia | lia | lia | intros; lia | apply Z.ltb_ge; lia]. }
  rewrite (for_each_grid (fun x z w => WritePreChunk w x z true)).
  rewrite fold_WritePreChunk.
  rewrite (for_loop_range _ _ 20); cbv beta;
    [| lia | lia | lia | intros; lia | apply Z.ltb_ge; lia].
  rewrite (for_each_ext _
             (fun z st => for_each (seqZ (px - 10) (Z.of_nat 20))
                (fun x st =>
                   Some (let '(mgr, writer) := st in
                         let '(mgr', chunk) := chunkManager_Get mgr x z in
                         (mgr', WriteMapChunk writer chunk))) st)).
  2:{ intros z0 st.
      rewrite (for_loop_range _ _ 20); cbv beta;
        [| lia | lia | lia | intros; lia | apply Z.ltb_ge; lia].
      apply for_each_ext. intros x0 [mgr0 w0].
      destruct (chunkManager_Get mgr0 x0 z0); reflexivity. }
  rewrite (for_each_grid
             (fun x z (st : Chunk.ChunkManager ChunkReader Store * list Packet) =>
                let '(mgr, writer) := st in
                let '(mgr', chunk) := chunkManager_Get mgr x z in
                (mgr', WriteMapChunk writer chunk))).
  rewrite fold_WriteMapChunk.
  destruct (Chunk.GetEach _ _ _ mgr _) as [mgr' cs].
  rewrite <- app_assoc. reflexivity.
Qed.

(** C2 (amended): [postLogin] puts one buffer on the transmit queue, which
    holds, in this order: the spawn-position packet; (2R)^2 = 400 pre-chunk
    packets, for the chunks from [c - R] up to [c + R - 1] in both
    directions around the chunk [c] of the player, row by row (Z outer,
    X inner); (2R)^2 map-chunk packets, the results of one [Get] per chunk in
    the same order; the inventory packet; the position and orientation
    packet.  Position and orientation of the player stay as they are. *)
Theorem postLogin_sequence (fuel : nat) (player : Player)
    (mgr : Chunk.ChunkManager ChunkReader Store) :
  (Z.to_nat (2 * chunkRadius) < fuel)%nat ->
  let window := login_window player in
  let loaded :=
    Chunk.GetEach LoadChunk GetDxz GetOpposite mgr
      ((fun '(x, z) => {| Chunk.X := x; Chunk.Z' := z |}) <$> window) in
  exists player',
    postLogin fuel player mgr = Some (player', fst loaded) /\
    position player' = position player /\
    orientation player' = orientation player /\
    txQueue player'
    = txQueue player
      ++ [[SpawnPosition (position player)]
          ++ ((fun '(x, z) => PreChunk x z true) <$> window)
          ++ (MapChunk <$> snd loaded)
          ++ [PlayerInventory;
              PlayerPositionLook (position player) (orientation player) 0 false]] /\
    length window = Z.to_nat ((2 * chunkRadius) ^ 2) /\
    length (snd loaded) = Z.to_nat ((2 * chunkRadius) ^ 2) /\
    window = (z ← seqZ (snd (player_chunk player) - chunkRadius) (2 * chunkRadius);
              (fun x => (x, z)) <$>
                seqZ (fst (player_chunk player) - chunkRadius) (2 * chunkRadius)).
Proof.
  intros Hfuel window loaded.
  assert (Hlen : length window = Z.to_nat ((2 * chunkRadius) ^ 2))
    by apply (login_window_length player).
  assert (Hloaded_len : length (snd loaded) = Z.to_nat ((2 * chunkRadius) ^ 2)).
  { subst loaded. rewrite Chunk.GetEach_length, length_fmap. exact Hlen. }
  assert (Hwin : window
                 = (z ← seqZ (snd (player_chunk player) - chunkRadius) (2 * chunkRadius);
                    (fun x => (x, z)) <$>
                      seqZ (fst (player_chunk player) - chunkRadius) (2 * chunkRadius)))
    by reflexivity.
  unfold postLogin. rewrite sendChunks_window by exact Hfuel.
  fold window. fold loaded. clearbody loaded. clearbody window.
  destruct loaded as [mgr' cs].
  eexists. split; [reflexivity|].
  split; [reflexivity|]. split; [reflexivity|]. split.
  - unfold WritePlayerPositionLook, WritePlayerInventory, WriteSpawnPosition.
    cbn [txQueue fst snd]. f_equal. f_equal. rewrite <- !app_assoc. reflexivity.
  - split; [exact Hlen|]. split; [exact Hloaded_len|]. exact Hwin.
Qed.

(** *** A second login, and players near the origin *)

(** X18: a second login is served from the chunks the first has loaded.
    After a [postLogin] that has sent no nil chunk, a [postLogin] of a
    player in the same chunk leaves the chunk manager as it is (the store is
    not called, no chunk is linked again) and queues one buffer with the
    same packets, every map-chunk packet carrying the chunk at its
    coordinate. *)
Theorem postLogin_again (fuel : nat) (player1 player2 player1' : Player)
    (mgr mgr1 : Chunk.ChunkManager ChunkReader Store) :
  (Z.to_nat (2 * chunkRadius) < fuel)%nat ->
  player_chunk player2 = player_chunk player1 ->
  postLogin fuel player1 mgr = Some (player1', mgr1) ->
  (forall buf, last (txQueue player1') = Some buf -> MapChunk None ∉ buf) ->
  exists player2',
    postLogin fuel player2 mgr1 = Some (player2', mgr1) /\
    txQueue player2'
    = txQueue player2
      ++ [[SpawnPosition (position player2)]
          ++ ((fun '(x, z) => PreChunk x z true) <$> login_window player2)
          ++ ((fun '(x, z) =>
                 MapChunk (Some (Chunk.ChunkKey {| Chunk.X := x; Chunk.Z' := z |})))
                <$> login_window player2)
          ++ [PlayerInventory;
              PlayerPositionLook (position player2) (orientation player2) 0 false]].
Proof.
  intros Hfuel Hsame Hfirst Hnonil.
  assert (Hwin : login_window player2 = login_window player1).
  { unfold login_window. rewrite Hsame. reflexivity. }
  unfold postLogin in Hfirst |- *.
  rewrite sendChunks_window in Hfirst by exact Hfuel.
  rewrite sendChunks_window by exact Hfuel.
  rewrite Hwin. clear Hwin Hsame.
  revert Hfirst. generalize (login_window player1). intros window Hfirst.
  set (coords := (fun '(x, z) => {| Chunk.X := x; Chunk.Z' := z |}) <$> window) in *.
  destruct (Chunk.GetEach LoadChunk GetDxz GetOpposite mgr coords)
    as [m cs] eqn:Hget.
  inversion Hfirst; subst mgr1 player1'. clear Hfirst.
  cbn [txQueue] in Hnonil. specialize (Hnonil _ (last_snoc _ _)).
  assert (Hcs : None ∉ cs).
  { intros Hin. apply Hnonil.
    unfold WritePlayerPositionLook, WritePlayerInventory, WriteSpawnPosition.
    apply elem_of_app. left. apply elem_of_app. left.
    apply elem_of_cons. right. apply elem_of_app. right.
    apply (list_elem_of_fmap_2 MapChunk). exact Hin. }
  rewrite (Chunk.GetEach_all_hits _ _ LoadChunk GetDxz GetOpposite coords m).
  2:{ intros l Hl.
      replace m with (fst (Chunk.GetEach LoadChunk GetDxz GetOpposite mgr coords))
        by (rewrite Hget; reflexivity).
      apply Chunk.GetEach_loaded; [rewrite Hget; exact Hcs | exact Hl]. }
  eexists. split; [reflexivity|].
  cbn [txQueue]. do 2 f_equal.
  unfold WritePlayerPositionLook, WritePlayerInventory, WriteSpawnPosition.
  rewrite <- !app_assoc. cbn [app]. do 2 f_equal.
  subst coords. rewrite <- !list_fmap_compose.
  f_equal. apply list_fmap_ext. intros i [x0 z0] _. reflexivity.
Qed.

Lemma quot_bound (n d k : Z) :
  0 < d -> - (k * d) < n < k * d -> - k < Z.quot n d < k.
Proof.
  intros Hd Hn. destruct (Z_lt_le_dec n 0) as [Hneg | Hpos].
  - replace n with (- - n) by lia. rewrite Z.quot_opp_l by lia.
    rewrite Z.quot_div_nonneg by lia.
    assert (0 <= - n / d) by (apply Z.div_pos; lia).
    assert (- n / d < k) by (apply Z.div_lt_upper_bound; lia).
    lia.
  - rewrite Z.quot_div_nonneg by lia.
    assert (0 <= n / d) by (apply Z.div_pos; lia).
    assert (n / d < k) by (apply Z.div_lt_upper_bound; lia).
    lia.
Qed.

(** X19: both the conversion to [int32] and the division by the chunk size
    round toward zero, so every position with X and Z strictly between -16
    and 16, two chunks wide, counts as chunk (0, 0): a player at
    (-0.5, -0.5) gets the window of a player at the spawn position. *)
Theorem player_chunk_near_origin (player : Player) :
  (- (16 # 1) < x (position player))%Q /\ (x (position player) < 16 # 1)%Q ->
  (- (16 # 1) < z (position player))%Q /\ (z (position player) < 16 # 1)%Q ->
  player_chunk player = (0, 0) /\
  login_window player
  = (z ← seqZ (- chunkRadius) (2 * chunkRadius);
     (fun x => (x, z)) <$> seqZ (- chunkRadius) (2 * chunkRadius)).
Proof.
  intros [Hx1 Hx2] [Hz1 Hz2].
  assert (Hchunk : forall f : Q,
             (- (16 # 1) < f)%Q -> (f < 16 # 1)%Q ->
             Z.quot (int32_of_float f) 16 = 0).
  { intros [n d] H1 H2. unfold Qlt in H1, H2. cbn in H1, H2.
    unfold int32_of_float. cbn [Qnum Qden].
    pose proof (quot_bound n (Z.pos d) 16 ltac:(lia) ltac:(lia)) as Hq.
    rewrite int32_small by lia.
    pose proof (quot_bound (Z.quot n (Z.pos d)) 16 1 ltac:(lia) ltac:(lia)).
    lia. }
  assert (Hpc : player_chunk player = (0, 0)).
  { unfold player_chunk, ChunkSizeX, ChunkSizeZ.
    rewrite (Hchunk _ Hx1 Hx2), (Hchunk _ Hz1 Hz2). reflexivity. }
  split; [exact Hpc|]. unfold login_window. rewrite Hpc. reflexivity.
Qed.


End Session.

(** C2, as stated, at a concrete input: for a new player at the start
    position, on a store that loads every chunk, the buffer that [postLogin]
    queues holds 400 pre-chunk packets, not (2R+1)^2 = 441. *)
Lemma postLogin_400_pre_chunks :
  match postLogin unit unit Chunk.load_always Chunk.side_offsets Chunk.side_opposite
          100 new_player (Chunk.mkManager tt (∅ : gmap Z (Chunk.Chunk unit)) []) with
  | Some (player', _) =>
      (fun buf => length (List.filter is_PreChunk buf)) <$> txQueue player' = [400%nat]
  | None => False
  end /\ 400 <> (2 * chunkRadius + 1) ^ 2.
Proof. split; [vm_compute; reflexivity | vm_compute; discriminate]. Qed.

Lemma postLogin_sequence_witness :
  exists player',
    fst <$> postLogin unit unit Chunk.load_always Chunk.side_offsets Chunk.side_opposite
              21 new_player (Chunk.mkManager tt (∅ : gmap Z (Chunk.Chunk unit)) [])
    = Some player' /\
    position player' = StartPosition.
Proof.
  destruct (postLogin_sequence unit unit Chunk.load_always Chunk.side_offsets
              Chunk.side_opposite 21 new_player
              (Chunk.mkManager tt (∅ : gmap Z (Chunk.Chunk unit)) []))
    as (player' & Hrun & Hpos & _).
  - unfold chunkRadius. simpl. lia.
  - exists player'. rewrite Hrun. split; [reflexivity | exact Hpos].
Defined.

(** C8, as stated, at a concrete input: a position packet and a look packet
    with values in range leave the stored position and orientation of a new
    player as they were, not at the values received. *)
Lemma position_look_not_stored :
  let received := {| x := 1; y := 2; z := 3 |} in
  let look := {| rotation := 90; pitch := 45 |} in
  position (fst (PacketPlayerPosition new_player received 2 false)) <> received /\
  orientation (fst (PacketPlayerLook new_player look false)) <> look.
Proof. split; intros H; inversion H. Qed.

(** C8 (amended): for every inbound position packet and every inbound look
    packet, the handler logs the values received and leaves the player
    session as it was: the stored position and orientation are not updated,
    and no yaw or pitch is clamped. *)
Theorem position_look_handlers_log_only (player : Player) (received : XYZ)
    (stance : Q) (look : Orientation) (flying : bool) :
  PacketPlayerPosition player received stance flying
  = (player, LogPacketPlayerPosition received stance flying) /\
  PacketPlayerLook player look flying = (player, LogPacketPlayerLook look flying) /\
  position (fst (PacketPlayerPosition player received stance flying))
  = position player /\
  orientation (fst (PacketPlayerPosition player received stance flying))
  = orientation player /\
  position (fst (PacketPlayerLook player look flying)) = position player /\
  orientation (fst (PacketPlayerLook player look flying)) = orientation player.
Proof. repeat split. Qed.

(** Whether a packet is a map-chunk packet for a nil chunk. *)
Definition is_nil_chunk (p : Packet) : bool :=
  match p with MapChunk None => true | _ => false end.

Lemma no_nil_chunk (buf : list Packet) :
  existsb is_nil_chunk buf = false -> MapChunk None ∉ buf.
Proof.
  intros Hnone Hin. apply list_elem_of_In in Hin.
  assert (H : existsb is_nil_chunk buf = true).
  { apply existsb_exists. exists (MapChunk None). split; [exact Hin | reflexivity]. }
  congruence.
Qed.

Lemma postLogin_again_witness :
  let login :=
    postLogin unit unit Chunk.load_always Chunk.side_offsets Chunk.side_opposite 21 in
  let mgr := Chunk.mkManager tt (∅ : gmap Z (Chunk.Chunk unit)) [] in
  let loaded :=
    Chunk.GetEach Chunk.load_always Chunk.side_offsets Chunk.side_opposite mgr
      ((fun '(x, z) => {| Chunk.X := x; Chunk.Z' := z |}) <$> login_window new_player) in
  exists player2', login new_player (fst loaded) = Some (player2', fst loaded).
Proof.
  intros login mgr loaded.
  pose (buf := [SpawnPosition StartPosition]
               ++ ((fun '(x, z) => PreChunk x z true) <$> login_window new_player)
               ++ (MapChunk <$> snd loaded)
               ++ [PlayerInventory;
                   PlayerPositionLook StartPosition {| rotation := 0; pitch := 0 |}
                     0 false]).
  pose (player1' := {| position := StartPosition;
                       orientation := {| rotation := 0; pitch := 0 |};
                       txQueue := [buf] |}).
  destruct (postLogin_again unit unit Chunk.load_always Chunk.side_offsets
              Chunk.side_opposite 21 new_player new_player player1' mgr (fst loaded))
    as (player2' & Hrun & _).
  - unfold chunkRadius. simpl. lia.
  - reflexivity.
  - vm_compute. reflexivity.
  - intros b Hlast. injection Hlast as <-. apply no_nil_chunk.
    vm_compute. reflexivity.
  - exists player2'. exact Hrun.
Defined.

Lemma player_chunk_near_origin_witness :
  player_chunk {| position := {| x := - (1 # 2); y := 65 # 1; z := - (1 # 2) |};
                  orientation := {| rotation := 0; pitch := 0 |};
                  txQueue := [] |}
  = (0, 0).
Proof.
  apply (player_chunk_near_origin
           {| position := {| x := - (1 # 2); y := 65 # 1; z := - (1 # 2) |};
              orientation := {| rotation := 0; pitch := 0 |};
              txQueue := [] |}).
  - split; reflexivity.
  - split; reflexivity.
Defined.

End Main.

(** ** package proto: the packet serializer *)

Module Proto.

(** *** Bytes and byte order (encoding/binary) *)

Definition byte_to_Z (b : byte) : Z := Z.of_N (Byte.to_N b).

(** The conversion [byte(z)]: the low eight bits. *)
Definition byte_of_Z (z : Z) : byte :=
  match Byte.of_N (Z.to_N (z mod 256)) with
  | Some b => b
  | None => Byte.x00
  end.

(** [binary.BigEndian.Uint16], [Uint32], [Uint64] on a slice of 2, 4, 8
    bytes: the most significant byte comes first. *)
Definition BigEndian_Uint (bs : list byte) : Z :=
  fold_left (fun acc b => acc * 256 + byte_to_Z b) bs 0.

(** [binary.BigEndian.PutUint16], [PutUint32], [PutUint64]: the [n] bytes
    of [z], the most significant first. *)
Fixpoint BigEndian_PutUint (n : nat) (z : Z) : list byte :=
  match n with
  | O => []
  | Datatypes.S n' => BigEndian_PutUint n' (z / 256) ++ [byte_of_Z z]
  end.

(** *** Floating-point conversions

    A [float32] or [float64] value is kept as its IEEE-754 bit pattern, so
    that [math.Float32bits], [math.Float32frombits] and their 64-bit
    counterparts are the identity.  The conversions [float64(f)] and
    [float32(f)] act on bit patterns as the hardware does: widening is
    exact, narrowing rounds to the nearest value (ties to even), and a NaN
    keeps its sign and the top of its payload and comes out quiet. *)

Definition round_half_even (sig shift : Z) : Z :=
  let q := sig / 2 ^ shift in
  let r := sig mod 2 ^ shift in
  let half := 2 ^ (shift - 1) in
  if r >? half then q + 1
  else if r =? half then (if Z.even q then q else q + 1)
  else q.

(** [float64(f)] for [f] a [float32]. *)
Definition float64_of_float32 (b : Z) : Z :=
  let s := b / 2 ^ 31 in
  let e := (b / 2 ^ 23) mod 2 ^ 8 in
  let m := b mod 2 ^ 23 in
  if e =? 255 then
    if m =? 0 then s * 2 ^ 63 + 2047 * 2 ^ 52
    else s * 2 ^ 63 + 2047 * 2 ^ 52
         + (if m <? 2 ^ 22 then m + 2 ^ 22 else m) * 2 ^ 29
  else if e =? 0 then
    if m =? 0 then s * 2 ^ 63
    else
      let k := Z.log2 m in
      s * 2 ^ 63 + (k + 874) * 2 ^ 52 + (m - 2 ^ k) * 2 ^ (52 - k)
  else s * 2 ^ 63 + (e + 896) * 2 ^ 52 + m * 2 ^ 29.

(** [float32(f)] for [f] a [float64]. *)
Definition float32_of_float64 (b : Z) : Z :=
  let s := b / 2 ^ 63 in
  let e := (b / 2 ^ 52) mod 2 ^ 11 in
  let m := b mod 2 ^ 52 in
  if e =? 2047 then
    if m =? 0 then s * 2 ^ 31 + 255 * 2 ^ 23
    else s * 2 ^ 31 + 255 * 2 ^ 23
         + (if m / 2 ^ 29 <? 2 ^ 22 then m / 2 ^ 29 + 2 ^ 22 else m / 2 ^ 29)
  else if e =? 0 then s * 2 ^ 31
  else
    let sig := 2 ^ 52 + m in
    let mag :=
      if e >=? 897 then (e - 897) * 2 ^ 23 + round_half_even sig 29
      else round_half_even sig (926 - e) in
    if mag >=? 255 * 2 ^ 23 then s * 2 ^ 31 + 255 * 2 ^ 23
    else s * 2 ^ 31 + mag.

(** A signalling NaN of [float32]: exponent all ones, payload not zero,
    top payload bit clear. *)
Definition float32_signalling (b : Z) : bool :=
  ((b / 2 ^ 23) mod 2 ^ 8 =? 255) && negb (b mod 2 ^ 23 =? 0)
  && (b mod 2 ^ 23 <? 2 ^ 22).

(** *** Errors, readers and writers *)

(** The error values of the package, the errors of package io that the
    serializer passes on, and [Panic] for a run-time panic. *)
Inductive Error : Type :=
| ErrorPacketNotPtr
| ErrorPacketNil
| ErrorLengthNegative
| ErrorStrTooLong
| ErrorBadPacketData
| ErrorBadChunkDataSize
| ErrorMismatchingValues
| ErrorInternal
| EOF
| ErrUnexpectedEOF
| ErrShortWrite
| Panic.

(** An [io.Reader] over a stream that ends: the bytes not yet read. *)
Definition Reader : Type := list byte.

(** [io.ReadFull(reader, buf[0:n])]: the reader after the call, and the
    bytes read or the error.  A short stream is read to its end. *)
Definition ReadFull (reader : Reader) (n : nat) : Reader * (list byte + Error) :=
  match n with
  | O => (reader, inl [])
  | _ =>
      match reader with
      | [] => ([], inr EOF)
      | _ =>
          if (length reader <? n)%nat then ([], inr ErrUnexpectedEOF)
          else (drop n reader, inl (take n reader))
      end
  end.

(** An [io.Writer]: the bytes written so far, and how many more it takes
    ([None]: any number, as a [bytes.Buffer] does). *)
Record Writer : Type := mkWriter {
  written : list byte;
  room : option nat
}.

(** [writer.Write(bs)] *)
Definition Write (writer : Writer) (bs : list byte) : Writer * option Error :=
  match room writer with
  | None => ({| written := written writer ++ bs; room := None |}, None)
  | Some r =>
      if (length bs <=? r)%nat
      then ({| written := written writer ++ bs; room := Some (r - length bs)%nat |},
            None)
      else ({| written := written writer ++ take r bs; room := Some O |},
            Some ErrShortWrite)
  end.

(** A fresh [bytes.Buffer]. *)
Definition new_Buffer : Writer := {| written := []; room := None |}.

(** *** Strings on the wire

    Modelled from the spec: [encodeUtf8] and [decodeUtf8] belong to the
    package but are not among the sources at hand.  On read, the 16-bit code
    units are reassembled into code points (surrogate pairs honoured) and
    encoded as UTF-8; on write, the UTF-8 bytes are decoded to code points
    and each is emitted as one or two code units.  Ill-formed input yields
    U+FFFD, as Go's [unicode/utf8] and [unicode/utf16] do. *)

Definition RuneError : Z := 0xFFFD.

Definition is_continuation (c : Z) : bool := (0x80 <=? c) && (c <=? 0xBF).

(** The code points of a UTF-8 string. *)
Fixpoint utf8_decode (s : list byte) : list Z :=
  match s with
  | [] => []
  | b0 :: t0 =>
      let c0 := byte_to_Z b0 in
      if c0 <? 0x80 then c0 :: utf8_decode t0
      else
        match t0 with
        | [] => RuneError :: utf8_decode t0
        | b1 :: t1 =>
            let c1 := byte_to_Z b1 in
            if (0xC2 <=? c0) && (c0 <=? 0xDF) then
              if is_continuation c1
              then ((c0 - 0xC0) * 64 + (c1 - 0x80)) :: utf8_decode t1
              else RuneError :: utf8_decode t0
            else
              match t1 with
              | [] => RuneError :: utf8_decode t0
              | b2 :: t2 =>
                  let c2 := byte_to_Z b2 in
                  if (0xE0 <=? c0) && (c0 <=? 0xEF) then
                    if ((if c0 =? 0xE0 then 0xA0 else 0x80) <=? c1)
                       && (c1 <=? (if c0 =? 0xED then 0x9F else 0xBF))
                       && is_continuation c2
                    then ((c0 - 0xE0) * 4096 + (c1 - 0x80) * 64 + (c2 - 0x80))
                           :: utf8_decode t2
                    else RuneError :: utf8_decode t0
                  else
                    match t2 with
                    | [] => RuneError :: utf8_decode t0
                    | b3 :: t3 =>
                        let c3 := byte_to_Z b3 in
                        if (0xF0 <=? c0) && (c0 <=? 0xF4)
                           && ((if c0 =? 0xF0 then 0x90 else 0x80) <=? c1)
                           && (c1 <=? (if c0 =? 0xF4 then 0x8F else 0xBF))
                           && is_continuation c2 && is_continuation c3
                        then ((c0 - 0xF0) * 262144 + (c1 - 0x80) * 4096
                              + (c2 - 0x80) * 64 + (c3 - 0x80)) :: utf8_decode t3
                        else RuneError :: utf8_decode t0
                    end
              end
        end
  end.

(** The UTF-8 bytes of one code point. *)
Definition utf8_encode_rune (r : Z) : list byte :=
  if (r <? 0) || (0x10FFFF <? r) || ((0xD800 <=? r) && (r <=? 0xDFFF))
  then [byte_of_Z 0xEF; byte_of_Z 0xBF; byte_of_Z 0xBD]
  else if r <? 0x80 then [byte_of_Z r]
  else if r <? 0x800 then [byte_of_Z (0xC0 + r / 64); byte_of_Z (0x80 + r mod 64)]
  else if r <? 0x10000 then
    [byte_of_Z (0xE0 + r / 4096); byte_of_Z (0x80 + (r / 64) mod 64);
     byte_of_Z (0x80 + r mod 64)]
  else
    [byte_of_Z (0xF0 + r / 262144); byte_of_Z (0x80 + (r / 4096) mod 64);
     byte_of_Z (0x80 + (r / 64) mod 64); byte_of_Z (0x80 + r mod 64)].

(** The one or two 16-bit code units of one code point. *)
Definition utf16_encode_rune (r : Z) : list Z :=
  if r <? 0x10000 then [r]
  else [0xD800 + (r - 0x10000) / 1024; 0xDC00 + (r - 0x10000) mod 1024].

(** The code points of a sequence of 16-bit code units. *)
Fixpoint utf16_decode (units : list Z) : list Z :=
  match units with
  | [] => []
  | u :: rest =>
      if (0xD800 <=? u) && (u <? 0xDC00) then
        match rest with
        | u' :: rest' =>
            if (0xDC00 <=? u') && (u' <? 0xE000)
            then (0x10000 + (u - 0xD800) * 1024 + (u' - 0xDC00)) :: utf16_decode rest'
            else RuneError :: utf16_decode rest
        | [] => RuneError :: utf16_decode rest
        end
      else if (0xDC00 <=? u) && (u <? 0xE000) then RuneError :: utf16_decode rest
      else u :: utf16_decode rest
  end.

(** [func encodeUtf8(codepoints []uint16) string] *)
Definition encodeUtf8 (codepoints : list Z) : list byte :=
  utf16_decode codepoints ≫= utf8_encode_rune.

(** [func decodeUtf8(s string) []uint16] *)
Definition decodeUtf8 (s : list byte) : list Z :=
  utf8_decode s ≫= utf16_encode_rune.

(** [binary.Read] and [binary.Write] of a [[]uint16] in big-endian order:
    the slice from its bytes, and the bytes of the slice. *)
Fixpoint uint16s_of_bytes (bs : list byte) : list Z :=
  match bs with
  | hi :: lo :: rest => BigEndian_Uint [hi; lo] :: uint16s_of_bytes rest
  | _ => []
  end.

Definition bytes_of_uint16s (us : list Z) : list byte :=
  us ≫= BigEndian_PutUint 2.

(** *** Values

    A [reflect.Value] by its kind.  A string is its UTF-8 bytes; integers
    are kept within the range of their type ([well_typed]).  A struct or
    slice whose pointer type implements [IMarshaler] is a [VMarshaler]: the
    two methods and the contents they act on, kept as bytes. *)

Record IMarshaler : Type := mkIMarshaler {
  MinecraftUnmarshal : Reader -> list byte -> Reader * list byte * option Error;
  MinecraftMarshal : Writer -> list byte -> Writer * option Error
}.

#[local] Unset Elimination Schemes.

Inductive Value : Type :=
| VBool (b : bool)
| VInt8 (i : Z)
| VInt16 (i : Z)
| VInt32 (i : Z)
| VInt64 (i : Z)
| VUint8 (u : Z)
| VUint16 (u : Z)
| VUint32 (u : Z)
| VUint64 (u : Z)
| VFloat32 (bits : Z)
| VFloat64 (bits : Z)
| VString (s : list byte)
| VStruct (fields : list Value)
| VSlice (elems : list Value)
| VMarshaler (m : IMarshaler) (contents : list byte)
| VOther.

(** The type of a value ([value.Type()]), as far as the serializer tells
    types apart. *)
Inductive Typ : Type :=
| TBool | TInt8 | TInt16 | TInt32 | TInt64
| TUint8 | TUint16 | TUint32 | TUint64
| TFloat32 | TFloat64 | TString
| TStruct (fields : list Typ)
| TSlice | TMarshaler | TOther.

#[local] Set Elimination Schemes.

Fixpoint TypeOf (value : Value) : Typ :=
  match value with
  | VBool _ => TBool
  | VInt8 _ => TInt8
  | VInt16 _ => TInt16
  | VInt32 _ => TInt32
  | VInt64 _ => TInt64
  | VUint8 _ => TUint8
  | VUint16 _ => TUint16
  | VUint32 _ => TUint32
  | VUint64 _ => TUint64
  | VFloat32 _ => TFloat32
  | VFloat64 _ => TFloat64
  | VString _ => TString
  | VStruct fields => TStruct (map TypeOf fields)
  | VSlice _ => TSlice
  | VMarshaler _ _ => TMarshaler
  | VOther => TOther
  end.

(** What [interface{}] arguments the serializer is called with: a pointer,
    nil or to a value, or a value that is not a pointer. *)
Inductive Packet : Type :=
| PacketPtr (target : option Value)
| PacketValue (value : Value).

(** [const math.MaxInt16] *)
Definition MaxInt16 : Z := 32767.

(** The loop over the fields of a struct in [readData]. *)
Definition readFields (readData : Reader -> Value -> Reader * Value * option Error)
    : Reader -> list Value -> Reader * list Value * option Error :=
  fix loop (reader : Reader) (fields : list Value) :=
    match fields with
    | [] => (reader, [], None)
    | field :: rest =>
        match readData reader field with
        | (reader', field', Some err) => (reader', field' :: rest, Some err)
        | (reader', field', None) =>
            let '(reader'', rest', err) := loop reader' rest in
            (reader'', field' :: rest', err)
        end
    end.

(** Reading a scalar of [n] bytes: [io.ReadFull] into the scratch space,
    then the setter [set] on the bytes read. *)
Definition readScalar (reader : Reader) (value : Value) (n : nat)
    (set : list byte -> Value) : Reader * Value * option Error :=
  match ReadFull reader n with
  | (reader', inr err) => (reader', value, Some err)
  | (reader', inl scratch) => (reader', set scratch, None)
  end.

(** [func (ps *PacketSerializer) readData(reader io.Reader, value reflect.Value) (err os.Error)]:
    the reader and the value after the call, and the error.  [SetInt],
    [SetUint] and [SetFloat] convert to the type of the field. *)
Fixpoint readData (reader : Reader) (value : Value) {struct value}
    : Reader * Value * option Error :=
  match value with
  | VStruct fields =>
      let '(reader', fields', err) := readFields readData reader fields in
      (reader', VStruct fields', err)
  | VMarshaler m contents =>
      let '(reader', contents', err) := MinecraftUnmarshal m reader contents in
      (reader', VMarshaler m contents', err)
  | VSlice _ => (reader, value, Some ErrorInternal)
  | VBool _ =>
      readScalar reader value 1
        (fun scratch => VBool (negb (BigEndian_Uint scratch =? 0)))
  | VInt8 _ =>
      readScalar reader value 1
        (fun scratch => VInt8 (wrap_signed 8 (wrap_signed 64 (BigEndian_Uint scratch))))
  | VInt16 _ =>
      readScalar reader value 2
        (fun scratch => VInt16 (wrap_signed 16 (wrap_signed 64 (BigEndian_Uint scratch))))
  | VInt32 _ =>
      readScalar reader value 4
        (fun scratch => VInt32 (wrap_signed 32 (wrap_signed 64 (BigEndian_Uint scratch))))
  | VInt64 _ =>
      readScalar reader value 8
        (fun scratch => VInt64 (wrap_signed 64 (BigEndian_Uint scratch)))
  | VUint8 _ =>
      readScalar reader value 1
        (fun scratch => VUint8 (wrap_unsigned 8 (wrap_unsigned 64 (BigEndian_Uint scratch))))
  | VUint16 _ =>
      readScalar reader value 2
        (fun scratch => VUint16 (wrap_unsigned 16 (wrap_unsigned 64 (BigEndian_Uint scratch))))
  | VUint32 _ =>
      readScalar reader value 4
        (fun scratch => VUint32 (wrap_unsigned 32 (wrap_unsigned 64 (BigEndian_Uint scratch))))
  | VUint64 _ =>
      readScalar reader value 8
        (fun scratch => VUint64 (wrap_unsigned 64 (BigEndian_Uint scratch)))
  | VFloat32 _ =>
      readScalar reader value 4
        (fun scratch =>
           VFloat32 (float32_of_float64 (float64_of_float32 (BigEndian_Uint scratch))))
  | VFloat64 _ =>
      readScalar reader value 8 (fun scratch => VFloat64 (BigEndian_Uint scratch))
  | VString _ =>
      match ReadFull reader 2 with
      | (reader', inr err) => (reader', value, Some err)
      | (reader', inl scratch) =>
          let length := wrap_signed 16 (BigEndian_Uint scratch) in
          if length <? 0 then (reader', value, Some ErrorLengthNegative)
          else
            match ReadFull reader' (2 * Z.to_nat length) with
            | (reader'', inr err) => (reader'', value, Some err)
            | (reader'', inl data) =>
                let codepoints := uint16s_of_bytes data in
                (reader'', VString (encodeUtf8 codepoints), None)
            end
      end
  | VOther => (reader, value, Some ErrorInternal)
  end.

(** [func (ps *PacketSerializer) ReadPacket(reader io.Reader, packet interface{}) (err os.Error)] *)
Definition ReadPacket (reader : Reader) (packet : Packet)
    : Reader * Packet * option Error :=
  match packet with
  | PacketValue _ => (reader, packet, Some ErrorPacketNotPtr)
  | PacketPtr None => (reader, packet, Some ErrorPacketNil)
  | PacketPtr (Some value) =>
      let '(reader', value', err) := readData reader value in
      (reader', PacketPtr (Some value'), err)
  end.

(** The loop over the fields of a struct in [writeData]. *)
Definition writeFields (writeData : Writer -> Value -> Writer * option Error)
    : Writer -> list Value -> Writer * option Error :=
  fix loop (writer : Writer) (fields : list Value) :=
    match fields with
    | [] => (writer, None)
    | field :: rest =>
        match writeData writer field with
        | (writer', Some err) => (writer', Some err)
        | (writer', None) => loop writer' rest
        end
    end.

(** [func (ps *PacketSerializer) writeData(writer io.Writer, value reflect.Value) (err os.Error)].
    [value.Addr()] panics on a value that cannot be addressed: a struct or
    slice passed to [WritePacket] by value. *)
Fixpoint writeData (addressable : bool) (writer : Writer) (value : Value)
    {struct value} : Writer * option Error :=
  match value with
  | VStruct fields =>
      if addressable then writeFields (writeData true) writer fields
      else (writer, Some Panic)
  | VMarshaler m contents =>
      if addressable then MinecraftMarshal m writer contents
      else (writer, Some Panic)
  | VSlice _ =>
      if addressable then (writer, Some ErrorInternal) else (writer, Some Panic)
  | VBool b => Write writer [if b then byte_of_Z 1 else byte_of_Z 0]
  | VInt8 i => Write writer [byte_of_Z i]
  | VInt16 i => Write writer (BigEndian_PutUint 2 (wrap_unsigned 16 i))
  | VInt32 i => Write writer (BigEndian_PutUint 4 (wrap_unsigned 32 i))
  | VInt64 i => Write writer (BigEndian_PutUint 8 (wrap_unsigned 64 i))
  | VUint8 u => Write writer [byte_of_Z u]
  | VUint16 u => Write writer (BigEndian_PutUint 2 (wrap_unsigned 16 u))
  | VUint32 u => Write writer (BigEndian_PutUint 4 (wrap_unsigned 32 u))
  | VUint64 u => Write writer (BigEndian_PutUint 8 u)
  | VFloat32 bits =>
      Write writer
        (BigEndian_PutUint 4 (float32_of_float64 (float64_of_float32 bits)))
  | VFloat64 bits => Write writer (BigEndian_PutUint 8 bits)
  | VString s =>
      let lengthInt := Z.of_nat (length s) in
      if lengthInt >? MaxInt16 then (writer, Some ErrorStrTooLong)
      else
        match Write writer (BigEndian_PutUint 2 (wrap_unsigned 16 lengthInt)) with
        | (writer', Some err) => (writer', Some err)
        | (writer', None) =>
            let codepoints := decodeUtf8 s in
            Write writer' (bytes_of_uint16s codepoints)
        end
  | VOther => (writer, Some ErrorInternal)
  end.

(** [func (ps *PacketSerializer) WritePacket(writer io.Writer, packet interface{}) (err os.Error)].
    [reflect.Indirect] of a nil pointer is the zero [Value], on which
    [value.Type()] panics in the default case. *)
Definition WritePacket (writer : Writer) (packet : Packet) : Writer * option Error :=
  match packet with
  | PacketPtr (Some value) => writeData true writer value
  | PacketPtr None => (writer, Some Panic)
  | PacketValue value => writeData false writer value
  end.

(** *** The vocabulary of the round-trip statements *)

(** A string of ASCII characters only. *)
Definition ascii (s : list byte) : Prop := Forall (fun b => byte_to_Z b < 0x80) s.

(** The values the round trip is about: built from the supported kinds,
    every integer within its type, no [float32] a signalling NaN, every
    string of at most [MaxInt16] bytes, all of them ASCII. *)
Fixpoint legal (value : Value) : Prop :=
  match value with
  | VBool _ => True
  | VInt8 i => - 2 ^ 7 <= i < 2 ^ 7
  | VInt16 i => - 2 ^ 15 <= i < 2 ^ 15
  | VInt32 i => - 2 ^ 31 <= i < 2 ^ 31
  | VInt64 i => - 2 ^ 63 <= i < 2 ^ 63
  | VUint8 u => 0 <= u < 2 ^ 8
  | VUint16 u => 0 <= u < 2 ^ 16
  | VUint32 u => 0 <= u < 2 ^ 32
  | VUint64 u => 0 <= u < 2 ^ 64
  | VFloat32 bits => 0 <= bits < 2 ^ 32 /\ float32_signalling bits = false
  | VFloat64 bits => 0 <= bits < 2 ^ 64
  | VString s => ascii s /\ Z.of_nat (length s) <= MaxInt16
  | VStruct fields =>
      (fix all (fields : list Value) : Prop :=
         match fields with
         | [] => True
         | field :: rest => legal field /\ all rest
         end) fields
  | VSlice _ | VMarshaler _ _ | VOther => False
  end.

(** The values of the types the serializer handles by itself: built from
    bool, the fixed-width integers, the floats, strings and structs. *)
Fixpoint supported (value : Value) : Prop :=
  match value with
  | VStruct fields =>
      (fix all (fields : list Value) : Prop :=
         match fields with
         | [] => True
         | field :: rest => supported field /\ all rest
         end) fields
  | VSlice _ | VMarshaler _ _ | VOther => False
  | _ => True
  end.

(** The streams that come back bit for bit, for a target to read into: at
    the place of a bool field stands 0 or 1, at the place of a [float32]
    field no signalling NaN, and the code units of a string field are all
    below 0x80.  The place of a field is where [readData] has got to. *)
Fixpoint canonical (reader : Reader) (value : Value) {struct value} : Prop :=
  match value with
  | VBool _ =>
      match reader with
      | b :: _ => byte_to_Z b <= 1
      | [] => True
      end
  | VFloat32 _ => float32_signalling (BigEndian_Uint (take 4 reader)) = false
  | VString _ =>
      let length := wrap_signed 16 (BigEndian_Uint (take 2 reader)) in
      Forall (fun u => u < 0x80)
        (uint16s_of_bytes (take (2 * Z.to_nat length) (drop 2 reader)))
  | VStruct fields =>
      (fix all (reader : Reader) (fields : list Value) : Prop :=
         match fields with
         | [] => True
         | field :: rest =>
             canonical reader field /\ all (fst (fst (readData reader field))) rest
         end) reader fields
  | _ => True
  end.

(** What writing a legal value to a buffer and reading the bytes back
    comes to. *)
Definition writes_and_reads_back (value : Value) : Prop :=
  exists bytes : list byte,
    (forall out,
        writeData true {| written := out; room := None |} value
        = ({| written := out ++ bytes; room := None |}, None)) /\
    (forall target rest,
        TypeOf target = TypeOf value ->
        readData (bytes ++ rest) target = (rest, value, None)).

(** What reading into a target and writing the value read comes to. *)
Definition reads_and_writes_back (target : Value) : Prop :=
  forall (reader reader' : Reader) (value : Value),
    canonical reader target ->
    readData reader target = (reader', value, None) ->
    exists bytes : list byte,
      reader = bytes ++ reader' /\
      forall out,
        writeData true {| written := out; room := None |} value
        = ({| written := out ++ bytes; room := None |}, None).

(** The number of bytes a value takes on the wire, for the values whose
    type fixes it: bool, the integers, the floats, and structs of such.
    [None] for a string, whose length is on the wire, and for the kinds the
    serializer does not handle by itself. *)
Fixpoint wire_size (value : Value) : option nat :=
  match value with
  | VBool _ | VInt8 _ | VUint8 _ => Some 1%nat
  | VInt16 _ | VUint16 _ => Some 2%nat
  | VInt32 _ | VUint32 _ | VFloat32 _ => Some 4%nat
  | VInt64 _ | VUint64 _ | VFloat64 _ => Some 8%nat
  | VStruct fields =>
      (fix total (fields : list Value) : option nat :=
         match fields with
         | [] => Some O
         | field :: rest =>
             match wire_size field, total rest with
             | Some a, Some b => Some (a + b)%nat
             | _, _ => None
             end
         end) fields
  | VString _ | VSlice _ | VMarshaler _ _ | VOther => None
  end.


(** *** Bytes and byte order: lemmas *)

Lemma byte_to_Z_range (b : byte) : 0 <= byte_to_Z b < 256.
Proof.
  unfold byte_to_Z. pose proof (Byte.to_N_bounded b). lia.
Qed.

Lemma byte_of_to_Z (b : byte) : byte_of_Z (byte_to_Z b) = b.
Proof.
  unfold byte_of_Z. rewrite Z.mod_small by apply byte_to_Z_range.
  unfold byte_to_Z. rewrite N2Z.id, Byte.of_to_N. reflexivity.
Qed.

Lemma byte_to_of_Z (z : Z) : byte_to_Z (byte_of_Z z) = z mod 256.
Proof.
  unfold byte_of_Z, byte_to_Z.
  pose proof (Z.mod_pos_bound z 256 eq_refl) as Hz.
  destruct (Byte.of_N (Z.to_N (z mod 256))) as [b|] eqn:E.
  - apply Byte.to_of_N in E. rewrite E. lia.
  - apply Byte.of_N_None_iff in E. lia.
Qed.

Lemma BigEndian_Uint_snoc (bs : list byte) (b : byte) :
  BigEndian_Uint (bs ++ [b]) = BigEndian_Uint bs * 256 + byte_to_Z b.
Proof. unfold BigEndian_Uint. rewrite fold_left_app. reflexivity. Qed.

Lemma BigEndian_PutUint_length (n : nat) :
  forall z, length (BigEndian_PutUint n z) = n.
Proof.
  induction n as [|n IH]; intros z; simpl; [reflexivity|].
  rewrite length_app, IH. simpl. lia.
Qed.

Lemma BigEndian_Uint_PutUint (n : nat) :
  forall z, BigEndian_Uint (BigEndian_PutUint n z) = z mod 256 ^ Z.of_nat n.
Proof.
  induction n as [|n IH]; intros z.
  - simpl. rewrite Z.mod_1_r. reflexivity.
  - cbn [BigEndian_PutUint]. rewrite BigEndian_Uint_snoc, IH, byte_to_of_Z.
    rewrite Nat2Z.inj_succ, Z.pow_succ_r by lia.
    assert (0 < 256 ^ Z.of_nat n) by (apply Z.pow_pos_nonneg; lia).
    rewrite (Z.rem_mul_r z 256 (256 ^ Z.of_nat n)) by lia. lia.
Qed.

Lemma BigEndian_Uint_range (bs : list byte) :
  0 <= BigEndian_Uint bs < 256 ^ Z.of_nat (length bs).
Proof.
  induction bs as [|b bs IH] using rev_ind.
  - simpl. unfold BigEndian_Uint. simpl. lia.
  - rewrite BigEndian_Uint_snoc, length_app. simpl length.
    replace (Z.of_nat (length bs + 1)) with (Z.succ (Z.of_nat (length bs))) by lia.
    rewrite Z.pow_succ_r by lia.
    pose proof (byte_to_Z_range b). lia.
Qed.

Lemma BigEndian_PutUint_Uint (bs : list byte) :
  BigEndian_PutUint (length bs) (BigEndian_Uint bs) = bs.
Proof.
  induction bs as [|b bs IH] using rev_ind; [reflexivity|].
  rewrite length_app. simpl length.
  replace (length bs + 1)%nat with (Datatypes.S (length bs)) by lia.
  cbn [BigEndian_PutUint]. rewrite BigEndian_Uint_snoc.
  pose proof (byte_to_Z_range b) as Hb.
  replace ((BigEndian_Uint bs * 256 + byte_to_Z b) / 256) with (BigEndian_Uint bs).
  2:{ apply (Z.div_unique _ _ _ (byte_to_Z b)); lia. }
  rewrite IH. f_equal. f_equal.
  rewrite <- (byte_of_to_Z b) at 2.
  unfold byte_of_Z. rewrite Z.add_comm, Z_mod_plus_full. reflexivity.
Qed.

(** *** Fixed-width conversions: lemmas *)

Lemma wrap_signed_unsigned (w i : Z) :
  0 < w -> - 2 ^ (w - 1) <= i < 2 ^ (w - 1) ->
  wrap_signed w (wrap_unsigned w i) = i.
Proof.
  intros Hw Hi. unfold wrap_signed, wrap_unsigned.
  assert (0 < 2 ^ w) by (apply Z.pow_pos_nonneg; lia).
  rewrite Zplus_mod_idemp_l.
  rewrite Z.mod_small; [lia|]. rewrite (pow2_split w Hw). lia.
Qed.

Lemma wrap_unsigned_signed (w u : Z) :
  0 < w -> 0 <= u < 2 ^ w -> wrap_unsigned w (wrap_signed w u) = u.
Proof.
  intros Hw Hu. unfold wrap_unsigned.
  rewrite wrap_signed_congr by exact Hw. apply Z.mod_small. exact Hu.
Qed.

(** *** Floating-point conversions: lemmas *)

Lemma float32_fields (b : Z) :
  0 <= b < 2 ^ 32 ->
  b = (b / 2 ^ 31) * 2 ^ 31 + ((b / 2 ^ 23) mod 2 ^ 8) * 2 ^ 23 + b mod 2 ^ 23 /\
  0 <= b / 2 ^ 31 <= 1 /\
  0 <= (b / 2 ^ 23) mod 2 ^ 8 < 2 ^ 8 /\
  0 <= b mod 2 ^ 23 < 2 ^ 23.
Proof.
  intros Hb.
  pose proof (Z.div_mod b (2 ^ 23) ltac:(lia)) as H1.
  pose proof (Z.div_mod (b / 2 ^ 23) (2 ^ 8) ltac:(lia)) as H2.
  rewrite Z.div_div in H2 by lia. change (2 ^ 23 * 2 ^ 8) with (2 ^ 31) in H2.
  pose proof (Z.mod_pos_bound b (2 ^ 23) ltac:(lia)) as H3.
  pose proof (Z.mod_pos_bound (b / 2 ^ 23) (2 ^ 8) ltac:(lia)) as H4.
  assert (0 <= b / 2 ^ 31 <= 1).
  { split; [apply Z.div_pos; lia|].
    assert (b / 2 ^ 31 < 2); [|lia]. apply Z.div_lt_upper_bound; lia. }
  lia.
Qed.

Lemma float64_fields (s e m : Z) :
  0 <= s <= 1 -> 0 <= e < 2 ^ 11 -> 0 <= m < 2 ^ 52 ->
  let b := s * 2 ^ 63 + e * 2 ^ 52 + m in
  b / 2 ^ 63 = s /\ (b / 2 ^ 52) mod 2 ^ 11 = e /\ b mod 2 ^ 52 = m.
Proof.
  intros Hs He Hm b.
  assert (Hdiv : b / 2 ^ 52 = s * 2 ^ 11 + e).
  { symmetry. apply (Z.div_unique b (2 ^ 52) _ m); subst b; lia. }
  split; [|split].
  - symmetry. apply (Z.div_unique b (2 ^ 63) _ (e * 2 ^ 52 + m)); subst b; lia.
  - rewrite Hdiv. symmetry. apply (Z.mod_unique _ _ s); lia.
  - symmetry. apply (Z.mod_unique b (2 ^ 52) (s * 2 ^ 11 + e)); subst b; lia.
Qed.

Lemma round_half_even_exact (q shift : Z) :
  0 < shift -> round_half_even (q * 2 ^ shift) shift = q.
Proof.
  intros Hshift. unfold round_half_even.
  assert (0 < 2 ^ shift) by (apply Z.pow_pos_nonneg; lia).
  assert (0 < 2 ^ (shift - 1)) by (apply Z.pow_pos_nonneg; lia).
  rewrite Z.div_mul, Z.mod_mul by lia.
  destruct (0 >? 2 ^ (shift - 1)) eqn:E1; [lia|].
  destruct (0 =? 2 ^ (shift - 1)) eqn:E2; [lia|]. reflexivity.
Qed.

(** Narrowing, by the sign, exponent and mantissa of a [float64]. *)
Lemma float32_of_float64_by_fields (s e m : Z) :
  0 <= s <= 1 -> 0 <= e < 2 ^ 11 -> 0 <= m < 2 ^ 52 ->
  float32_of_float64 (s * 2 ^ 63 + e * 2 ^ 52 + m)
  = if e =? 2047 then
      if m =? 0 then s * 2 ^ 31 + 255 * 2 ^ 23
      else s * 2 ^ 31 + 255 * 2 ^ 23
           + (if m / 2 ^ 29 <? 2 ^ 22 then m / 2 ^ 29 + 2 ^ 22 else m / 2 ^ 29)
    else if e =? 0 then s * 2 ^ 31
    else
      let sig := 2 ^ 52 + m in
      let mag :=
        if e >=? 897 then (e - 897) * 2 ^ 23 + round_half_even sig 29
        else round_half_even sig (926 - e) in
      if mag >=? 255 * 2 ^ 23 then s * 2 ^ 31 + 255 * 2 ^ 23
      else s * 2 ^ 31 + mag.
Proof.
  intros Hs He Hm.
  destruct (float64_fields s e m Hs He Hm) as (E1 & E2 & E3).
  unfold float32_of_float64. cbv zeta. rewrite E1, E2, E3. reflexivity.
Qed.

(** Widening and narrowing again gives back every [float32] that is not a
    signalling NaN. *)
Lemma float32_float64_float32 (b : Z) :
  0 <= b < 2 ^ 32 -> float32_signalling b = false ->
  float32_of_float64 (float64_of_float32 b) = b.
Proof.
  intros Hb Hsig.
  destruct (float32_fields b Hb) as (Hdec & Hs & He & Hm).
  unfold float32_signalling in Hsig. unfold float64_of_float32. cbv zeta.
  set (s := b / 2 ^ 31) in *. set (e := (b / 2 ^ 23) mod 2 ^ 8) in *.
  set (m := b mod 2 ^ 23) in *.
  destruct (e =? 255) eqn:Ee255.
  - destruct (m =? 0) eqn:Em0.
    + replace (s * 2 ^ 63 + 2047 * 2 ^ 52) with (s * 2 ^ 63 + 2047 * 2 ^ 52 + 0) by lia.
      rewrite float32_of_float64_by_fields by lia. simpl. lia.
    + simpl in Hsig. destruct (m <? 2 ^ 22) eqn:Eq; [discriminate|].
      rewrite float32_of_float64_by_fields by lia.
      change (2047 =? 2047) with true. cbv iota.
      rewrite Z.div_mul by lia. rewrite Eq.
      destruct (m * 2 ^ 29 =? 0) eqn:Ez; lia.
  - destruct (e =? 0) eqn:Ee0.
    + destruct (m =? 0) eqn:Em0.
      * replace (s * 2 ^ 63) with (s * 2 ^ 63 + 0 * 2 ^ 52 + 0) by lia.
        rewrite float32_of_float64_by_fields by lia. simpl. lia.
      * assert (Hmpos : 0 < m) by lia.
        pose proof (Z.log2_spec m Hmpos) as Hlog.
        pose proof (Z.log2_nonneg m) as Hk0.
        assert (Hk : Z.log2 m < 23).
        { apply Z.log2_lt_pow2; lia. }
        set (k := Z.log2 m) in *.
        assert (Hpq : 2 ^ k * 2 ^ (52 - k) = 2 ^ 52).
        { rewrite <- Z.pow_add_r by lia. f_equal. lia. }
        assert (Hp : 0 < 2 ^ k) by (apply Z.pow_pos_nonneg; lia).
        assert (Hq : 0 < 2 ^ (52 - k)) by (apply Z.pow_pos_nonneg; lia).
        replace (2 ^ Z.succ k) with (2 * 2 ^ k) in Hlog
          by (rewrite Z.pow_succ_r by lia; reflexivity).
        assert (HM : 0 <= (m - 2 ^ k) * 2 ^ (52 - k) < 2 ^ 52) by nia.
        rewrite float32_of_float64_by_fields by lia.
        destruct (k + 874 =? 2047) eqn:E1; [lia|].
        destruct (k + 874 =? 0) eqn:E2; [lia|].
        cbv zeta.
        destruct (k + 874 >=? 897) eqn:E3; [lia|].
        replace (2 ^ 52 + (m - 2 ^ k) * 2 ^ (52 - k)) with (m * 2 ^ (52 - k)) by lia.
        replace (926 - (k + 874)) with (52 - k) by lia.
        rewrite round_half_even_exact by lia.
        destruct (m >=? 255 * 2 ^ 23) eqn:E4; lia.
    + rewrite float32_of_float64_by_fields by lia.
      destruct (e + 896 =? 2047) eqn:E1; [lia|].
      destruct (e + 896 =? 0) eqn:E2; [lia|].
      cbv zeta.
      destruct (e + 896 >=? 897) eqn:E3; [|lia].
      replace (2 ^ 52 + m * 2 ^ 29) with ((2 ^ 23 + m) * 2 ^ 29) by lia.
      rewrite round_half_even_exact by lia.
      destruct (_ >=? 255 * 2 ^ 23) eqn:E4; lia.
Qed.

(** *** Strings on the wire: lemmas *)

Lemma utf16_encode_rune_length (r : Z) :
  length (utf16_encode_rune r) = if r <? 0x10000 then 1%nat else 2%nat.
Proof. unfold utf16_encode_rune. destruct (r <? 0x10000); reflexivity. Qed.

(** A string has at most as many 16-bit code units as it has bytes. *)
Lemma decodeUtf8_length (s : list byte) :
  (length (decodeUtf8 s) <= length s)%nat.
Proof.
  unfold decodeUtf8.
  assert (Hall : forall (n : nat) (s : list byte),
             (length s <= n)%nat ->
             (length (utf8_decode s ≫= utf16_encode_rune) <= length s)%nat);
    [|apply (Hall (length s)); lia].
  clear s. induction n as [|n IH]; intros s Hle.
  - destruct s; [simpl; lia | simpl in Hle; lia].
  - destruct s as [|b0 t0]; [simpl; lia|].
    pose proof (byte_to_Z_range b0) as Hb0.
    simpl utf8_decode. unfold RuneError, is_continuation.
    repeat
      (first
         [ match goal with
           | |- context [if ?c then _ else _] => destruct c eqn:?
           end
         | match goal with
           | |- context [match ?l with [] => _ | _ :: _ => _ end] =>
               is_var l;
               let b := fresh "b" in
               let t := fresh "t" in
               destruct l as [|b t];
               [|pose proof (byte_to_Z_range b)]
           end ];
       cbv beta iota zeta).
    all: rewrite bind_cons, length_app, utf16_encode_rune_length.
    all: cbn [length] in *.
    all: match goal with
         | |- context [length (utf8_decode ?t ≫= _)] =>
             let H := fresh in
             assert (H : (length (utf8_decode t ≫= utf16_encode_rune) <= length t)%nat)
               by (apply IH; cbn [length]; lia);
             cbn [length] in H
         end.
    all: match goal with
         | |- context [if ?c then _ else _] => destruct c eqn:?
         end.
    all: lia.
Qed.

Lemma decodeUtf8_ascii (s : list byte) :
  ascii s -> decodeUtf8 s = byte_to_Z <$> s.
Proof.
  unfold decodeUtf8. induction 1 as [|b s Hb _ IH]; [reflexivity|].
  simpl utf8_decode.
  destruct (byte_to_Z b <? 0x80) eqn:E; [|lia].
  rewrite bind_cons, IH. unfold utf16_encode_rune.
  destruct (byte_to_Z b <? 0x10000) eqn:E'; [reflexivity | lia].
Qed.

Lemma encodeUtf8_ascii (s : list byte) :
  ascii s -> encodeUtf8 (byte_to_Z <$> s) = s.
Proof.
  unfold encodeUtf8. induction 1 as [|b s Hb _ IH]; [reflexivity|].
  pose proof (byte_to_Z_range b) as Hr.
  rewrite fmap_cons. simpl utf16_decode.
  destruct ((0xD800 <=? byte_to_Z b) && (byte_to_Z b <? 0xDC00)) eqn:E1; [lia|].
  destruct ((0xDC00 <=? byte_to_Z b) && (byte_to_Z b <? 0xE000)) eqn:E2; [lia|].
  rewrite bind_cons, IH. unfold utf8_encode_rune.
  destruct ((byte_to_Z b <? 0) || (0x10FFFF <? byte_to_Z b)
            || ((0xD800 <=? byte_to_Z b) && (byte_to_Z b <=? 0xDFFF))) eqn:E3; [lia|].
  destruct (byte_to_Z b <? 0x80) eqn:E4; [|lia].
  rewrite byte_of_to_Z. reflexivity.
Qed.

(** Code units below 0x80 become one byte each, and come back. *)
Lemma encodeUtf8_small (us : list Z) :
  Forall (fun u => 0 <= u < 0x80) us ->
  ascii (encodeUtf8 us) /\ byte_to_Z <$> encodeUtf8 us = us.
Proof.
  unfold encodeUtf8, ascii. induction 1 as [|u us Hu _ [IH1 IH2]].
  - split; [constructor | reflexivity].
  - simpl utf16_decode.
    destruct ((0xD800 <=? u) && (u <? 0xDC00)) eqn:E1; [lia|].
    destruct ((0xDC00 <=? u) && (u <? 0xE000)) eqn:E2; [lia|].
    rewrite bind_cons. unfold utf8_encode_rune.
    destruct ((u <? 0) || (0x10FFFF <? u) || ((0xD800 <=? u) && (u <=? 0xDFFF)))
      eqn:E3; [lia|].
    destruct (u <? 0x80) eqn:E4; [|lia].
    assert (Hbu : byte_to_Z (byte_of_Z u) = u).
    { rewrite byte_to_of_Z. apply Z.mod_small. lia. }
    cbn [app]. split.
    + constructor; [rewrite Hbu; lia | exact IH1].
    + rewrite fmap_cons, Hbu. f_equal. exact IH2.
Qed.

Lemma bytes_of_uint16s_length (us : list Z) :
  length (bytes_of_uint16s us) = (2 * length us)%nat.
Proof.
  unfold bytes_of_uint16s. induction us as [|u us IH]; [reflexivity|].
  rewrite bind_cons, length_app, IH, BigEndian_PutUint_length. simpl. lia.
Qed.

Lemma uint16s_of_bytes_of_uint16s (us : list Z) :
  Forall (fun u => 0 <= u < 2 ^ 16) us ->
  uint16s_of_bytes (bytes_of_uint16s us) = us.
Proof.
  unfold bytes_of_uint16s. induction 1 as [|u us Hu _ IH]; [reflexivity|].
  rewrite bind_cons.
  pose proof (BigEndian_Uint_PutUint 2 u) as Hrt.
  simpl BigEndian_PutUint in *. simpl app.
  cbn [uint16s_of_bytes]. rewrite IH. f_equal.
  rewrite Hrt. apply Z.mod_small. simpl. lia.
Qed.

Lemma bytes_of_uint16s_of_bytes (n : nat) :
  forall bs, length bs = (2 * n)%nat ->
    bytes_of_uint16s (uint16s_of_bytes bs) = bs /\
    length (uint16s_of_bytes bs) = n /\
    Forall (fun u => 0 <= u < 2 ^ 16) (uint16s_of_bytes bs).
Proof.
  unfold bytes_of_uint16s.
  induction n as [|n IH]; intros bs Hlen.
  - destruct bs; [|discriminate]. repeat split. constructor.
  - destruct bs as [|hi [|lo bs]]; try (simpl in Hlen; lia).
    destruct (IH bs ltac:(simpl in Hlen; lia)) as (IH1 & IH2 & IH3).
    cbn [uint16s_of_bytes]. rewrite bind_cons, IH1.
    pose proof (BigEndian_PutUint_Uint [hi; lo]) as Hrt.
    pose proof (BigEndian_Uint_range [hi; lo]) as Hrange.
    cbn [length] in *. rewrite Hrt. simpl. repeat split.
    + f_equal. exact IH2.
    + constructor; [exact Hrange | exact IH3].
Qed.

(** *** Readers and writers: lemmas *)

Lemma ReadFull_app (bs rest : list byte) :
  ReadFull (bs ++ rest) (length bs) = (rest, inl bs).
Proof.
  unfold ReadFull. destruct bs as [|b bs]; [reflexivity|].
  change (length (b :: bs)) with (Datatypes.S (length bs)). cbv iota.
  change ((b :: bs) ++ rest) with (b :: bs ++ rest). cbv iota.
  destruct (length (b :: bs ++ rest) <? Datatypes.S (length bs))%nat eqn:E.
  - apply Nat.ltb_lt in E. cbn [length] in E. rewrite length_app in E. lia.
  - change (b :: bs ++ rest) with ((b :: bs) ++ rest).
    change (Datatypes.S (length bs)) with (length (b :: bs)).
    rewrite drop_app_length, take_app_length. reflexivity.
Qed.

Lemma ReadFull_inv (reader reader' : Reader) (n : nat) (bs : list byte) :
  ReadFull reader n = (reader', inl bs) ->
  reader = bs ++ reader' /\ length bs = n.
Proof.
  unfold ReadFull. destruct n as [|n].
  - intros H. inversion H. split; reflexivity.
  - destruct reader as [|b reader]; [discriminate|].
    destruct (length (b :: reader) <? Datatypes.S n)%nat eqn:E; [discriminate|].
    apply Nat.ltb_ge in E. intros H.
    assert (H1 : drop (Datatypes.S n) (b :: reader) = reader') by congruence.
    assert (H2 : take (Datatypes.S n) (b :: reader) = bs) by congruence.
    rewrite <- H1, <- H2. split.
    + symmetry. apply take_drop.
    + rewrite length_take. lia.
Qed.

(** Writing to a buffer appends and never fails. *)
Lemma Write_buffer (out bs : list byte) :
  Write {| written := out; room := None |} bs
  = ({| written := out ++ bs; room := None |}, None).
Proof. reflexivity. Qed.

(** *** Values: induction *)

Lemma Value_ind (P : Value -> Prop) :
  (forall fields, Forall P fields -> P (VStruct fields)) ->
  (forall value, match value with VStruct _ => False | _ => True end -> P value) ->
  forall value, P value.
Proof.
  intros Hstruct Hother. fix IH 1. intros [ | | | | | | | | | | | | fields | | | ].
  13: { apply Hstruct. induction fields as [|f fields IHf]; constructor.
        - apply IH.
        - exact IHf. }
  all: apply Hother; exact I.
Qed.

Lemma legal_struct (fields : list Value) :
  legal (VStruct fields) <-> Forall legal fields.
Proof.
  induction fields as [|f fields IH].
  - split; [constructor | intros _; exact I].
  - split.
    + intros [Hf Hrest]. constructor; [exact Hf | apply IH; exact Hrest].
    + intros H. inversion H; subst. split; [assumption | apply IH; assumption].
Qed.

Lemma ReadFull_exact (bs rest : list byte) (n : nat) :
  length bs = n -> ReadFull (bs ++ rest) n = (rest, inl bs).
Proof. intros <-. apply ReadFull_app. Qed.

Lemma BigEndian_Uint_1 (b : byte) : BigEndian_Uint [b] = byte_to_Z b.
Proof. unfold BigEndian_Uint. simpl. reflexivity. Qed.

Lemma wrap_unsigned_range (w z : Z) : 0 <= w -> 0 <= wrap_unsigned w z < 2 ^ w.
Proof.
  intros Hw. unfold wrap_unsigned. apply Z.mod_pos_bound.
  apply Z.pow_pos_nonneg; lia.
Qed.

(** What [SetInt] stores after [int64(...)] of the unsigned number read is
    the integer that was written. *)
Lemma signed_field_round_trip (w i : Z) :
  0 < w < 64 -> - 2 ^ (w - 1) <= i < 2 ^ (w - 1) ->
  wrap_signed w (wrap_signed 64 (wrap_unsigned w i)) = i.
Proof.
  intros Hw Hi.
  pose proof (wrap_unsigned_range w i ltac:(lia)) as Hu.
  assert (2 ^ w <= 2 ^ 63) by (apply Z.pow_le_mono_r; lia).
  rewrite (wrap_signed_small 64) by lia.
  apply wrap_signed_unsigned; lia.
Qed.

Lemma unsigned_field_round_trip (w u : Z) :
  0 < w <= 64 -> 0 <= u < 2 ^ w ->
  wrap_unsigned w (wrap_unsigned 64 (wrap_unsigned w u)) = u.
Proof.
  intros Hw Hu.
  assert (2 ^ w <= 2 ^ 64) by (apply Z.pow_le_mono_r; lia).
  rewrite !(wrap_unsigned_small w u) by lia.
  rewrite (wrap_unsigned_small 64) by lia.
  apply wrap_unsigned_small. lia.
Qed.

Lemma readData_struct (reader : Reader) (fields : list Value) :
  readData reader (VStruct fields)
  = let '(reader', fields', err) := readFields readData reader fields in
    (reader', VStruct fields', err).
Proof. reflexivity. Qed.

Lemma writeData_struct (writer : Writer) (fields : list Value) :
  writeData true writer (VStruct fields)
  = writeFields (writeData true) writer fields.
Proof. reflexivity. Qed.

Lemma readFields_cons (reader : Reader) (field : Value) (rest : list Value) :
  readFields readData reader (field :: rest)
  = match readData reader field with
    | (reader', field', Some err) => (reader', field' :: rest, Some err)
    | (reader', field', None) =>
        let '(reader'', rest', err) := readFields readData reader' rest in
        (reader'', field' :: rest', err)
    end.
Proof. reflexivity. Qed.

Lemma writeFields_cons (writer : Writer) (field : Value) (rest : list Value) :
  writeFields (writeData true) writer (field :: rest)
  = match writeData true writer field with
    | (writer', Some err) => (writer', Some err)
    | (writer', None) => writeFields (writeData true) writer' rest
    end.
Proof. reflexivity. Qed.

(** *** Writing, then reading *)

Ltac scalar_written :=
  intros out; cbn [writeData]; apply Write_buffer.

Ltac scalar_read target Hty :=
  destruct target; try discriminate Hty; clear Hty;
  cbn [readData]; unfold readScalar;
  rewrite ReadFull_exact by (first [apply BigEndian_PutUint_length | reflexivity]);
  do 3 f_equal;
  rewrite ?BigEndian_Uint_1, ?byte_to_of_Z, ?BigEndian_Uint_PutUint.

Lemma write_read_scalar (value : Value) :
  match value with VStruct _ => False | _ => True end ->
  legal value -> writes_and_reads_back value.
Proof.
  intros Hscalar Hlegal. unfold writes_and_reads_back.
  destruct value; cbn [legal] in Hlegal; try contradiction; clear Hscalar.
  - (* bool *)
    eexists. split; [scalar_written|]. intros target rest Hty.
    scalar_read target Hty. destruct b; reflexivity.
  - (* int8 *)
    eexists. split; [scalar_written|]. intros target rest Hty.
    scalar_read target Hty.
    change (i mod 256) with (wrap_unsigned 8 i).
    apply signed_field_round_trip; lia.
  - (* int16 *)
    eexists. split; [scalar_written|]. intros target rest Hty.
    scalar_read target Hty.
    change (256 ^ Z.of_nat 2) with (2 ^ 16).
    rewrite Z.mod_small by (apply wrap_unsigned_range; lia).
    apply signed_field_round_trip; lia.
  - (* int32 *)
    eexists. split; [scalar_written|]. intros target rest Hty.
    scalar_read target Hty.
    change (256 ^ Z.of_nat 4) with (2 ^ 32).
    rewrite Z.mod_small by (apply wrap_unsigned_range; lia).
    apply signed_field_round_trip; lia.
  - (* int64 *)
    eexists. split; [scalar_written|]. intros target rest Hty.
    scalar_read target Hty.
    change (256 ^ Z.of_nat 8) with (2 ^ 64).
    rewrite Z.mod_small by (apply wrap_unsigned_range; lia).
    apply wrap_signed_unsigned; lia.
  - (* uint8 *)
    eexists. split; [scalar_written|]. intros target rest Hty.
    scalar_read target Hty.
    change (u mod 256) with (wrap_unsigned 8 u).
    apply unsigned_field_round_trip; lia.
  - (* uint16 *)
    eexists. split; [scalar_written|]. intros target rest Hty.
    scalar_read target Hty.
    change (256 ^ Z.of_nat 2) with (2 ^ 16).
    rewrite Z.mod_small by (apply wrap_unsigned_range; lia).
    apply unsigned_field_round_trip; lia.
  - (* uint32 *)
    eexists. split; [scalar_written|]. intros target rest Hty.
    scalar_read target Hty.
    change (256 ^ Z.of_nat 4) with (2 ^ 32).
    rewrite Z.mod_small by (apply wrap_unsigned_range; lia).
    apply unsigned_field_round_trip; lia.
  - (* uint64 *)
    eexists. split; [scalar_written|]. intros target rest Hty.
    scalar_read target Hty.
    change (256 ^ Z.of_nat 8) with (2 ^ 64).
    fold (wrap_unsigned 64 u). rewrite (wrap_unsigned_small 64 u) by lia.
    apply wrap_unsigned_small. lia.
  - (* float32 *)
    destruct Hlegal as [Hrange Hquiet].
    eexists. split; [scalar_written|]. intros target rest Hty.
    scalar_read target Hty.
    change (256 ^ Z.of_nat 4) with (2 ^ 32).
    rewrite (float32_float64_float32 bits Hrange Hquiet).
    rewrite Z.mod_small by lia.
    apply float32_float64_float32; assumption.
  - (* float64 *)
    eexists. split; [scalar_written|]. intros target rest Hty.
    scalar_read target Hty.
    change (256 ^ Z.of_nat 8) with (2 ^ 64).
    apply Z.mod_small. lia.
  - (* string *)
    destruct Hlegal as [Hascii Hlen]. unfold MaxInt16 in Hlen.
    exists (BigEndian_PutUint 2 (wrap_unsigned 16 (Z.of_nat (length s)))
            ++ bytes_of_uint16s (decodeUtf8 s)).
    split.
    + intros out. cbn [writeData]. unfold MaxInt16.
      destruct (Z.of_nat (length s) >? 32767) eqn:E; [lia|].
      rewrite !Write_buffer, app_assoc. reflexivity.
    + intros target rest Hty.
      destruct target; try discriminate Hty; clear Hty.
      cbn [readData]. rewrite <- app_assoc.
      rewrite ReadFull_exact by apply BigEndian_PutUint_length.
      rewrite BigEndian_Uint_PutUint.
      change (256 ^ Z.of_nat 2) with (2 ^ 16).
      rewrite Z.mod_small by (apply wrap_unsigned_range; lia).
      rewrite wrap_signed_unsigned by lia.
      destruct (Z.of_nat (length s) <? 0) eqn:E; [lia|].
      rewrite Nat2Z.id.
      rewrite decodeUtf8_ascii by exact Hascii.
      rewrite ReadFull_exact
        by (rewrite bytes_of_uint16s_length, length_fmap; reflexivity).
      rewrite uint16s_of_bytes_of_uint16s.
      * rewrite encodeUtf8_ascii by exact Hascii. reflexivity.
      * apply Forall_fmap, Forall_forall. intros b _.
        pose proof (byte_to_Z_range b). simpl. lia.
Qed.

Lemma write_read_fields (fields : list Value) :
  Forall writes_and_reads_back fields ->
  exists bytes : list byte,
    (forall out,
        writeFields (writeData true) {| written := out; room := None |} fields
        = ({| written := out ++ bytes; room := None |}, None)) /\
    (forall targets rest,
        map TypeOf targets = map TypeOf fields ->
        readFields readData (bytes ++ rest) targets = (rest, fields, None)).
Proof.
  induction 1 as [|field fields (bytes1 & Hw1 & Hr1) _ (bytes2 & Hw2 & Hr2)].
  - exists []. split.
    + intros out. rewrite app_nil_r. reflexivity.
    + intros [|t targets] rest Hty; [reflexivity | discriminate].
  - exists (bytes1 ++ bytes2). split.
    + intros out. rewrite writeFields_cons, Hw1, Hw2, app_assoc. reflexivity.
    + intros [|t targets] rest Hty; [discriminate|].
      cbn [map] in Hty.
      assert (Ht : TypeOf t = TypeOf field) by congruence.
      assert (Hts : map TypeOf targets = map TypeOf fields) by congruence.
      rewrite readFields_cons, <- app_assoc, (Hr1 t _ Ht), (Hr2 _ _ Hts).
      reflexivity.
Qed.

(** Every legal value is written to a buffer without error, and reading
    the bytes into a value of the same type gives the value back and
    leaves what follows the bytes in the reader. *)
Lemma write_read_value (value : Value) :
  legal value -> writes_and_reads_back value.
Proof.
  induction value as [fields IH | value Hscalar] using Value_ind.
  - intros Hlegal. apply legal_struct in Hlegal.
    destruct (write_read_fields fields) as (bytes & Hw & Hr).
    { rewrite Forall_forall in *. intros f Hf. apply IH; auto. }
    exists bytes. split.
    + intros out. rewrite writeData_struct. apply Hw.
    + intros target rest Hty.
      destruct target as [ | | | | | | | | | | | | targets | | | ];
        try discriminate Hty.
      cbn [TypeOf] in Hty.
      assert (Hts : map TypeOf targets = map TypeOf fields) by congruence.
      rewrite readData_struct, (Hr _ _ Hts). reflexivity.
  - apply write_read_scalar. exact Hscalar.
Qed.

(** X11: the round trip for the values it holds for: [ReadPacket] applied
    to the output of [WritePacket] gives the record back and reads the
    bytes to the end, whatever the target of the same type held before, when
    every string in the record is ASCII (and the other conditions of [legal]
    hold). *)
Lemma WritePacket_ReadPacket_legal (value target : Value) :
  legal value -> TypeOf target = TypeOf value ->
  exists bytes : list byte,
    WritePacket new_Buffer (PacketPtr (Some value))
    = ({| written := bytes; room := None |}, None) /\
    ReadPacket bytes (PacketPtr (Some target))
    = ([], PacketPtr (Some value), None).
Proof.
  intros Hlegal Hty.
  destruct (write_read_value value Hlegal) as (bytes & Hw & Hr).
  exists bytes. split.
  - unfold WritePacket, new_Buffer. rewrite Hw. reflexivity.
  - unfold ReadPacket. rewrite <- (app_nil_r bytes) at 1.
    rewrite (Hr target [] Hty). reflexivity.
Qed.

(** C1, on a record with one string field holding the two UTF-8 bytes of
    U+00E9: [WritePacket] writes the length prefix 2, the number of bytes,
    and then the single code unit 00E9; [ReadPacket] takes the prefix for
    the number of code units, asks for four more bytes and fails on the two
    that are there.  With a [uint16] field after the string, the bytes of
    that field are read as a second code unit of the string. *)
Theorem non_ascii_string_not_read_back :
  let value := VStruct [VString [xc3; xa9]] in
  let target := VStruct [VString []] in
  let value2 := VStruct [VString [xc3; xa9]; VUint16 0x41] in
  let target2 := VStruct [VString []; VUint16 0] in
  WritePacket new_Buffer (PacketPtr (Some value))
  = ({| written := [x00; x02; x00; xe9]; room := None |}, None) /\
  ReadPacket [x00; x02; x00; xe9] (PacketPtr (Some target))
  = ([], PacketPtr (Some target), Some ErrUnexpectedEOF) /\
  WritePacket new_Buffer (PacketPtr (Some value2))
  = ({| written := [x00; x02; x00; xe9; x00; x41]; room := None |}, None) /\
  ReadPacket [x00; x02; x00; xe9; x00; x41] (PacketPtr (Some target2))
  = ([], PacketPtr (Some (VStruct [VString [xc3; xa9; x41]; VUint16 0])), Some EOF).
Proof. vm_compute. repeat split. Qed.

(** *** Strings that are too long *)

(** A string of more than [MaxInt16] bytes is refused before anything is
    written, whatever the writer. *)
Lemma writeData_string_too_long (addressable : bool) (writer : Writer)
    (s : list byte) :
  MaxInt16 < Z.of_nat (length s) ->
  writeData addressable writer (VString s) = (writer, Some ErrorStrTooLong).
Proof.
  intros Hlen. cbn [writeData].
  destruct (Z.of_nat (length s) >? MaxInt16) eqn:E; [reflexivity | lia].
Qed.

Lemma Write_error (writer writer' : Writer) (bs : list byte) (err : Error) :
  Write writer bs = (writer', Some err) -> err = ErrShortWrite.
Proof.
  unfold Write. destruct (room writer) as [r|]; [|discriminate].
  destruct (length bs <=? r)%nat; [discriminate|]. congruence.
Qed.

(** [ErrorStrTooLong] is returned for no other string. *)
Lemma writeData_string_too_long_only (addressable : bool) (writer : Writer)
    (s : list byte) :
  snd (writeData addressable writer (VString s)) = Some ErrorStrTooLong ->
  MaxInt16 < Z.of_nat (length s).
Proof.
  cbn [writeData].
  destruct (Z.of_nat (length s) >? MaxInt16) eqn:E; [lia|].
  destruct (Write writer _) as [w1 [e1|]] eqn:E1.
  - apply Write_error in E1. subst e1. discriminate.
  - destruct (Write w1 _) as [w2 [e2|]] eqn:E2; [|discriminate].
    apply Write_error in E2. subst e2. discriminate.
Qed.

Lemma code_points_le_code_units (s : list byte) :
  (length (utf8_decode s) <= length (decodeUtf8 s))%nat.
Proof.
  unfold decodeUtf8. induction (utf8_decode s) as [|r l IH]; [reflexivity|].
  rewrite bind_cons, length_app, utf16_encode_rune_length.
  cbn [length]. destruct (r <? 0x10000); lia.
Qed.

(** A string with more than [MaxInt16] code units, or code points, is
    refused before anything is written. *)
Lemma writeData_string_too_many_units (addressable : bool) (writer : Writer)
    (s : list byte) :
  MaxInt16 < Z.of_nat (length (decodeUtf8 s))
  \/ MaxInt16 < Z.of_nat (length (utf8_decode s)) ->
  writeData addressable writer (VString s) = (writer, Some ErrorStrTooLong).
Proof.
  intros H. apply writeData_string_too_long.
  pose proof (decodeUtf8_length s). pose proof (code_points_le_code_units s).
  lia.
Qed.

(** C4, on the string of 16384 times U+00E9: it is emitted as 16384 code
    units, which does not exceed [MaxInt16], and yet it is refused with
    [ErrorStrTooLong], because its 32768 bytes are counted. *)
Theorem string_too_long_counts_bytes :
  let s := mjoin (replicate (Z.to_nat 16384) [xc3; xa9]) in
  Z.of_nat (length (decodeUtf8 s)) = 16384 /\
  16384 <= MaxInt16 /\
  Z.of_nat (length s) = 32768 /\
  writeData true new_Buffer (VString s) = (new_Buffer, Some ErrorStrTooLong).
Proof. vm_compute. repeat split; discriminate. Qed.

(** *** A negative string length *)

Lemma readFields_app (pre post : list Value) :
  forall reader reader' pre',
    readFields readData reader pre = (reader', pre', None) ->
    readFields readData reader (pre ++ post)
    = let '(reader'', post', err) := readFields readData reader' post in
      (reader'', pre' ++ post', err).
Proof.
  induction pre as [|f pre IH]; intros reader reader' pre' Hpre.
  - cbn in Hpre. inversion Hpre; subst. cbn [app].
    destruct (readFields readData reader' post) as [[r p] e]. reflexivity.
  - rewrite readFields_cons in Hpre. cbn [app]. rewrite readFields_cons.
    destruct (readData reader f) as [[r1 f'] [e|]]; [discriminate|].
    destruct (readFields readData r1 pre) as [[r2 pre2] e2] eqn:Hrest.
    inversion Hpre; subst.
    rewrite (IH r1 reader' pre2 Hrest).
    destruct (readFields readData reader' post) as [[r p] e]. reflexivity.
Qed.

(** C5: when the fields before a string field have been read and the two
    bytes that follow are negative as a signed 16-bit integer, [ReadPacket]
    returns [ErrorLengthNegative] and leaves in the reader every byte after
    those two; the string field and the fields after it are as they were. *)
Theorem negative_string_length (pre post pre' : list Value) (s : list byte)
    (reader rest : Reader) (hi lo : byte) :
  readFields readData reader pre = (hi :: lo :: rest, pre', None) ->
  wrap_signed 16 (BigEndian_Uint [hi; lo]) < 0 ->
  ReadPacket reader (PacketPtr (Some (VStruct (pre ++ VString s :: post))))
  = (rest, PacketPtr (Some (VStruct (pre' ++ VString s :: post))),
     Some ErrorLengthNegative).
Proof.
  intros Hpre Hneg. unfold ReadPacket.
  rewrite readData_struct, (readFields_app _ _ _ _ _ Hpre), readFields_cons.
  cbn [readData].
  change (ReadFull (hi :: lo :: rest) 2) with (rest, @inl _ Error [hi; lo]).
  cbv iota beta zeta.
  destruct (wrap_signed 16 (BigEndian_Uint [hi; lo]) <? 0) eqn:E; [|lia].
  reflexivity.
Qed.

Lemma negative_string_length_witness :
  ReadPacket [x07; xff; xfe; x2a]
    (PacketPtr (Some (VStruct [VUint8 0; VString []; VBool false])))
  = ([x2a], PacketPtr (Some (VStruct [VUint8 7; VString []; VBool false])),
     Some ErrorLengthNegative).
Proof.
  apply (negative_string_length [VUint8 0] [VBool false] [VUint8 7] []
           [x07; xff; xfe; x2a] [x2a] xff xfe).
  - reflexivity.
  - vm_compute. reflexivity.
Defined.

(** *** Reading, then writing *)

Lemma supported_struct_cons (field : Value) (rest : list Value) :
  supported (VStruct (field :: rest))
  <-> supported field /\ supported (VStruct rest).
Proof. reflexivity. Qed.

Lemma canonical_struct_cons (reader : Reader) (field : Value) (rest : list Value) :
  canonical reader (VStruct (field :: rest))
  <-> canonical reader field
      /\ canonical (fst (fst (readData reader field))) (VStruct rest).
Proof. reflexivity. Qed.

Lemma byte_of_Z_congr (a b : Z) : a mod 256 = b mod 256 -> byte_of_Z a = byte_of_Z b.
Proof. unfold byte_of_Z. intros ->. reflexivity. Qed.

Ltac scalar_was_read Hread bs Hlen :=
  cbn [readData] in Hread; unfold readScalar in Hread;
  match type of Hread with
  | context [ReadFull ?reader ?n] =>
      let r := fresh "r" in
      let e := fresh "e" in
      let HRF := fresh "HRF" in
      destruct (ReadFull reader n) as [r [bs|e]] eqn:HRF; [|discriminate Hread];
      apply ReadFull_inv in HRF as [-> Hlen];
      inversion Hread; subst; clear Hread
  end.

Ltac scalar_written_back bs :=
  exists bs; split; [reflexivity|];
  intros out; cbn [writeData]; rewrite Write_buffer; do 3 f_equal.

Lemma read_write_scalar (target : Value) :
  match target with VStruct _ => False | _ => True end ->
  supported target -> reads_and_writes_back target.
Proof.
  intros Hscalar Hsup reader reader' value Hcanon Hread.
  destruct target; cbn [supported] in Hsup; try contradiction; clear Hscalar Hsup.
  - (* bool *)
    scalar_was_read Hread bs Hlen.
    destruct bs as [|b0 [|? ?]]; try discriminate Hlen.
    cbn [canonical app] in Hcanon.
    scalar_written_back [b0].
    rewrite BigEndian_Uint_1. pose proof (byte_to_Z_range b0) as Hb.
    f_equal. rewrite <- (byte_of_to_Z b0) at 2.
    destruct (byte_to_Z b0 =? 0) eqn:E; cbn [negb]; f_equal; lia.
  - (* int8 *)
    scalar_was_read Hread bs Hlen.
    destruct bs as [|b0 [|? ?]]; try discriminate Hlen.
    scalar_written_back [b0].
    rewrite BigEndian_Uint_1. pose proof (byte_to_Z_range b0) as Hb.
    f_equal. rewrite <- (byte_of_to_Z b0) at 2. apply byte_of_Z_congr.
    rewrite (wrap_signed_small 64) by lia.
    apply (wrap_signed_congr 8). lia.
  - (* int16 *)
    scalar_was_read Hread bs Hlen. scalar_written_back bs.
    pose proof (BigEndian_Uint_range bs) as Hu. rewrite Hlen in Hu.
    rewrite (wrap_signed_small 64) by (simpl in Hu; lia).
    rewrite wrap_unsigned_signed by (simpl in Hu; lia).
    rewrite <- Hlen. apply BigEndian_PutUint_Uint.
  - (* int32 *)
    scalar_was_read Hread bs Hlen. scalar_written_back bs.
    pose proof (BigEndian_Uint_range bs) as Hu. rewrite Hlen in Hu.
    rewrite (wrap_signed_small 64) by (simpl in Hu; lia).
    rewrite wrap_unsigned_signed by (simpl in Hu; lia).
    rewrite <- Hlen. apply BigEndian_PutUint_Uint.
  - (* int64 *)
    scalar_was_read Hread bs Hlen. scalar_written_back bs.
    pose proof (BigEndian_Uint_range bs) as Hu. rewrite Hlen in Hu.
    rewrite wrap_unsigned_signed by (simpl in Hu; lia).
    rewrite <- Hlen. apply BigEndian_PutUint_Uint.
  - (* uint8 *)
    scalar_was_read Hread bs Hlen.
    destruct bs as [|b0 [|? ?]]; try discriminate Hlen.
    scalar_written_back [b0].
    rewrite BigEndian_Uint_1. pose proof (byte_to_Z_range b0) as Hb.
    f_equal. rewrite (wrap_unsigned_small 64) by lia.
    rewrite (wrap_unsigned_small 8) by lia.
    apply byte_of_to_Z.
  - (* uint16 *)
    scalar_was_read Hread bs Hlen. scalar_written_back bs.
    pose proof (BigEndian_Uint_range bs) as Hu. rewrite Hlen in Hu.
    rewrite (wrap_unsigned_small 64) by (simpl in Hu; lia).
    rewrite !(wrap_unsigned_small 16 (BigEndian_Uint bs)) by (simpl in Hu; lia).
    rewrite <- Hlen. apply BigEndian_PutUint_Uint.
  - (* uint32 *)
    scalar_was_read Hread bs Hlen. scalar_written_back bs.
    pose proof (BigEndian_Uint_range bs) as Hu. rewrite Hlen in Hu.
    rewrite (wrap_unsigned_small 64) by (simpl in Hu; lia).
    rewrite !(wrap_unsigned_small 32 (BigEndian_Uint bs)) by (simpl in Hu; lia).
    rewrite <- Hlen. apply BigEndian_PutUint_Uint.
  - (* uint64 *)
    scalar_was_read Hread bs Hlen. scalar_written_back bs.
    pose proof (BigEndian_Uint_range bs) as Hu. rewrite Hlen in Hu.
    rewrite (wrap_unsigned_small 64) by (simpl in Hu; lia).
    rewrite <- Hlen. apply BigEndian_PutUint_Uint.
  - (* float32 *)
    scalar_was_read Hread bs Hlen.
    cbn [canonical] in Hcanon.
    rewrite (take_app_length' bs) in Hcanon by (symmetry; exact Hlen).
    scalar_written_back bs.
    pose proof (BigEndian_Uint_range bs) as Hu. rewrite Hlen in Hu.
    change (256 ^ Z.of_nat 4) with (2 ^ 32) in Hu.
    rewrite !(float32_float64_float32 (BigEndian_Uint bs) Hu Hcanon).
    rewrite <- Hlen. apply BigEndian_PutUint_Uint.
  - (* float64 *)
    scalar_was_read Hread bs Hlen. scalar_written_back bs.
    rewrite <- Hlen. apply BigEndian_PutUint_Uint.
  - (* string *)
    cbn [readData] in Hread.
    destruct (ReadFull reader 2) as [r1 [scratch|e]] eqn:HRF1; [|discriminate Hread].
    apply ReadFull_inv in HRF1 as [-> Hlen1].
    cbn [canonical] in Hcanon. cbv zeta in Hcanon.
    rewrite (take_app_length' scratch), (drop_app_length' scratch) in Hcanon
      by (symmetry; exact Hlen1).
    pose proof (BigEndian_Uint_range scratch) as Hu. rewrite Hlen1 in Hu.
    simpl in Hu.
    pose proof (wrap_signed_range 16 (BigEndian_Uint scratch) ltac:(lia)) as Hn.
    change (2 ^ (16 - 1)) with 32768 in Hn.
    remember (wrap_signed 16 (BigEndian_Uint scratch)) as n eqn:Hn_def.
    destruct (n <? 0) eqn:En; [discriminate Hread|].
    destruct (ReadFull r1 (2 * Z.to_nat n)) as [r2 [data|e]] eqn:HRF2;
      [|discriminate Hread].
    apply ReadFull_inv in HRF2 as [-> Hlen2].
    rewrite (take_app_length' data) in Hcanon by (symmetry; exact Hlen2).
    inversion Hread; subst reader' value; clear Hread.
    destruct (bytes_of_uint16s_of_bytes (Z.to_nat n) data Hlen2)
      as (Hback & Hcount & Hrange).
    assert (Hsmall : Forall (fun u => 0 <= u < 0x80) (uint16s_of_bytes data)).
    { rewrite Forall_forall in *. intros u Hin.
      specialize (Hcanon u Hin). specialize (Hrange u Hin). lia. }
    destruct (encodeUtf8_small _ Hsmall) as [Hascii Hunits].
    assert (Hbytes : length (encodeUtf8 (uint16s_of_bytes data)) = Z.to_nat n).
    { rewrite <- Hcount. rewrite <- Hunits at 2. rewrite length_fmap. reflexivity. }
    exists (scratch ++ data). split; [rewrite app_assoc; reflexivity|].
    intros out. cbn [writeData]. rewrite Hbytes. unfold MaxInt16.
    destruct (Z.of_nat (Z.to_nat n) >? 32767) eqn:E; [apply Z.gtb_lt in E; lia|].
    rewrite !Write_buffer, <- app_assoc. do 4 f_equal.
    + rewrite Z2Nat.id by lia. rewrite Hn_def.
      rewrite wrap_unsigned_signed by lia.
      rewrite <- Hlen1. apply BigEndian_PutUint_Uint.
    + rewrite decodeUtf8_ascii by exact Hascii.
      rewrite Hunits. exact Hback.
Qed.

Lemma read_write_fields (fields : list Value) :
  Forall (fun f => supported f -> reads_and_writes_back f) fields ->
  supported (VStruct fields) ->
  forall (reader reader' : Reader) (values : list Value),
    canonical reader (VStruct fields) ->
    readFields readData reader fields = (reader', values, None) ->
    exists bytes : list byte,
      reader = bytes ++ reader' /\
      forall out,
        writeFields (writeData true) {| written := out; room := None |} values
        = ({| written := out ++ bytes; room := None |}, None).
Proof.
  induction 1 as [|field fields Hfield _ IH];
    intros Hsup reader reader' values Hcanon Hread.
  - cbn in Hread. inversion Hread; subst. exists []. split; [reflexivity|].
    intros out. rewrite app_nil_r. reflexivity.
  - apply supported_struct_cons in Hsup as [Hsup1 Hsup2].
    apply canonical_struct_cons in Hcanon as [Hcanon1 Hcanon2].
    rewrite readFields_cons in Hread.
    destruct (readData reader field) as [[r1 v1] [e|]] eqn:Hread1;
      [discriminate Hread|].
    destruct (readFields readData r1 fields) as [[r2 vs] e2] eqn:Hread2.
    inversion Hread; subst; clear Hread.
    destruct (Hfield Hsup1 reader r1 v1 Hcanon1 Hread1) as (bytes1 & -> & Hw1).
    cbn [fst] in Hcanon2.
    destruct (IH Hsup2 r1 reader' vs Hcanon2 Hread2) as (bytes2 & -> & Hw2).
    exists (bytes1 ++ bytes2). split; [rewrite app_assoc; reflexivity|].
    intros out. rewrite writeFields_cons, Hw1, Hw2, app_assoc. reflexivity.
Qed.

Lemma read_write_value (target : Value) :
  supported target -> reads_and_writes_back target.
Proof.
  induction target as [fields IH | target Hscalar] using Value_ind.
  - intros Hsup reader reader' value Hcanon Hread.
    rewrite readData_struct in Hread.
    destruct (readFields readData reader fields) as [[r vs] e] eqn:Hfields.
    inversion Hread; subst; clear Hread.
    destruct (read_write_fields fields IH Hsup reader reader' vs Hcanon Hfields)
      as (bytes & -> & Hw).
    exists bytes. split; [reflexivity|].
    intros out. rewrite writeData_struct. apply Hw.
  - apply read_write_scalar. exact Hscalar.
Qed.

(** C3, as stated, at a concrete input: the byte 02 is accepted as a bool
    field and decoded to [true], which is written back as the byte 01. *)
Lemma bool_byte_not_reproduced :
  ReadPacket [x02] (PacketPtr (Some (VStruct [VBool false])))
  = ([], PacketPtr (Some (VStruct [VBool true])), None) /\
  WritePacket new_Buffer (PacketPtr (Some (VStruct [VBool true])))
  = ({| written := [x01]; room := None |}, None) /\
  [x01] <> [x02].
Proof. repeat split. discriminate. Qed.

(** C3 (amended): for every byte string that [ReadPacket] accepts into a
    record built from the supported field kinds, in which every byte read
    as a bool field is 0 or 1, no [float32] field is a signalling NaN and
    every code unit of a string field is below 0x80, writing the decoded
    record with [WritePacket] reproduces, bit for bit, the bytes that
    [ReadPacket] has taken from the stream. *)
Theorem ReadPacket_WritePacket_canonical (target value : Value)
    (reader reader' : Reader) :
  supported target ->
  canonical reader target ->
  ReadPacket reader (PacketPtr (Some target))
  = (reader', PacketPtr (Some value), None) ->
  exists bytes : list byte,
    reader = bytes ++ reader' /\
    WritePacket new_Buffer (PacketPtr (Some value))
    = ({| written := bytes; room := None |}, None).
Proof.
  intros Hsup Hcanon Hread. unfold ReadPacket in Hread.
  destruct (readData reader target) as [[r v] e] eqn:Hdata.
  assert (r = reader') by congruence.
  assert (v = value) by congruence.
  assert (e = None) by congruence. subst r v e.
  destruct (read_write_value target Hsup reader reader' value Hcanon Hdata)
    as (bytes & Hbytes & Hwrite).
  exists bytes. split; [exact Hbytes|].
  unfold WritePacket, new_Buffer. rewrite Hwrite. reflexivity.
Qed.

Lemma ReadPacket_WritePacket_canonical_witness :
  exists bytes : list byte,
    [x01; x00; x2a; xff] = bytes ++ [xff] /\
    WritePacket new_Buffer (PacketPtr (Some (VStruct [VBool true; VUint16 42])))
    = ({| written := bytes; room := None |}, None).
Proof.
  apply (ReadPacket_WritePacket_canonical
           (VStruct [VBool false; VUint16 0]) (VStruct [VBool true; VUint16 42])
           [x01; x00; x2a; xff] [xff]).
  - simpl. tauto.
  - split; [vm_compute; discriminate | split; exact I].
  - reflexivity.
Defined.

Lemma WritePacket_ReadPacket_legal_witness :
  exists bytes : list byte,
    WritePacket new_Buffer
      (PacketPtr (Some (VStruct [VInt32 (-5); VString [x68; x69]; VBool true])))
    = ({| written := bytes; room := None |}, None) /\
    ReadPacket bytes (PacketPtr (Some (VStruct [VInt32 0; VString []; VBool false])))
    = ([], PacketPtr (Some (VStruct [VInt32 (-5); VString [x68; x69]; VBool true])),
       None).
Proof.
  apply (WritePacket_ReadPacket_legal
           (VStruct [VInt32 (-5); VString [x68; x69]; VBool true])
           (VStruct [VInt32 0; VString []; VBool false])).
  - cbn [legal]. unfold ascii, MaxInt16.
    split; [lia|]. split; [|split; exact I]. split; [|simpl; lia].
    repeat (apply List.Forall_cons; [vm_compute; reflexivity|]).
    apply List.Forall_nil.
  - reflexivity.
Defined.

(** *** Further properties of the serializer *)

Lemma ReadFull_enough (reader : Reader) (n : nat) :
  (n <= length reader)%nat ->
  ReadFull reader n = (drop n reader, inl (take n reader)).
Proof.
  intros Hn. unfold ReadFull. destruct n as [|n]; [reflexivity|].
  destruct reader as [|b reader]; [simpl in Hn; lia|].
  destruct (length (b :: reader) <? S n)%nat eqn:E; [|reflexivity].
  apply Nat.ltb_lt in E. lia.
Qed.

Lemma ReadFull_short (reader : Reader) (n : nat) :
  (length reader < n)%nat ->
  exists err,
    ReadFull reader n = ([], inr err) /\ (err = EOF \/ err = ErrUnexpectedEOF).
Proof.
  intros Hn. unfold ReadFull. destruct n as [|n]; [lia|].
  destruct reader as [|b reader]; [eauto|].
  destruct (length (b :: reader) <? S n)%nat eqn:E; [eauto|].
  apply Nat.ltb_ge in E. lia.
Qed.

Lemma supported_struct (fields : list Value) :
  supported (VStruct fields) <-> Forall supported fields.
Proof.
  induction fields as [|f fields IH].
  - split; [constructor | intros _; exact I].
  - rewrite supported_struct_cons, IH. split.
    + intros [Hf Hrest]. constructor; assumption.
    + intros H. inversion H; subst. split; assumption.
Qed.

Lemma wire_size_struct_cons (field : Value) (rest : list Value) :
  wire_size (VStruct (field :: rest))
  = match wire_size field, wire_size (VStruct rest) with
    | Some a, Some b => Some (a + b)%nat
    | _, _ => None
    end.
Proof. reflexivity. Qed.


(** **** What the target held before *)

Ltac read_steps :=
  repeat match goal with
         | |- context [ReadFull ?r ?n] => destruct (ReadFull r n) as [? [?|?]]
         | |- context [if ?b then _ else _] => destruct b
         end.

Lemma readData_same_type (target1 : Value) :
  forall (reader : Reader) (target2 : Value),
    supported target1 -> TypeOf target1 = TypeOf target2 ->
    fst (fst (readData reader target1)) = fst (fst (readData reader target2)) /\
    snd (readData reader target1) = snd (readData reader target2) /\
    (snd (readData reader target1) = None ->
     snd (fst (readData reader target1)) = snd (fst (readData reader target2))).
Proof.
  induction target1 as [fields1 IH | target1 Hscalar] using Value_ind;
    intros reader target2 Hsup Hty.
  - destruct target2 as [ | | | | | | | | | | | | fields2 | | | ];
      try discriminate Hty.
    cbn [TypeOf] in Hty.
    assert (Hts : map TypeOf fields1 = map TypeOf fields2) by congruence.
    clear Hty. apply supported_struct in Hsup.
    rewrite !readData_struct.
    assert (Hfields :
      fst (fst (readFields readData reader fields1))
      = fst (fst (readFields readData reader fields2)) /\
      snd (readFields readData reader fields1)
      = snd (readFields readData reader fields2) /\
      (snd (readFields readData reader fields1) = None ->
       snd (fst (readFields readData reader fields1))
       = snd (fst (readFields readData reader fields2)))).
    { revert reader fields2 Hts.
      induction IH as [|f1 fields1 Hf1 _ IHfs]; intros reader fields2 Hts.
      - destruct fields2; [|discriminate]. cbn. auto.
      - destruct fields2 as [|f2 fields2]; [discriminate|].
        cbn [map] in Hts.
        assert (Ht : TypeOf f1 = TypeOf f2) by congruence.
        assert (Hts' : map TypeOf fields1 = map TypeOf fields2) by congruence.
        inversion Hsup as [|? ? Hsup1 Hsups]; subst.
        rewrite !readFields_cons.
        destruct (Hf1 reader f2 Hsup1 Ht) as (Hr & He & Hv).
        destruct (readData reader f1) as [[ra va] ea].
        destruct (readData reader f2) as [[rb vb] eb].
        cbn [fst snd] in Hr, He, Hv. subst rb eb.
        destruct ea as [e|]; [cbn; split; [reflexivity|split; [reflexivity|]];
                               discriminate|].
        rewrite (Hv eq_refl).
        destruct (IHfs Hsups ra fields2 Hts') as (Hr' & He' & Hv').
        destruct (readFields readData ra fields1) as [[r1 fs1] e1].
        destruct (readFields readData ra fields2) as [[r2 fs2] e2].
        cbn [fst snd] in *. subst r2 e2.
        split; [reflexivity|]. split; [reflexivity|].
        intros He1. rewrite (Hv' He1). reflexivity. }
    destruct Hfields as (Hr & He & Hv).
    destruct (readFields readData reader fields1) as [[r1 fs1] e1].
    destruct (readFields readData reader fields2) as [[r2 fs2] e2].
    cbn [fst snd] in *. subst r2 e2.
    split; [reflexivity|]. split; [reflexivity|].
    intros He1. rewrite (Hv He1). reflexivity.
  - destruct target1; try contradiction; cbn [supported] in Hsup;
      try contradiction;
      destruct target2; try discriminate Hty;
      cbn [readData]; unfold readScalar; read_steps; cbn; auto;
      (split; [reflexivity|]; split; [reflexivity|]; discriminate).
Qed.

(** X12: what the target of [ReadPacket] held before does not matter: into
    two records of the same type, built from the supported kinds,
    [ReadPacket] consumes the same bytes, returns the same error or none,
    and when it returns none leaves the same record. *)
Theorem ReadPacket_ignores_target (reader : Reader) (target1 target2 : Value) :
  supported target1 -> TypeOf target1 = TypeOf target2 ->
  let '(reader1, packet1, err1) := ReadPacket reader (PacketPtr (Some target1)) in
  let '(reader2, packet2, err2) := ReadPacket reader (PacketPtr (Some target2)) in
  reader1 = reader2 /\ err1 = err2 /\ (err1 = None -> packet1 = packet2).
Proof.
  intros Hsup Hty. unfold ReadPacket.
  destruct (readData_same_type target1 reader target2 Hsup Hty) as (Hr & He & Hv).
  destruct (readData reader target1) as [[r1 v1] e1].
  destruct (readData reader target2) as [[r2 v2] e2].
  cbn [fst snd] in *. subst r2 e2.
  split; [reflexivity|]. split; [reflexivity|].
  intros He1. rewrite (Hv He1). reflexivity.
Qed.

Lemma ReadPacket_ignores_target_witness :
  let '(reader1, packet1, err1) :=
    ReadPacket [x01; x00; x2a; xff]
      (PacketPtr (Some (VStruct [VBool false; VUint16 0]))) in
  let '(reader2, packet2, err2) :=
    ReadPacket [x01; x00; x2a; xff]
      (PacketPtr (Some (VStruct [VBool true; VUint16 7]))) in
  reader1 = reader2 /\ err1 = err2 /\ (err1 = None -> packet1 = packet2).
Proof.
  apply (ReadPacket_ignores_target [x01; x00; x2a; xff]
           (VStruct [VBool false; VUint16 0]) (VStruct [VBool true; VUint16 7])).
  - simpl. tauto.
  - reflexivity.
Defined.

(** **** Records of a fixed size *)

Lemma readData_fixed_size (target : Value) :
  forall (reader : Reader) (n : nat),
    wire_size target = Some n ->
    ((n <= length reader)%nat ->
     exists value, readData reader target = (drop n reader, value, None)) /\
    ((length reader < n)%nat ->
     exists value err,
       readData reader target = ([], value, Some err) /\
       (err = EOF \/ err = ErrUnexpectedEOF)).
Proof.
  induction target as [fields IH | target Hscalar] using Value_ind.
  - induction IH as [|f fields Hf _ IHfs]; intros reader n Hsize.
    + cbn in Hsize. inversion Hsize; subst n. split; [|simpl; lia].
      intros _. exists (VStruct []). reflexivity.
    + rewrite wire_size_struct_cons in Hsize.
      destruct (wire_size f) as [a|] eqn:Ha; [|discriminate].
      destruct (wire_size (VStruct fields)) as [b|] eqn:Hb; [|discriminate].
      inversion Hsize; subst n. clear Hsize.
      destruct (Hf reader a eq_refl) as [Hf1 Hf2].
      assert (Hrest : (a <= length reader)%nat ->
                exists v, readData reader f = (drop a reader, v, None) /\
                  (((b <= length (drop a reader))%nat ->
                    exists value,
                      readData (drop a reader) (VStruct fields)
                      = (drop b (drop a reader), value, None)) /\
                   ((length (drop a reader) < b)%nat ->
                    exists value err,
                      readData (drop a reader) (VStruct fields)
                      = ([], value, Some err) /\
                      (err = EOF \/ err = ErrUnexpectedEOF)))).
      { intros Ha_le. destruct (Hf1 Ha_le) as [v Hv]. exists v.
        split; [exact Hv|]. apply IHfs. reflexivity. }
      split; intros Hlen.
      * destruct Hrest as (v & Hv & [Hvs _]); [lia|].
        destruct Hvs as [vs Hvs]; [rewrite length_drop; lia|].
        rewrite readData_struct in Hvs. rewrite readData_struct, readFields_cons, Hv.
        destruct (readFields readData (drop a reader) fields) as [[r2 fs2] e2].
        inversion Hvs; subst. rewrite drop_drop. eexists. reflexivity.
      * destruct (le_lt_dec a (length reader)) as [Ha_le | Ha_gt].
        -- destruct Hrest as (v & Hv & [_ Hvs]); [lia|].
           destruct Hvs as (vs & err & Hvs & Herr); [rewrite length_drop; lia|].
           rewrite readData_struct in Hvs.
           rewrite readData_struct, readFields_cons, Hv.
           destruct (readFields readData (drop a reader) fields) as [[r2 fs2] e2].
           inversion Hvs; subst. eexists _, err. split; [reflexivity | exact Herr].
        -- destruct (Hf2 Ha_gt) as (v & err & Hv & Herr).
           rewrite readData_struct, readFields_cons, Hv.
           eexists _, err. split; [reflexivity | exact Herr].
  - intros reader n Hsize.
    destruct target; try contradiction; cbn in Hsize; try discriminate Hsize;
      inversion Hsize; subst n; clear Hsize;
      (split; intros Hlen; cbn [readData]; unfold readScalar;
       [ rewrite ReadFull_enough by exact Hlen; eexists; reflexivity
       | destruct (ReadFull_short reader _ Hlen) as (err & -> & Herr);
         eexists _, err; split; [reflexivity | exact Herr] ]).
Qed.

(** X13: a record without strings, built from bool, the integers and the
    floats, has a fixed size on the wire.  [ReadPacket] succeeds on every
    stream of at least that many bytes, whatever the bytes, and consumes
    exactly that many; on a shorter stream it fails with [EOF] or
    [ErrUnexpectedEOF], and has read the stream to its end. *)
Theorem ReadPacket_fixed_size (reader : Reader) (target : Value) (n : nat) :
  wire_size target = Some n ->
  ((n <= length reader)%nat ->
   exists value,
     ReadPacket reader (PacketPtr (Some target))
     = (drop n reader, PacketPtr (Some value), None)) /\
  ((length reader < n)%nat ->
   exists value err,
     ReadPacket reader (PacketPtr (Some target))
     = ([], PacketPtr (Some value), Some err) /\
     (err = EOF \/ err = ErrUnexpectedEOF)).
Proof.
  intros Hsize. unfold ReadPacket.
  destruct (readData_fixed_size target reader n Hsize) as [Hok Hshort].
  split; intros Hlen.
  - destruct (Hok Hlen) as [value ->]. eauto.
  - destruct (Hshort Hlen) as (value & err & -> & Herr). eauto.
Qed.

Lemma ReadPacket_fixed_size_witness :
  (exists value,
     ReadPacket [x01; x00; x2a; xff] (PacketPtr (Some (VStruct [VBool false; VUint16 0])))
     = ([xff], PacketPtr (Some value), None)) /\
  (exists value err,
     ReadPacket [x01; x00] (PacketPtr (Some (VStruct [VBool false; VUint16 0])))
     = ([], PacketPtr (Some value), Some err) /\
     (err = EOF \/ err = ErrUnexpectedEOF)).
Proof.
  split.
  - apply (ReadPacket_fixed_size [x01; x00; x2a; xff]
             (VStruct [VBool false; VUint16 0]) 3 eq_refl). simpl. lia.
  - apply (ReadPacket_fixed_size [x01; x00]
             (VStruct [VBool false; VUint16 0]) 3 eq_refl). simpl. lia.
Defined.

(** **** What has been read is in normal form *)

(** Whatever the bits, a [float32] that went through [float64] and back is
    a [float32] and no signalling NaN. *)
Lemma float32_quieted (b : Z) :
  0 <= b < 2 ^ 32 ->
  0 <= float32_of_float64 (float64_of_float32 b) < 2 ^ 32 /\
  float32_signalling (float32_of_float64 (float64_of_float32 b)) = false.
Proof.
  intros Hb. destruct (float32_signalling b) eqn:Hsig.
  - destruct (float32_fields b Hb) as (Hdec & Hs & He & Hm).
    unfold float32_signalling in Hsig.
    apply andb_prop in Hsig as [Hsig Hlt]. apply andb_prop in Hsig as [He255 Hm0].
    apply negb_true_iff in Hm0.
    assert (Hq : float32_of_float64 (float64_of_float32 b) = b + 2 ^ 22).
    { unfold float64_of_float32. cbv zeta. rewrite He255, Hm0, Hlt.
      apply Z.eqb_eq in He255. apply Z.eqb_neq in Hm0. apply Z.ltb_lt in Hlt.
      set (s := b / 2 ^ 31) in *. set (m := b mod 2 ^ 23) in *.
      rewrite float32_of_float64_by_fields by lia.
      change (2047 =? 2047) with true. cbv iota.
      rewrite Z.div_mul by lia.
      destruct ((m + 2 ^ 22) * 2 ^ 29 =? 0) eqn:Ez; [lia|].
      destruct (m + 2 ^ 22 <? 2 ^ 22) eqn:E; lia. }
    apply Z.eqb_eq in He255. apply Z.ltb_lt in Hlt.
    rewrite Hq. split; [lia|].
    assert (Hmod : (b + 2 ^ 22) mod 2 ^ 23 = b mod 2 ^ 23 + 2 ^ 22).
    { symmetry. apply (Z.mod_unique _ _ (b / 2 ^ 31 * 2 ^ 8 + 255)); lia. }
    unfold float32_signalling. rewrite Hmod.
    destruct (b mod 2 ^ 23 + 2 ^ 22 <? 2 ^ 22) eqn:E; [lia|].
    apply andb_false_r.
  - rewrite float32_float64_float32 by assumption. auto.
Qed.

(** A value read without error into a target of a fixed size is legal, and
    of the type of the target. *)
Lemma readData_legal (target : Value) :
  forall (reader reader' : Reader) (value : Value) (n : nat),
    wire_size target = Some n ->
    readData reader target = (reader', value, None) ->
    legal value /\ TypeOf value = TypeOf target.
Proof.
  induction target as [fields IH | target Hscalar] using Value_ind.
  - induction IH as [|f fields Hf _ IHfs]; intros reader reader' value n Hsize Hread.
    + cbn in Hread. inversion Hread; subst. split; [exact I | reflexivity].
    + rewrite wire_size_struct_cons in Hsize.
      destruct (wire_size f) as [a|] eqn:Ha; [|discriminate].
      destruct (wire_size (VStruct fields)) as [b|] eqn:Hb; [|discriminate].
      rewrite readData_struct, readFields_cons in Hread.
      destruct (readData reader f) as [[r1 v1] [e1|]] eqn:Hf_read;
        [inversion Hread|].
      destruct (readFields readData r1 fields) as [[r2 fs2] e2] eqn:Hfs.
      inversion Hread; subst. clear Hread.
      destruct (Hf reader r1 v1 a eq_refl Hf_read) as [Hl1 Ht1].
      destruct (IHfs r1 reader' (VStruct fs2) b eq_refl) as [Hl2 Ht2].
      { rewrite readData_struct, Hfs. reflexivity. }
      split.
      * change (legal v1 /\ legal (VStruct fs2)). split; assumption.
      * cbn [TypeOf map] in *. congruence.
  - intros reader reader' value n Hsize Hread.
    destruct target; try contradiction; cbn in Hsize; try discriminate Hsize;
      cbn [readData] in Hread; unfold readScalar in Hread;
      match type of Hread with
      | context [ReadFull ?r ?k] =>
          destruct (ReadFull r k) as [r1 [bs|e]] eqn:HR
      end;
      inversion Hread; subst; apply ReadFull_inv in HR as [_ Hlen];
      (split; [|reflexivity]); cbn [legal];
      pose proof (BigEndian_Uint_range bs) as Hbs; rewrite Hlen in Hbs.
    + exact I.
    + apply (wrap_signed_range 8). lia.
    + apply (wrap_signed_range 16). lia.
    + apply (wrap_signed_range 32). lia.
    + apply (wrap_signed_range 64). lia.
    + apply (wrap_unsigned_range 8). lia.
    + apply (wrap_unsigned_range 16). lia.
    + apply (wrap_unsigned_range 32). lia.
    + apply (wrap_unsigned_range 64). lia.
    + apply float32_quieted. exact Hbs.
    + exact Hbs.
Qed.

(** X14: reading normalises.  The record that [ReadPacket] has read from
    any bytes into a target of a fixed size is written by [WritePacket] as
    exactly that many bytes, and these bytes read back as the same record,
    also where they are not the bytes first read (a bool byte other than 0
    and 1, a signalling NaN). *)
Theorem ReadPacket_reencoded_reads_same (reader reader' : Reader)
    (target value : Value) (n : nat) :
  wire_size target = Some n ->
  ReadPacket reader (PacketPtr (Some target))
  = (reader', PacketPtr (Some value), None) ->
  exists bytes : list byte,
    length bytes = n /\
    WritePacket new_Buffer (PacketPtr (Some value))
    = ({| written := bytes; room := None |}, None) /\
    ReadPacket bytes (PacketPtr (Some target))
    = ([], PacketPtr (Some value), None).
Proof.
  intros Hsize Hread. unfold ReadPacket in Hread.
  destruct (readData reader target) as [[r v] e] eqn:Hdata.
  inversion Hread; subst. clear Hread.
  destruct (readData_legal target reader reader' value n Hsize Hdata) as [Hlegal Hty].
  destruct (write_read_value value Hlegal) as (bytes & Hw & Hr).
  assert (Hback : readData bytes target = ([], value, None)).
  { rewrite <- (app_nil_r bytes) at 1. apply Hr. symmetry. exact Hty. }
  exists bytes. split; [|split].
  - destruct (readData_fixed_size target bytes n Hsize) as [Hok Hshort].
    destruct (le_lt_dec n (length bytes)) as [Hle | Hgt].
    + destruct (Hok Hle) as [v Hv]. rewrite Hback in Hv.
      assert (Hdrop : drop n bytes = []) by congruence.
      apply (f_equal length) in Hdrop. rewrite length_drop in Hdrop.
      simpl in Hdrop. lia.
    + destruct (Hshort Hgt) as (v & err & Hv & _). rewrite Hback in Hv.
      discriminate Hv.
  - unfold WritePacket, new_Buffer. rewrite Hw. reflexivity.
  - unfold ReadPacket. rewrite Hback. reflexivity.
Qed.

Lemma ReadPacket_reencoded_reads_same_witness :
  exists bytes : list byte,
    length bytes = 5%nat /\
    WritePacket new_Buffer
      (PacketPtr (Some (VStruct [VBool true; VFloat32 0x7fc00001])))
    = ({| written := bytes; room := None |}, None) /\
    ReadPacket bytes (PacketPtr (Some (VStruct [VBool false; VFloat32 0])))
    = ([], PacketPtr (Some (VStruct [VBool true; VFloat32 0x7fc00001])), None).
Proof.
  apply (ReadPacket_reencoded_reads_same [x02; x7f; x80; x00; x01] []
           (VStruct [VBool false; VFloat32 0])
           (VStruct [VBool true; VFloat32 0x7fc00001]) 5).
  - reflexivity.
  - vm_compute. reflexivity.
Defined.

(** **** Errors in the middle of a record *)

Lemma readData_error_keeps_scalar (reader reader' : Reader) (field field' : Value)
    (err : Error) :
  readData reader field = (reader', field', Some err) ->
  match field with
  | VStruct _ | VMarshaler _ _ => True
  | _ => field' = field
  end.
Proof.
  intros Hread.
  destruct field; try exact I;
    cbn [readData] in Hread; unfold readScalar in Hread;
    repeat match type of Hread with
           | context [ReadFull ?r ?k] => destruct (ReadFull r k) as [? [?|?]]
           | context [if ?b then _ else _] => destruct b
           end;
    inversion Hread; reflexivity.
Qed.

Lemma readFields_error (fields : list Value) :
  forall (reader reader' : Reader) (fields' : list Value) (err : Error),
    readFields readData reader fields = (reader', fields', Some err) ->
    exists pre pre' field field' post reader1,
      fields = pre ++ field :: post /\
      fields' = pre' ++ field' :: post /\
      readFields readData reader pre = (reader1, pre', None) /\
      readData reader1 field = (reader', field', Some err).
Proof.
  induction fields as [|f fields IH]; intros reader reader' fields' err Hread.
  - discriminate Hread.
  - rewrite readFields_cons in Hread.
    destruct (readData reader f) as [[r1 v1] [e1|]] eqn:Hf.
    + inversion Hread; subst.
      exists [], [], f, v1, fields, reader. repeat split; assumption.
    + destruct (readFields readData r1 fields) as [[r2 fs2] e2] eqn:Hfs.
      inversion Hread; subst. clear Hread.
      destruct (IH r1 reader' fs2 err Hfs)
        as (pre & pre' & field & field' & post & reader1 & -> & -> & Hpre & Hfield).
      exists (f :: pre), (v1 :: pre'), field, field', post, reader1.
      split; [reflexivity|]. split; [reflexivity|]. split; [|exact Hfield].
      rewrite readFields_cons, Hf, Hpre. reflexivity.
Qed.

(** X15: [ReadPacket] fills the record as it goes and does not undo it.
    When it fails on a record, it has failed on one of its fields: the
    fields before that one have been read, as by [ReadPacket] on a record of
    just these, the fields after it are as they were, and the field itself,
    unless it is a struct or marshals itself, is as it was.  The error is the
    error of that field, and the stream is where that field left it. *)
Theorem ReadPacket_error_partial (reader reader' : Reader)
    (fields fields' : list Value) (err : Error) :
  ReadPacket reader (PacketPtr (Some (VStruct fields)))
  = (reader', PacketPtr (Some (VStruct fields')), Some err) ->
  exists pre pre' field field' post reader1,
    fields = pre ++ field :: post /\
    fields' = pre' ++ field' :: post /\
    ReadPacket reader (PacketPtr (Some (VStruct pre)))
    = (reader1, PacketPtr (Some (VStruct pre')), None) /\
    ReadPacket reader1 (PacketPtr (Some field))
    = (reader', PacketPtr (Some field'), Some err) /\
    match field with
    | VStruct _ | VMarshaler _ _ => True
    | _ => field' = field
    end.
Proof.
  unfold ReadPacket. rewrite readData_struct. intros Hread.
  destruct (readFields readData reader fields) as [[r fs] e] eqn:Hfs.
  inversion Hread; subst. clear Hread.
  destruct (readFields_error fields reader reader' fields' err Hfs)
    as (pre & pre' & field & field' & post & reader1 & -> & -> & Hpre & Hfield).
  exists pre, pre', field, field', post, reader1.
  split; [reflexivity|]. split; [reflexivity|]. split; [|split].
  - rewrite readData_struct, Hpre. reflexivity.
  - rewrite Hfield. reflexivity.
  - exact (readData_error_keeps_scalar reader1 reader' field field' err Hfield).
Qed.

Lemma ReadPacket_error_partial_witness :
  exists pre pre' field field' post reader1,
    [VBool false; VUint16 9; VInt8 5] = pre ++ field :: post /\
    [VBool true; VUint16 9; VInt8 5] = pre' ++ field' :: post /\
    ReadPacket [x01; x00] (PacketPtr (Some (VStruct pre)))
    = (reader1, PacketPtr (Some (VStruct pre')), None) /\
    ReadPacket reader1 (PacketPtr (Some field))
    = ([], PacketPtr (Some field'), Some ErrUnexpectedEOF) /\
    match field with
    | VStruct _ | VMarshaler _ _ => True
    | _ => field' = field
    end.
Proof.
  apply (ReadPacket_error_partial [x01; x00] []
           [VBool false; VUint16 9; VInt8 5] [VBool true; VUint16 9; VInt8 5]
           ErrUnexpectedEOF).
  reflexivity.
Defined.

Lemma writeFields_error (fields : list Value) :
  forall (writer writer' : Writer) (err : Error),
    writeFields (writeData true) writer fields = (writer', Some err) ->
    exists pre field post writer1,
      fields = pre ++ field :: post /\
      writeFields (writeData true) writer pre = (writer1, None) /\
      writeData true writer1 field = (writer', Some err).
Proof.
  induction fields as [|f fields IH]; intros writer writer' err Hwrite.
  - discriminate Hwrite.
  - rewrite writeFields_cons in Hwrite.
    destruct (writeData true writer f) as [w1 [e1|]] eqn:Hf.
    + inversion Hwrite; subst.
      exists [], f, fields, writer. repeat split; assumption.
    + destruct (IH w1 writer' err Hwrite)
        as (pre & field & post & writer1 & -> & Hpre & Hfield).
      exists (f :: pre), field, post, writer1.
      split; [reflexivity|]. split; [|exact Hfield].
      rewrite writeFields_cons, Hf. exact Hpre.
Qed.

(** X16: [WritePacket] writes the record as it goes and does not undo it.
    When it fails on a record, it has failed on one of its fields: the
    fields before that one have been written, as by [WritePacket] on a
    record of just these, and nothing of the fields after it.  The error is
    the error of that field. *)
Theorem WritePacket_error_partial (writer writer' : Writer)
    (fields : list Value) (err : Error) :
  WritePacket writer (PacketPtr (Some (VStruct fields))) = (writer', Some err) ->
  exists pre field post writer1,
    fields = pre ++ field :: post /\
    WritePacket writer (PacketPtr (Some (VStruct pre))) = (writer1, None) /\
    WritePacket writer1 (PacketPtr (Some field)) = (writer', Some err).
Proof.
  unfold WritePacket. rewrite writeData_struct. intros Hwrite.
  destruct (writeFields_error fields writer writer' err Hwrite)
    as (pre & field & post & writer1 & -> & Hpre & Hfield).
  exists pre, field, post, writer1.
  split; [reflexivity|]. split; [|exact Hfield].
  rewrite writeData_struct. exact Hpre.
Qed.

Lemma WritePacket_error_partial_witness :
  exists pre field post writer1,
    [VUint16 42; VSlice []; VInt8 5] = pre ++ field :: post /\
    WritePacket new_Buffer (PacketPtr (Some (VStruct pre))) = (writer1, None) /\
    WritePacket writer1 (PacketPtr (Some field))
    = ({| written := [x00; x2a]; room := None |}, Some ErrorInternal).
Proof.
  apply (WritePacket_error_partial new_Buffer {| written := [x00; x2a]; room := None |}
           [VUint16 42; VSlice []; VInt8 5] ErrorInternal).
  reflexivity.
Defined.

(** **** Writers that run out of room *)






End Proto.
